(** * A shallow embedding of the search-engine core

    The Python sources are embedded function by function:

    - [Py]                : the few built-ins of Python the code relies on
                            (str methods, [sorted], [heapq], [re] patterns used
                            literally in the sources);
    - [Url]               : [urllib.parse.urlparse] / [urlunparse];
    - [DuplicateDetector] : src/duplicate_detector.py ([normalize_url]);
    - [URLFrontier]       : src/config/crawler/crawler.py;
    - [InvertedIndex]     : src/config/crawler/inverted_index.py;
    - [TFIDFScorer]       : src/config/crawler/ranker/tf_idf.py;
    - [PageRank]          : src/ranker/pagerank.py;
    - [QueryParser]       : src/query_parser.py;
    - [TextProcessor]     : src/text_processor.py ([calculate_term_weights]).

    Conventions.  Python [str] is modelled by [string]: the characters are
    the code points 0 to 255, and the case and class tests are those of
    Python on these code points.  Python [float] is modelled by
    exact rationals [Qc]; [time.time()] is an explicit argument.  A [dict] or
    [set] whose iteration order is not observable is a [gmap] / [gset]; a
    [dict] iterated in insertion order is an association list.  A [while]
    loop takes a fuel argument and answers [None] when the fuel runs out. *)

From Stdlib Require Import QArith Qcanon Qcabs Ascii String.
From stdpp Require Import gmap strings list sorting.

Local Open Scope string_scope.
#[local] Set Warnings "-clear-no-such-hyp".

(** ** Python built-ins *)

Module Py.

Definition code (c : ascii) : nat := nat_of_ascii c.

Definition between (lo hi : nat) (c : ascii) : bool :=
  (lo <=? code c)%nat && (code c <=? hi)%nat.

(** [c.isupper()]: A..Z, and the capital letters of Latin-1 (U+00C0 to
    U+00DE without the multiplication sign U+00D7). *)
Definition is_upper (c : ascii) : bool :=
  between 65 90 c || between 192 214 c || between 216 222 c.

(** The digits 0 to 9, and the letters of ASCII
    ([c.isascii() and c.isalpha()]). *)
Definition is_digit (c : ascii) : bool := between 48 57 c.
Definition is_alpha (c : ascii) : bool := between 65 90 c || between 97 122 c.

(** [\w] of the [re] module on a [str] pattern: the letters and digits of
    ASCII, the underscore, and the alphanumeric characters of Latin-1. *)
Definition is_word (c : ascii) : bool :=
  is_alpha c || is_digit c || Ascii.eqb c "_"
  || between 170 170 c || between 178 179 c || between 181 181 c
  || between 185 186 c || between 188 190 c || between 192 214 c
  || between 216 246 c || between 248 255 c.

(** [str.isspace] / [\s]: TAB..CR, FS..US, the blank, NEL (U+0085) and the
    no-break space (U+00A0). *)
Definition is_space (c : ascii) : bool :=
  between 9 13 c || between 28 31 c || Ascii.eqb c " "
  || between 133 133 c || between 160 160 c.

(** [c.lower()] *)
Definition lower_char (c : ascii) : ascii :=
  if is_upper c then ascii_of_nat (code c + 32) else c.

(** [c.upper()].  The micro sign, the sharp s and the y with diaeresis, whose
    upper case is no code point below 256, are left as they are; the sources
    call [upper] on the matches of ASCII keywords only. *)
Definition upper_char (c : ascii) : ascii :=
  if between 97 122 c || between 224 246 c || between 248 254 c
  then ascii_of_nat (code c - 32) else c.

Fixpoint smap (f : ascii -> ascii) (s : string) : string :=
  match s with
  | "" => ""
  | String c s' => String (f c) (smap f s')
  end.

(** [s.lower()], [s.upper()] *)
Definition lower (s : string) : string := smap lower_char s.
Definition upper (s : string) : string := smap upper_char s.

Fixpoint chars (s : string) : list ascii :=
  match s with
  | "" => []
  | String c s' => c :: chars s'
  end.

Fixpoint sall (p : ascii -> bool) (s : string) : bool :=
  match s with
  | "" => true
  | String c s' => p c && sall p s'
  end.

(** [bool(s)]: a string is truthy when it is not empty. *)
Definition truthy (s : string) : bool :=
  match s with "" => false | _ => true end.

(** [c in s] for a single character [c]. *)
Fixpoint has_char (c : ascii) (s : string) : bool :=
  match s with
  | "" => false
  | String d s' => Ascii.eqb d c || has_char c s'
  end.

(** [s.startswith(p)], with an optional case-insensitive comparison used for
    the [re.IGNORECASE] patterns. *)
Fixpoint starts_with (ci : bool) (p s : string) : bool :=
  match p, s with
  | "", _ => true
  | String _ _, "" => false
  | String a p', String b s' =>
      (if ci then Ascii.eqb (lower_char a) (lower_char b) else Ascii.eqb a b)
      && starts_with ci p' s'
  end.

Definition startswith (s p : string) : bool := starts_with false p s.

(** [s.endswith(p)] *)
Fixpoint endswith (s p : string) : bool :=
  String.eqb s p ||
  match s with
  | "" => false
  | String _ s' => endswith s' p
  end.

(** [p in s] for strings. *)
Fixpoint contains (p s : string) : bool :=
  startswith s p ||
  match s with
  | "" => false
  | String _ s' => contains p s'
  end.

(** [s.lstrip(...)], [s.rstrip(...)] and [s.strip()] over a character class. *)
Fixpoint lstrip_by (p : ascii -> bool) (s : string) : string :=
  match s with
  | "" => ""
  | String c s' => if p c then lstrip_by p s' else s
  end.

Fixpoint rstrip_by (p : ascii -> bool) (s : string) : string :=
  match s with
  | "" => ""
  | String c s' =>
      match rstrip_by p s' with
      | "" => if p c then "" else String c ""
      | r => String c r
      end
  end.

Definition rstrip (c : ascii) (s : string) : string := rstrip_by (Ascii.eqb c) s.
Definition strip (s : string) : string := lstrip_by is_space (rstrip_by is_space s).

(** The longest prefix without a character of the class, and the rest. *)
Fixpoint span_until (p : ascii -> bool) (s : string) : string * string :=
  match s with
  | "" => ("", "")
  | String c s' =>
      if p c then ("", s)
      else let '(a, b) := span_until p s' in (String c a, b)
  end.

(** [s.split(sep, 1)] when [sep in s]: the text before and after the first
    occurrence of the character. *)
Fixpoint partition_char (sep : ascii) (s : string) : option (string * string) :=
  match s with
  | "" => None
  | String c s' =>
      if Ascii.eqb c sep then Some ("", s')
      else match partition_char sep s' with
           | Some (a, b) => Some (String c a, b)
           | None => None
           end
  end.

(** [s.split(sep)] for a one-character separator. *)
Fixpoint split_char (sep : ascii) (s : string) : list string :=
  match s with
  | "" => [""]
  | String c s' =>
      if Ascii.eqb c sep then "" :: split_char sep s'
      else match split_char sep s' with
           | w :: ws => String c w :: ws
           | [] => [String c ""]
           end
  end.

(** [sep.join(l)] *)
Definition join (sep : string) (l : list string) : string := String.concat sep l.

(** [s.replace(old, new)] for a non-empty [old]: occurrences are replaced from
    left to right and do not overlap; [skip] counts the characters of the
    occurrence just replaced that are still to be passed over. *)
Fixpoint replace_from (old new : string) (skip : nat) (s : string) : string :=
  match s with
  | "" => ""
  | String c s' =>
      match skip with
      | S k => replace_from old new k s'
      | O =>
          if startswith s old
          then new ++ replace_from old new (String.length old - 1) s'
          else String c (replace_from old new 0 s')
      end
  end.

Definition replace (s old new : string) : string := replace_from old new 0 s.

(** Remove every character of a class ([s.replace(b, "")] for each [b]). *)
Fixpoint remove_chars (p : ascii -> bool) (s : string) : string :=
  match s with
  | "" => ""
  | String c s' => if p c then remove_chars p s' else String c (remove_chars p s')
  end.

(** [sorted(l)] with a comparison [le]: a stable insertion sort.  Python's
    sort is stable, so this is the list it produces whenever [le] is a total
    preorder. *)
Fixpoint insort {A} (le : A -> A -> bool) (x : A) (l : list A) : list A :=
  match l with
  | [] => [x]
  | y :: l' => if le x y then x :: l else y :: insort le x l'
  end.

Definition sorted_by {A} (le : A -> A -> bool) (l : list A) : list A :=
  foldr (insort le) [] l.

(** [sorted(l)] on strings: code-point order. *)
Definition sorted_str (l : list string) : list string := sorted_by String.leb l.

(** Rational numbers for Python's floats. *)
Definition qc (n : Z) (d : positive) : Qc := Q2Qc (n # d).
Definition of_nat (n : nat) : Qc := Q2Qc (inject_Z (Z.of_nat n)).

#[global] Instance Qc_eq_decision : EqDecision Qc := Qc_eq_dec.

Definition Qcltb (a b : Qc) : bool :=
  match (a ?= b)%Qc with Lt => true | _ => false end.
Definition Qcleb (a b : Qc) : bool :=
  match (a ?= b)%Qc with Gt => false | _ => true end.

(** True division [a / b]; [None] is [ZeroDivisionError]. *)
Definition truediv (a b : Qc) : option Qc :=
  if decide (b = 0%Qc) then None else Some (a / b)%Qc.

(** *** The [re] patterns of the sources

    [\b] holds between two neighbouring characters exactly one of which is a
    word character; outside the string counts as a non-word character. *)
Definition word_at (c : option ascii) : bool :=
  match c with Some a => is_word a | None => false end.

Definition boundary (before after : option ascii) : bool :=
  xorb (word_at before) (word_at after).

Fixpoint last_char (d : option ascii) (s : string) : option ascii :=
  match s with
  | "" => d
  | String c s' => last_char (Some c) s'
  end.

Definition head_char (s : string) : option ascii :=
  match s with "" => None | String c _ => Some c end.

Fixpoint sdrop (n : nat) (s : string) : string :=
  match n, s with
  | S k, String _ s' => sdrop k s'
  | _, _ => s
  end.

Fixpoint stake (n : nat) (s : string) : string :=
  match n, s with
  | S k, String c s' => String c (stake k s')
  | _, _ => ""
  end.

(** Does [\b w \b] match at the start of [s], [prev] being the character just
    before [s]? *)
Definition word_match_at (ci : bool) (prev : option ascii) (w s : string) : bool :=
  boundary prev (head_char s)
  && starts_with ci w s
  && boundary (last_char prev w) (head_char (sdrop (String.length w) s)).

(** The first alternative of [\b(w1|w2|...)\b] that matches at the start of [s]. *)
Fixpoint first_alt (ci : bool) (prev : option ascii) (alts : list string) (s : string)
  : option string :=
  match alts with
  | [] => None
  | w :: alts' =>
      if word_match_at ci prev w s then Some w else first_alt ci prev alts' s
  end.

(** [re.search(r'\b(w1|w2|...)\b', s)] as a truth value. *)
Fixpoint search_words_from (ci : bool) (prev : option ascii) (alts : list string)
    (s : string) : bool :=
  match first_alt ci prev alts s with
  | Some _ => true
  | None =>
      match s with
      | "" => false
      | String c s' => search_words_from ci (Some c) alts s'
      end
  end.

Definition search_words (ci : bool) (alts : list string) (s : string) : bool :=
  search_words_from ci None alts s.

(** [[m.group(0) for m in re.finditer(r'\b(w1|w2|...)\b', s)]]: the matched
    texts from left to right; a match consumes its characters. *)
Fixpoint finditer_words_from (ci : bool) (prev : option ascii) (alts : list string)
    (skip : nat) (s : string) : list string :=
  match skip with
  | S k =>
      match s with
      | "" => []
      | String c s' => finditer_words_from ci (Some c) alts k s'
      end
  | O =>
      match first_alt ci prev alts s with
      | Some w =>
          stake (String.length w) s ::
          match s with
          | "" => []
          | String c s' =>
              finditer_words_from ci (Some c) alts (String.length w - 1) s'
          end
      | None =>
          match s with
          | "" => []
          | String c s' => finditer_words_from ci (Some c) alts 0 s'
          end
      end
  end.

Definition finditer_words (ci : bool) (alts : list string) (s : string) : list string :=
  finditer_words_from ci None alts 0 s.

(** [re.search(r'key([^\s]+)', s, re.IGNORECASE)]: group 1 of the leftmost
    match, the longest run of non-blank characters after the key. *)
Fixpoint search_key_value (key : string) (s : string) : option string :=
  let here :=
    if starts_with true key s then
      match fst (span_until is_space (sdrop (String.length key) s)) with
      | "" => None
      | v => Some v
      end
    else None in
  match here with
  | Some v => Some v
  | None =>
      match s with
      | "" => None
      | String _ s' => search_key_value key s'
      end
  end.

(** The double quote, and the matches of the phrase pattern of the query
    parser (a quote, any characters but quotes, a quote) as [re.finditer]
    lists them: group 1 of each, the texts between successive pairs of
    quotes.  [inside] holds the text read since an opening quote, in reverse. *)
Definition dquote : ascii := "034"%char.

Fixpoint quoted_from (inside : option (list ascii)) (s : string) : list string :=
  match s with
  | "" => []
  | String c s' =>
      match inside with
      | None =>
          if Ascii.eqb c dquote then quoted_from (Some []) s' else quoted_from None s'
      | Some acc =>
          if Ascii.eqb c dquote
          then string_of_list_ascii (rev acc) :: quoted_from None s'
          else quoted_from (Some (c :: acc)) s'
      end
  end.

Definition finditer_quoted (s : string) : list string := quoted_from None s.

(** *** [heapq]

    A heap of totally ordered items is observed only through [heappop], which
    yields the least item; it is modelled by the sorted list of its items. *)
Definition heappush {A} (le : A -> A -> bool) (heap : list A) (x : A) : list A :=
  insort le x heap.

Definition heappop {A} (heap : list A) : option (A * list A) :=
  match heap with
  | [] => None
  | x :: heap' => Some (x, heap')
  end.

(** [re.sub(r'\s+', ' ', s)]: every run of blanks becomes one space;
    [in_run] tells that the previous character was a blank. *)
Fixpoint collapse_ws_from (in_run : bool) (s : string) : string :=
  match s with
  | "" => ""
  | String c s' =>
      if is_space c then
        if in_run then collapse_ws_from true s'
        else String " " (collapse_ws_from true s')
      else String c (collapse_ws_from false s')
  end.

Definition collapse_ws (s : string) : string := collapse_ws_from false s.

(** [s.split()]: the maximal runs of characters that are not blanks. *)
Fixpoint split_ws (s : string) : list string :=
  match s with
  | "" => []
  | String c s' =>
      if is_space c then split_ws s'
      else if is_space (default " "%char (head_char s')) then String c "" :: split_ws s'
      else match split_ws s' with
           | w :: ws => String c w :: ws
           | [] => [String c ""]
           end
  end.

End Py.

(** ** [urllib.parse]

    [urlparse] and [urlunparse] as CPython 3.11 defines them.  [urlparse]
    raises [ValueError] when the host part of the URL fails the checks on
    square brackets: [urlparse] below gives the components that the library
    splits the URL into, [urlparse_checked] the result with this error. *)

Module Url.

Record ParseResult := mkParse {
  scheme : string;
  netloc : string;
  path : string;
  params : string;
  query : string;
  fragment : string
}.

Definition uses_netloc : list string :=
  [""; "ftp"; "http"; "gopher"; "nntp"; "telnet"; "imap"; "wais"; "file";
   "mms"; "https"; "shttp"; "snews"; "prospero"; "rtsp"; "rtspu"; "rsync";
   "svn"; "svn+ssh"; "sftp"; "nfs"; "git"; "git+ssh"; "ws"; "wss"].

Definition uses_params : list string :=
  [""; "ftp"; "hdl"; "prospero"; "http"; "imap"; "https"; "shttp"; "rtsp";
   "rtspu"; "sip"; "sips"; "mms"; "sftp"; "tel"].

Definition str_in (s : string) (l : list string) : bool :=
  existsb (String.eqb s) l.

Definition is_scheme_char (c : ascii) : bool :=
  Py.is_alpha c || Py.is_digit c || Ascii.eqb c "+" || Ascii.eqb c "-"
  || Ascii.eqb c ".".

Definition is_c0_or_space (c : ascii) : bool := (Py.code c <=? 32)%nat.

Definition is_unsafe (c : ascii) : bool :=
  Ascii.eqb c "009" || Ascii.eqb c "010" || Ascii.eqb c "013".

Definition is_netloc_end (c : ascii) : bool :=
  Ascii.eqb c "/" || Ascii.eqb c "?" || Ascii.eqb c "#".

(** The scheme, when the text before the first colon is a letter followed by
    scheme characters, and the rest of the URL. *)
Definition split_scheme (url : string) : string * string :=
  match Py.partition_char ":" url with
  | Some (String c0 pre, rest) =>
      if Py.is_alpha c0 && Py.sall is_scheme_char (String c0 pre)
      then (Py.lower (String c0 pre), rest)
      else ("", url)
  | _ => ("", url)
  end.

(** [_splitnetloc(url, 2)] when [url[:2] == '//']. *)
Definition split_netloc (url : string) : string * string :=
  if Py.startswith url "//" then Py.span_until is_netloc_end (Py.sdrop 2 url)
  else ("", url).

Definition split_on_first (sep : ascii) (url : string) : string * string :=
  match Py.partition_char sep url with
  | Some (a, b) => (a, b)
  | None => (url, "")
  end.

(** The text up to and including the last slash, and the last segment. *)
Fixpoint last_segment (s : string) : string * string :=
  match s with
  | "" => ("", "")
  | String c s' =>
      match last_segment s' with
      | ("", t) => if Ascii.eqb c "/" then (String c "", t) else ("", String c t)
      | (h, t) => (String c h, t)
      end
  end.

(** [_splitparams]: the parameters follow the first semicolon of the last
    path segment. *)
Definition splitparams (url : string) : string * string :=
  let '(h, t) := last_segment url in
  match Py.partition_char ";" t with
  | Some (a, b) => (h ++ a, b)
  | None => (url, "")
  end.

(** The components that [urlsplit] and [urlparse] split the URL into. *)
Definition urlparse (url0 : string) : ParseResult :=
  let url := Py.remove_chars is_unsafe (Py.lstrip_by is_c0_or_space url0) in
  let '(scheme, url) := split_scheme url in
  let '(netloc, url) := split_netloc url in
  let '(url, fragment) := split_on_first "#" url in
  let '(url, query) := split_on_first "?" url in
  let '(url, params) :=
    if str_in scheme uses_params then splitparams url else (url, "") in
  mkParse scheme netloc url params query fragment.

(** [s.rpartition(sep)[2]]: the text after the last occurrence of the
    character, the whole text when there is none. *)
Fixpoint after_last (sep : ascii) (s : string) : string :=
  match s with
  | "" => ""
  | String c s' =>
      if Py.has_char sep s' then after_last sep s'
      else if Ascii.eqb c sep then s' else s
  end.

Section Checked.

(** [_check_bracketed_host(hostname)], which rests on the [ipaddress] module:
    [true] when it returns, [false] when it raises [ValueError]. *)
Variable _check_bracketed_host : string -> bool.

(** [_check_bracketed_netloc(netloc)]: [false] when it raises [ValueError]. *)
Definition _check_bracketed_netloc (netloc : string) : bool :=
  let hostname_and_port := after_last "@" netloc in
  match Py.partition_char "[" hostname_and_port with
  | Some (before_bracket, bracketed) =>
      if Py.truthy before_bracket then false
      else
        let '(hostname, port) := split_on_first "]" bracketed in
        if Py.truthy port && negb (Py.startswith port ":") then false
        else _check_bracketed_host hostname
  | None =>
      let '(hostname, port) := split_on_first ":" hostname_and_port in
      _check_bracketed_host hostname
  end.

(** The checks of [urlsplit] on the host part it has split off: [false] when
    one of them raises [ValueError].  ([_checknetloc] looks for characters
    whose NFKC form holds a delimiter; no code point below 256 has such a
    form, so that it always returns here.) *)
Definition netloc_accepted (netloc : string) : bool :=
  let opening := Py.has_char "[" netloc in
  let closing := Py.has_char "]" netloc in
  if (opening && negb closing) || (closing && negb opening) then false
  else if opening && closing then _check_bracketed_netloc netloc
  else true.

(** [urlparse(url)]; [None] is [ValueError]. *)
Definition urlparse_checked (url : string) : option ParseResult :=
  let result := urlparse url in
  if netloc_accepted (netloc result) then Some result else None.

End Checked.

Definition urlunsplit (scheme netloc url query fragment : string) : string :=
  let url :=
    if Py.truthy netloc
       || (Py.truthy scheme && str_in scheme uses_netloc
           && negb (Py.startswith url "//"))
    then
      let url :=
        if Py.truthy url && negb (Py.startswith url "/") then "/" ++ url else url in
      "//" ++ netloc ++ url
    else url in
  let url := if Py.truthy scheme then scheme ++ ":" ++ url else url in
  let url := if Py.truthy query then url ++ "?" ++ query else url in
  if Py.truthy fragment then url ++ "#" ++ fragment else url.

Definition urlunparse (p : ParseResult) : string :=
  let url := if Py.truthy (params p) then path p ++ ";" ++ params p else path p in
  urlunsplit (scheme p) (netloc p) url (query p) (fragment p).

End Url.

(** ** src/duplicate_detector.py *)

Module DuplicateDetector.

Definition tracking_params : list string :=
  ["utm_source"; "utm_medium"; "utm_campaign"; "utm_term"; "utm_content";
   "ref"; "source"].

(** The body of the loop over [parsed.query.split('&')]: a part is kept when
    it has an equals sign and its key is not a tracking parameter. *)
Definition keep_param (param : string) : bool :=
  match Py.partition_char "=" param with
  | Some (key, value) => negb (Url.str_in key tracking_params)
  | None => false
  end.

Definition normalize_query (query : string) : string :=
  if Py.truthy query then
    let query_parts := List.filter keep_param (Py.split_char "&" query) in
    Py.join "&" (Py.sorted_str query_parts)
  else "".

Section Detector.

(** [urllib.parse._check_bracketed_host], see [Url.urlparse_checked]. *)
Variable _check_bracketed_host : string -> bool.

(** [None] is the [ValueError] of [urlparse]. *)
Definition normalize_url (url : string) : option string :=
  match Url.urlparse_checked _check_bracketed_host (Py.lower url) with
  | None => None
  | Some parsed =>
      let normalized_query := normalize_query (Url.query parsed) in
      Some (Url.urlunparse
              (Url.mkParse (Url.scheme parsed) (Url.netloc parsed)
                 (Py.rstrip "/" (Url.path parsed)) (Url.params parsed)
                 normalized_query ""))
  end.

(** [hashlib.sha256(text.encode('utf-8')).hexdigest()], [mmh3.hash],
    [BeautifulSoup(content, 'html.parser').get_text()] and [str] on a
    frozenset: library functions the detector is given. *)
Variable sha256_hexdigest : string -> string.
Variable mmh3_hash : string -> Z.
Variable get_text : string -> string.
Variable str_of_fingerprint : gset Z -> string.

Record t := mk {
  url_hashes : gset string;
  content_hashes : gset (gset Z);
  similarity_threshold : Qc;
  (** the Redis sets 'seen_urls' and 'content_fingerprints' *)
  redis_seen_urls : gset string;
  redis_content_fingerprints : gset string
}.

(** [DuplicateDetector()] *)
Definition init : t := mk ∅ ∅ (Py.qc 85 100) ∅ ∅.

Definition hash_string (text : string) : string := sha256_hexdigest text.

(** The answer is [None] when [normalize_url] raises [ValueError]; the
    detector is then as it was. *)
Definition is_duplicate_url (url : string) (self : t) : option bool * t :=
  match normalize_url url with
  | None => (None, self)
  | Some url_normalized =>
      let url_hash := hash_string url_normalized in
      if decide (url_hash ∈ redis_seen_urls self) then (Some true, self)
      else if decide (url_hash ∈ url_hashes self) then (Some true, self)
      else
        (Some false,
         mk ({[url_hash]} ∪ url_hashes self) (content_hashes self)
            (similarity_threshold self)
            ({[url_hash]} ∪ redis_seen_urls self) (redis_content_fingerprints self))
  end.

(** The five-word shingles of a list of words. *)
Definition shingles (words : list string) : list string :=
  (fun i => Py.join " " (take 5 (drop i words))) <$> seq 0 (length words - 4).

(** The words of the cleaned text of a page. *)
Definition content_words (content : string) : list string :=
  let text := get_text content in
  let text := Py.strip (Py.lower (Py.collapse_ws text)) in
  Py.split_ws text.

Definition create_content_fingerprint (content : string) : gset Z :=
  list_to_set (mmh3_hash <$> shingles (content_words content)).

Definition calculate_similarity (fingerprint1 fingerprint2 : gset Z) : Qc :=
  if decide (fingerprint1 = ∅) then 0%Qc
  else if decide (fingerprint2 = ∅) then 0%Qc
  else
    let intersection := size (fingerprint1 ∩ fingerprint2) in
    let union := size (fingerprint1 ∪ fingerprint2) in
    if (0 <? union)%nat then (Py.of_nat intersection / Py.of_nat union)%Qc else 0%Qc.

Definition is_duplicate_content (content url : string) (self : t) : bool * t :=
  let fingerprint := create_content_fingerprint content in
  if existsb (fun existing_fingerprint =>
                Py.Qcltb (similarity_threshold self)
                  (calculate_similarity fingerprint existing_fingerprint))
       (elements (content_hashes self))
  then (true, self)
  else
    (false,
     mk (url_hashes self) ({[fingerprint]} ∪ content_hashes self)
        (similarity_threshold self) (redis_seen_urls self)
        ({[str_of_fingerprint fingerprint]} ∪ redis_content_fingerprints self)).

Definition clear_cache (self : t) : t :=
  mk ∅ ∅ (similarity_threshold self) ∅ ∅.

End Detector.

End DuplicateDetector.

(** ** src/config/settings.py *)

Module Config.

(** [CRAWL_DELAY = float(os.getenv('CRAWL_DELAY', '1.0'))], at its default. *)
Definition CRAWL_DELAY : Qc := 1%Qc.

End Config.

(** ** src/config/crawler/crawler.py *)

Module URLFrontier.

(** An item of the priority queue: [(priority, timestamp, url)]. *)
Definition entry : Type := Z * Qc * string.

(** Python compares tuples lexicographically. *)
Definition entry_compare (a b : entry) : comparison :=
  let '(p1, t1, u1) := a in
  let '(p2, t2, u2) := b in
  match Z.compare p1 p2 with
  | Eq =>
      match (t1 ?= t2)%Qc with
      | Eq => String.compare u1 u2
      | c => c
      end
  | c => c
  end.

Definition entry_le (a b : entry) : bool :=
  match entry_compare a b with Gt => false | _ => true end.

Record t := mk {
  priority_queue : list entry;
  domain_queues : gmap string (list string);
  domain_last_access : gmap string Qc;
  crawled_urls : gset string;
  (** the Redis set 'frontier_urls' *)
  redis_frontier_urls : gset string
}.

(** [URLFrontier()] *)
Definition init : t := mk [] ∅ ∅ ∅ ∅.

(** [add_url(url, priority)] when [time.time()] is [now]: the returned flag
    and the new state. *)
Definition add_url (now : Qc) (url : string) (priority : Z) (self : t) : bool * t :=
  if decide (url ∈ crawled_urls self) then (false, self)
  else
    let domain := Url.netloc (Url.urlparse url) in
    (true,
     mk (Py.heappush entry_le (priority_queue self) (priority, now, url))
        (<[domain := (default [] (domain_queues self !! domain) ++ [url])%list]>
           (domain_queues self))
        (domain_last_access self)
        (crawled_urls self)
        ({[url]} ∪ redis_frontier_urls self)).

(** The [while self.priority_queue] loop of [get_next_url]; [None] when the
    fuel is spent before the loop is left. *)
Fixpoint get_next_url_loop (fuel : nat) (current_time : Qc) (self : t)
  : option (option string * t) :=
  match fuel with
  | O => None
  | S fuel' =>
      match Py.heappop (priority_queue self) with
      | None => Some (None, self)
      | Some ((priority, timestamp, url), queue) =>
          let domain := Url.netloc (Url.urlparse url) in
          let last_access := default 0%Qc (domain_last_access self !! domain) in
          if Py.Qcltb (current_time - last_access)%Qc Config.CRAWL_DELAY then
            get_next_url_loop fuel' current_time
              (mk (Py.heappush entry_le queue
                     (priority, (current_time + Config.CRAWL_DELAY)%Qc, url))
                  (domain_queues self) (domain_last_access self)
                  (crawled_urls self) (redis_frontier_urls self))
          else
            Some (Some url,
                  mk queue (domain_queues self)
                     (<[domain := current_time]> (domain_last_access self))
                     ({[url]} ∪ crawled_urls self)
                     (redis_frontier_urls self ∖ {[url]}))
      end
  end.

(** [get_next_url()] when [time.time()] is [current_time]. *)
Definition get_next_url (fuel : nat) (current_time : Qc) (self : t)
  : option (option string * t) :=
  get_next_url_loop fuel current_time self.

Definition is_empty (self : t) : bool :=
  bool_decide (length (priority_queue self) = 0%nat).

Definition size (self : t) : nat := length (priority_queue self).

(** A call of the interface, with the clock reading at the call. *)
Inductive call :=
| AddUrl (now : Qc) (url : string) (priority : Z)
| GetNextUrl (now : Qc).

(** Run a sequence of calls; the trace lists what each [get_next_url]
    returned.  [None] when some [get_next_url] does not return within
    [fuel] iterations. *)
Fixpoint run (fuel : nat) (calls : list call) (self : t)
  : option (list (option string) * t) :=
  match calls with
  | [] => Some ([], self)
  | AddUrl now url priority :: calls' =>
      run fuel calls' (snd (add_url now url priority self))
  | GetNextUrl now :: calls' =>
      match get_next_url fuel now self with
      | None => None
      | Some (r, self') =>
          match run fuel calls' self' with
          | None => None
          | Some (rs, self'') => Some (r :: rs, self'')
          end
      end
  end.

(** Every queued URL belongs to a host that was accessed less than
    [CRAWL_DELAY] before [current_time]. *)
Definition blocked (current_time : Qc) (self : t) (e : entry) : Prop :=
  Py.Qcltb
    (current_time
     - default 0%Qc (domain_last_access self !! Url.netloc (Url.urlparse (snd e))))%Qc
    Config.CRAWL_DELAY = true.

End URLFrontier.

(** ** src/config/crawler/inverted_index.py *)

Module InvertedIndex.

(** A posting [(doc_id, tf, positions)]. *)
Definition posting : Type := string * nat * list nat.

Definition posting_doc (p : posting) : string := p.1.1.

Record t := mk {
  index : gmap string (list posting);
  document_freq : gmap string nat;
  total_docs : nat;
  doc_lengths : gmap string nat
}.

(** [InvertedIndex()] *)
Definition init : t := mk ∅ ∅ 0 ∅.

(** A [defaultdict] local to [add_document], in insertion order:
    [d[k] = f(d[k])], a missing key reading as the default. *)
Fixpoint od_alter {V} (f : option V -> V) (k : string) (d : list (string * V))
  : list (string * V) :=
  match d with
  | [] => [(k, f None)]
  | (k', v) :: d' =>
      if String.eqb k k' then (k', f (Some v)) :: d'
      else (k', v) :: od_alter f k d'
  end.

Fixpoint od_get {V} (k : string) (d : list (string * V)) : option V :=
  match d with
  | [] => None
  | (k', v) :: d' => if String.eqb k k' then Some v else od_get k d'
  end.

(** The loop over [enumerate(tokens)], from position [position] on. *)
Fixpoint count_terms (position : nat) (tokens : list string)
    (term_freq : list (string * nat)) (term_positions : list (string * list nat))
  : list (string * nat) * list (string * list nat) :=
  match tokens with
  | [] => (term_freq, term_positions)
  | token :: tokens' =>
      if (2 <=? String.length token)%nat then
        count_terms (S position) tokens'
          (od_alter (fun o => S (default 0%nat o)) token term_freq)
          (od_alter (fun o => (default [] o ++ [position])%list) token term_positions)
      else count_terms (S position) tokens' term_freq term_positions
  end.

(** [self.index[term].append(posting)] *)
Definition append_posting (term : string) (p : posting)
    (index : gmap string (list posting)) : gmap string (list posting) :=
  <[term := (default [] (index !! term) ++ [p])%list]> index.

(** [self.document_freq[term] += 1] *)
Definition incr_freq (term : string) (df : gmap string nat) : gmap string nat :=
  <[term := S (default 0%nat (df !! term))]> df.

Definition add_document (doc_id : string) (tokens : list string) (self : t) : t :=
  if decide (is_Some (doc_lengths self !! doc_id)) then self
  else
    let '(term_freq, term_positions) := count_terms 0 tokens [] [] in
    let index' :=
      foldl (fun idx '(term, freq) =>
               let positions := default [] (od_get term term_positions) in
               append_posting term (doc_id, freq, positions) idx)
            (index self) term_freq in
    let unique_terms : gset string := list_to_set term_freq.*1 in
    let document_freq' := set_fold incr_freq (document_freq self) unique_terms in
    mk index' document_freq' (S (total_docs self))
       (<[doc_id := length tokens]> (doc_lengths self)).

Definition search (terms : list string) (self : t) : gmap string (list posting) :=
  foldl (fun results term =>
           match index self !! term with
           | Some postings => <[term := postings]> results
           | None => <[term := []]> results
           end) ∅ terms.

Definition get_document_frequency (term : string) (self : t) : nat :=
  default 0%nat (document_freq self !! term).

Fixpoint first_tf (doc_id : string) (postings : list posting) : option nat :=
  match postings with
  | [] => None
  | (doc, tf, positions) :: rest =>
      if String.eqb doc doc_id then Some tf else first_tf doc_id rest
  end.

Definition get_term_frequency (term doc_id : string) (self : t) : nat :=
  match index self !! term with
  | Some postings => default 0%nat (first_tf doc_id postings)
  | None => 0%nat
  end.

Definition get_document_length (doc_id : string) (self : t) : nat :=
  default 0%nat (doc_lengths self !! doc_id).

Record stats := mk_stats {
  total_documents : nat;
  unique_terms : nat;
  total_postings : nat;
  average_doc_length : Qc
}.

(** [get_stats()]; [None] stands for an exception raised by the division. *)
Definition get_stats (self : t) : option stats :=
  let average :=
    if decide (doc_lengths self = ∅) then Some 0%Qc
    else Py.truediv (Py.of_nat (sum_list (map_to_list (doc_lengths self)).*2))
                    (Py.of_nat (size (doc_lengths self))) in
  match average with
  | Some a =>
      Some (mk_stats (total_docs self) (size (index self))
              (sum_list (length <$> (map_to_list (index self)).*2)) a)
  | None => None
  end.

(** The documents of the postings of a term. *)
Definition docs_of (term : string) (self : t) : list string :=
  posting_doc <$> default [] (index self !! term).

(** The state after a sequence of [add_document] calls on a new index. *)
Definition after (calls : list (string * list string)) : t :=
  foldl (fun self '(doc_id, tokens) => add_document doc_id tokens self) init calls.

End InvertedIndex.

(** ** src/config/crawler/ranker/tf_idf.py *)

Module TFIDFScorer.

Inductive tf_method := raw | log_normalized | double_normalized | other_method.

Section Scorer.

(** [math.log] on the exact numbers that stand for floats. *)
Variable log : Qc -> Qc.

(** [self.index] *)
Variable index : InvertedIndex.t.

Definition calculate_tf (term_freq doc_length : nat) (method : tf_method) : Qc :=
  match method with
  | raw => Py.of_nat term_freq
  | log_normalized =>
      if (0 <? term_freq)%nat then (1 + log (Py.of_nat term_freq))%Qc else 0%Qc
  | double_normalized =>
      if (0 <? doc_length)%nat
      then (Py.qc 1 2 + Py.qc 1 2 * Py.of_nat term_freq / Py.of_nat doc_length)%Qc
      else 0%Qc
  | other_method => Py.of_nat term_freq
  end.

Definition calculate_idf (term : string) : Qc :=
  let doc_freq := InvertedIndex.get_document_frequency term index in
  if decide (doc_freq = 0%nat) then 0%Qc
  else log (Py.of_nat (InvertedIndex.total_docs index) / Py.of_nat doc_freq)%Qc.

Definition calculate_tfidf (term doc_id : string) : Qc :=
  let tf := InvertedIndex.get_term_frequency term doc_id index in
  if decide (tf = 0%nat) then 0%Qc
  else
    let doc_length := InvertedIndex.get_document_length doc_id index in
    let tf_score := calculate_tf tf doc_length log_normalized in
    let idf_score := calculate_idf term in
    (tf_score * idf_score)%Qc.

Definition score_document (query_terms : list string) (doc_id : string) : Qc :=
  let total_score :=
    foldl (fun total term => (total + calculate_tfidf term doc_id)%Qc) 0%Qc query_terms in
  match query_terms with
  | [] => 0%Qc
  | _ => (total_score / Py.of_nat (length query_terms))%Qc
  end.

(** The loop of [score_documents] that collects the positive scores. *)
Definition scored_docs (query_terms candidate_docs : list string) : list (string * Qc) :=
  foldl (fun scored doc_id =>
           let score := score_document query_terms doc_id in
           if Py.Qcltb 0%Qc score then (scored ++ [(doc_id, score)])%list else scored)
        [] candidate_docs.

(** The comparison of [sorted(..., key=lambda x: x[1], reverse=True)]. *)
Definition by_score_desc (x y : string * Qc) : bool := Py.Qcleb y.2 x.2.

Definition score_documents (query_terms candidate_docs : list string)
  : list (string * Qc) :=
  Py.sorted_by by_score_desc (scored_docs query_terms candidate_docs).

Definition get_candidate_documents (query_terms : list string) : gset string :=
  foldl (fun candidate_docs term =>
           let search_results := InvertedIndex.search [term] index in
           match search_results !! term with
           | Some postings =>
               foldl (fun c p => {[InvertedIndex.posting_doc p]} ∪ c) candidate_docs postings
           | None => candidate_docs
           end) ∅ query_terms.

End Scorer.

End TFIDFScorer.

(** ** src/ranker/pagerank.py *)

Module PageRank.

Record t := mk {
  damping_factor : Qc;
  max_iterations : nat;
  tolerance : Qc;
  graph : gmap nat (gset nat);
  reverse_graph : gmap nat (gset nat);
  scores : gmap string Qc;
  url_to_id : gmap string nat;
  id_to_url : gmap nat string;
  next_id : nat
}.

(** [PageRank()] with its default arguments. *)
Definition init : t := mk (Py.qc 85 100) 50 (Py.qc 1 1000000) ∅ ∅ ∅ ∅ ∅ 0.

Definition _get_or_create_id (url : string) (self : t) : nat * t :=
  match url_to_id self !! url with
  | Some i => (i, self)
  | None =>
      (next_id self,
       mk (damping_factor self) (max_iterations self) (tolerance self)
          (graph self) (reverse_graph self) (scores self)
          (<[url := next_id self]> (url_to_id self))
          (<[next_id self := url]> (id_to_url self))
          (S (next_id self)))
  end.

(** [d[k].add(x)] on a [defaultdict(set)] *)
Definition add_to (k x : nat) (d : gmap nat (gset nat)) : gmap nat (gset nat) :=
  <[k := default ∅ (d !! k) ∪ {[x]}]> d.

Definition add_link (source_url target_url : string) (self : t) : t :=
  let '(source_id, self) := _get_or_create_id source_url self in
  let '(target_id, self) := _get_or_create_id target_url self in
  mk (damping_factor self) (max_iterations self) (tolerance self)
     (add_to source_id target_id (graph self))
     (add_to target_id source_id (reverse_graph self))
     (scores self) (url_to_id self) (id_to_url self) (next_id self).

(** The state after a sequence of [add_link] calls on a new object. *)
Definition after (links : list (string * string)) : t :=
  foldl (fun self '(source, target) => add_link source target self) init links.

(** [self.graph.get(i, set())] *)
Definition outgoing (self : t) (i : nat) : gset nat := default ∅ (graph self !! i).
Definition incoming (self : t) (i : nat) : gset nat := default ∅ (reverse_graph self !! i).

(** *** numpy arrays: a vector is a list, a matrix the list of its rows *)

Abbreviation vector := (list Qc).
Abbreviation matrix := (list (list Qc)).

Definition vsum (v : vector) : Qc := foldr Qcplus 0%Qc v.

(** [np.zeros((n, n))], [np.ones(n) / n] *)
Definition zeros (n : nat) : matrix := replicate n (replicate n 0%Qc).
Definition uniform (n : nat) : vector := replicate n (1 / Py.of_nat n)%Qc.

(** [m[i][j] = x] *)
Definition set_entry (i j : nat) (x : Qc) (m : matrix) : matrix :=
  alter (fun row => <[j := x]> row) i m.

(** [m[:, j] = x] *)
Definition set_column (j : nat) (x : Qc) (m : matrix) : matrix :=
  (fun row => <[j := x]> row) <$> m.

Definition dot (u v : vector) : Qc := vsum (zip_with Qcmult u v).

(** [np.dot(m, v)] *)
Definition mat_vec (m : matrix) (v : vector) : vector := (fun row => dot row v) <$> m.

(** [np.linalg.norm(u - v, 1)] *)
Definition norm1_diff (u v : vector) : Qc :=
  vsum (zip_with (fun a b => Qcabs (a - b)) u v).

(** The body of [for source_id in range(n)]. *)
Definition fill_column (self : t) (n : nat) (m : matrix) (source_id : nat) : matrix :=
  let outgoing_links := outgoing self source_id in
  if decide (outgoing_links = ∅) then
    set_column source_id (1 / Py.of_nat n)%Qc m
  else
    let prob := (1 / Py.of_nat (size outgoing_links))%Qc in
    foldl (fun m target_id =>
             if (target_id <? n)%nat then set_entry target_id source_id prob m else m)
          m (elements outgoing_links).

Definition _build_transition_matrix (self : t) (n : nat) : matrix :=
  foldl (fill_column self n) (zeros n) (seq 0 n).

Definition _pagerank_iteration (self : t) (scores : vector) (transition_matrix : matrix)
    (n : nat) : vector :=
  let damped_scores :=
    (fun x => damping_factor self * x)%Qc <$> mat_vec transition_matrix scores in
  let random_jump := ((1 - damping_factor self) / Py.of_nat n)%Qc in
  (fun x => x + random_jump)%Qc <$> damped_scores.

(** [k] iterations without the convergence test. *)
Fixpoint iterate (self : t) (transition_matrix : matrix) (n k : nat) (scores : vector)
  : vector :=
  match k with
  | O => scores
  | S k' =>
      iterate self transition_matrix n k'
        (_pagerank_iteration self scores transition_matrix n)
  end.

(** The power iteration of [calculate_pagerank]: at most [iterations] rounds,
    left as soon as two successive vectors are closer than the tolerance. *)
Fixpoint power_iteration (self : t) (transition_matrix : matrix) (n iterations : nat)
    (scores : vector) : vector :=
  match iterations with
  | O => scores
  | S k =>
      let new_scores := _pagerank_iteration self scores transition_matrix n in
      if Py.Qcltb (norm1_diff new_scores scores) (tolerance self) then scores
      else power_iteration self transition_matrix n k new_scores
  end.

(** The final scores as [calculate_pagerank] computes them, before they are
    stored by URL. *)
Definition final_scores (self : t) : vector :=
  let n := size (url_to_id self) in
  power_iteration self (_build_transition_matrix self n) n (max_iterations self)
    (uniform n).

Definition store_scores (self : t) (v : vector) : gmap string Qc :=
  foldl (fun sc '(node_id, score) =>
           if (node_id <? size (id_to_url self))%nat then
             match id_to_url self !! node_id with
             | Some url => <[url := score]> sc
             | None => sc
             end
           else sc)
        (scores self) (imap pair v).

Definition calculate_pagerank (self : t) : t :=
  if decide (graph self = ∅) then self
  else
    mk (damping_factor self) (max_iterations self) (tolerance self)
       (graph self) (reverse_graph self)
       (store_scores self (final_scores self))
       (url_to_id self) (id_to_url self) (next_id self).

Definition get_score (url : string) (self : t) : Qc :=
  default 0%Qc (scores self !! url).

(** *** [personalized_pagerank] *)

(** The ids of the seed URLs that are in the graph. *)
Definition seed_ids_of (self : t) (seed_urls : list string) : list nat :=
  omap (fun url => url_to_id self !! url) seed_urls.

(** [personalization[seed_id] = 1.0 / len(seed_ids)] for every seed id, on
    [np.zeros(n)]. *)
Definition personalization_vector (n : nat) (seed_ids : list nat) : vector :=
  foldl (fun personalization seed_id =>
           <[seed_id := (1 / Py.of_nat (length seed_ids))%Qc]> personalization)
        (replicate n 0%Qc) seed_ids.

(** [(1 - alpha) * np.dot(transition_matrix, scores) + alpha * personalization] *)
Definition personalized_step (alpha : Qc) (transition_matrix : matrix)
    (personalization scores : vector) : vector :=
  zip_with Qcplus
    ((fun x => (1 - alpha) * x)%Qc <$> mat_vec transition_matrix scores)
    ((fun x => alpha * x)%Qc <$> personalization).

Fixpoint personalized_iteration (self : t) (alpha : Qc) (transition_matrix : matrix)
    (personalization : vector) (iterations : nat) (scores : vector) : vector :=
  match iterations with
  | O => scores
  | S k =>
      let new_scores := personalized_step alpha transition_matrix personalization scores in
      if Py.Qcltb (norm1_diff new_scores scores) (tolerance self) then scores
      else personalized_iteration self alpha transition_matrix personalization k new_scores
  end.

(** The vector that the loop of [personalized_pagerank] ends with. *)
Definition personalized_scores (seed_ids : list nat) (alpha : Qc) (self : t) : vector :=
  let n := size (url_to_id self) in
  let personalization := personalization_vector n seed_ids in
  personalized_iteration self alpha (_build_transition_matrix self n) personalization
    (max_iterations self) personalization.

(** The conversion of a score vector to a dictionary by URL. *)
Definition scores_by_url (self : t) (v : vector) : gmap string Qc :=
  foldl (fun d '(node_id, score) =>
           if (node_id <? size (id_to_url self))%nat then
             match id_to_url self !! node_id with
             | Some url => <[url := score]> d
             | None => d
             end
           else d)
        ∅ (imap pair v).

Definition personalized_pagerank (seed_urls : list string) (alpha : Qc) (self : t)
  : gmap string Qc :=
  if decide (seed_urls = [] \/ url_to_id self = ∅) then ∅
  else
    let seed_ids := seed_ids_of self seed_urls in
    if decide (seed_ids = []) then ∅
    else scores_by_url self (personalized_scores seed_ids alpha self).

End PageRank.

(** ** src/query_parser.py *)

Module QueryParser.

Record parsed := mk {
  original_query : string;
  processed_terms : list string;
  phrases : list (list string);
  operators : list string;
  query_type : string;
  intent : string;
  (** the [filters] dict, in insertion order *)
  filters : list (string * string)
}.

Definition wh_prefixes : list string := ["what"; "how"; "when"; "where"; "why"; "who"].

(** [query.startswith((p1, p2, ...))] *)
Definition startswith_any (query : string) (prefixes : list string) : bool :=
  existsb (Py.startswith query) prefixes.

Definition _detect_query_type (query : string) : string :=
  let query_lower := Py.lower query in
  if existsb (fun op => Py.contains op query_lower) ["and"; "or"; "not"] then "boolean"
  else if Py.has_char Py.dquote query then "phrase"
  else if Py.startswith query "site:" || Py.contains "filetype:" query then "filtered"
  else if Py.endswith query "?" || startswith_any query wh_prefixes then "question"
  else "simple".

(** The alternatives of the navigational and transactional patterns; every
    pattern has the shape [\b(w1|w2|...)\b]. *)
Definition navigational_patterns : list (list string) :=
  [["facebook"; "twitter"; "instagram"; "youtube"; "amazon"; "google"];
   ["login"; "sign in"; "homepage"; "official site"]].

Definition transactional_patterns : list (list string) :=
  [["buy"; "purchase"; "order"; "price"; "cost"; "cheap"; "discount"; "deal"];
   ["download"; "install"; "get"; "free"]].

Definition _detect_intent (query : string) : string :=
  let query_lower := Py.lower query in
  if existsb (fun pattern => Py.search_words false pattern query_lower)
       navigational_patterns
  then "navigational"
  else if existsb (fun pattern => Py.search_words false pattern query_lower)
            transactional_patterns
  then "transactional"
  else if Py.endswith query "?" || startswith_any query_lower wh_prefixes
  then "informational"
  else "informational".

(** [remaining_query.replace(m.group(0), ' ')] for each match in turn. *)
Definition blank_out (matches : list string) (query : string) : string :=
  foldl (fun remaining_query m => Py.replace remaining_query m " ") query matches.

Definition _extract_operators (query : string) : list string * string :=
  let matches := Py.finditer_words true ["AND"; "OR"; "NOT"] query in
  (Py.upper <$> matches, Py.strip (blank_out matches query)).

Definition date_patterns : list (string * list string) :=
  [("last_day", ["today"; "yesterday"]);
   ("last_week", ["last week"]);
   ("last_month", ["last month"]);
   ("last_year", ["last year"])].

(** The first period whose pattern is found. *)
Fixpoint first_date (patterns : list (string * list string)) (query : string)
  : option string :=
  match patterns with
  | [] => None
  | (period, pattern) :: rest =>
      if Py.search_words true pattern query then Some period
      else first_date rest query
  end.

Definition opt_item (key : string) (v : option string) : list (string * string) :=
  match v with Some x => [(key, x)] | None => [] end.

Definition _extract_filters (query : string) : list (string * string) :=
  (opt_item "site" (Py.search_key_value "site:" query)
   ++ opt_item "filetype" (Py.search_key_value "filetype:" query)
   ++ opt_item "date" (first_date date_patterns query))%list.

Section Parser.

(** [self.text_processor.process_text], which rests on NLTK. *)
Variable process_text : string -> list string.

Definition quote (s : string) : string :=
  String Py.dquote (s ++ String Py.dquote "").

Definition _extract_phrases (query : string) : list (list string) * string :=
  let matches := Py.finditer_quoted query in
  let phrases :=
    omap (fun m =>
            let phrase := Py.strip m in
            if Py.truthy phrase then Some (process_text phrase) else None)
         matches in
  (phrases, Py.strip (blank_out (quote <$> matches) query)).

Definition parse_query (raw_query : string) : parsed :=
  let query_type := _detect_query_type raw_query in
  let intent := _detect_intent raw_query in
  let '(phrases, remaining_query) := _extract_phrases raw_query in
  let '(operators, remaining_query) := _extract_operators remaining_query in
  let processed_terms := process_text remaining_query in
  mk raw_query processed_terms phrases operators query_type intent
     (_extract_filters raw_query).

End Parser.

(** The [synonyms] dictionary of [expand_query]. *)
Definition synonyms : gmap string (list string) :=
  list_to_map
    [("car", ["vehicle"; "automobile"; "auto"]);
     ("house", ["home"; "residence"; "property"]);
     ("job", ["work"; "employment"; "career"]);
     ("phone", ["mobile"; "smartphone"; "cell"])].

(** [expand_query] reads the processed terms of the parsed query only; the
    loop runs over the terms of the query, not over the list it extends. *)
Definition expand_query (processed_query : parsed) : list string :=
  foldl (fun expanded_terms term =>
           match synonyms !! term with
           | Some l => (expanded_terms ++ l)%list
           | None => expanded_terms
           end)
        (processed_terms processed_query) (processed_terms processed_query).

Definition common_queries : list string :=
  ["python programming"; "machine learning"; "web development"; "data science";
   "artificial intelligence"; "software engineering"].

Definition get_query_suggestions (partial_query : string) : list string :=
  let partial_lower := Py.lower partial_query in
  take 5 (List.filter (fun query => Py.startswith query partial_lower) common_queries).

(** The query of the specification's scenario. *)
Definition laptop_query : string :=
  "What is the " ++ quote "best laptop" ++ " site:bestbuy.com under $1000".

End QueryParser.

(** ** [indexer/text_processor.py]: the weights of the terms of a page *)

Module TextProcessor.

(** The [weights] dictionary of [calculate_term_weights]. *)
Definition weights : gmap string Qc :=
  list_to_map
    [("title", Py.qc 3 1); ("headings", Py.qc 2 1); ("body", Py.qc 1 1);
     ("links", Py.qc 8 10); ("meta", Py.qc 15 10)].

(** [term_weights[term] += weight] on a [defaultdict(float)]. *)
Definition add_weight (weight : Qc) (term_weights : gmap string Qc) (term : string)
  : gmap string Qc :=
  <[term := (default 0 (term_weights !! term) + weight)%Qc]> term_weights.

(** [processed_features] is the dictionary of the features, as the list of
    its items. *)
Definition calculate_term_weights (processed_features : list (string * list string))
  : gmap string Qc :=
  foldl (fun term_weights '(feature_name, terms) =>
           let weight := default 1%Qc (weights !! feature_name) in
           foldl (add_weight weight) term_weights terms)
        ∅ processed_features.

End TextProcessor.

(** * Vocabulary of the properties *)

Section IndexVocabulary.

Import InvertedIndex.

(** The invariant of the index: per term, the document frequency is the
    number of postings, no document has two postings, and every document of
    a posting has a recorded length. *)
Definition index_inv (self : t) : Prop :=
  forall term,
    get_document_frequency term self = length (default [] (index self !! term))
    /\ NoDup (docs_of term self)
    /\ (forall d, d ∈ docs_of term self -> is_Some (doc_lengths self !! d)).

End IndexVocabulary.

Section GraphVocabulary.

Import PageRank.

Local Open Scope Qc_scope.

(** Out-edges and in-edges mirror each other. *)
Definition edges_symmetric (self : t) : Prop :=
  forall u v, v ∈ outgoing self u <-> u ∈ incoming self v.

(** No node links to itself. *)
Definition no_self_loops (self : t) : Prop :=
  forall u, u ∉ outgoing self u.

(** Every id that occurs in the graph is below [bound]. *)
Definition ids_below (bound : nat) (self : t) : Prop :=
  forall u v, v ∈ outgoing self u -> (u < bound)%nat /\ (v < bound)%nat.

(** The ids of a graph built by [add_link] are dense: [next_id] counts the
    URLs and every id of the graph lies below it. *)
Definition graph_wf (self : t) : Prop :=
  next_id self = size (url_to_id self)
  /\ (forall url i, url_to_id self !! url = Some i -> (i < next_id self)%nat)
  /\ ids_below (next_id self) self.

(** The entry of row [i] and column [j]; a square matrix of size [n]. *)
Definition entry (m : matrix) (i j : nat) : Qc := nth j (nth i m nil) 0.

Definition square (n : nat) (m : matrix) : Prop :=
  length m = n /\ Forall (fun row => length row = n) m.

(** The entry of the transition matrix as the specification gives it. *)
Definition transition (self : t) (n i j : nat) : Qc :=
  if decide (outgoing self j = ∅) then 1 / Py.of_nat n
  else if decide (i ∈ outgoing self j) then 1 / Py.of_nat (size (outgoing self j))
  else 0.

End GraphVocabulary.

Section FrontierVocabulary.

Import URLFrontier.

Definition xa : string := "http://x.test/a".
Definition xb : string := "http://x.test/b".

(** The frontier once [xa] and [xb], of the same host, were added at time
    100 and a first [get_next_url], at time 100, has returned. *)
Definition one_crawled : t :=
  match run 1 [AddUrl (Py.qc 100 1) xa 1; AddUrl (Py.qc 100 1) xb 1;
               GetNextUrl (Py.qc 100 1)] init with
  | Some (_, self) => self
  | None => init
  end.

(** The frontier once [xa] was added twice at time 100, and what a first
    and a second [get_next_url] leave of it. *)
Definition queued_twice : t :=
  (add_url (Py.qc 100 1) xa 1 (add_url (Py.qc 100 1) xa 1 init).2).2.

Definition state_after (current_time : Qc) (self : t) : t :=
  match get_next_url 1 current_time self with
  | Some (_, self') => self'
  | None => self
  end.

End FrontierVocabulary.

Section ScoreVocabulary.

Import TFIDFScorer.

(** Descending score order. *)
Definition score_desc (x y : string * Qc) : Prop := (y.2 <= x.2)%Qc.

(** Descending score order, equal scores by ascending [doc_id]. *)
Definition score_desc_then_id (x y : string * Qc) : Prop :=
  (y.2 < x.2)%Qc \/ (x.2 = y.2 /\ String.leb x.1 y.1 = true).

(** What the model asks of the function that stands for [math.log]. *)
Definition log_like (log : Qc -> Qc) : Prop :=
  log 1%Qc = 0%Qc /\ forall x y, (0 < x)%Qc -> (x < y)%Qc -> (log x < log y)%Qc.

(** An index of three documents, two of which hold the same single term. *)
Definition mat_index : InvertedIndex.t :=
  InvertedIndex.after [("b", ["mat"]); ("a", ["mat"]); ("c", ["cat"])].

End ScoreVocabulary.

Section UrlVocabulary.

Import Py Url DuplicateDetector.




End UrlVocabulary.

Section GraphIdsVocabulary.

Import PageRank.

(** The ids of the graph: [next_id] counts both dictionaries, which are
    inverse to each other, and every id is below [next_id]. *)
Definition ids_wf (self : t) : Prop :=
  next_id self = size (url_to_id self)
  /\ size (id_to_url self) = next_id self
  /\ (forall url i, url_to_id self !! url = Some i <-> id_to_url self !! i = Some url)
  /\ (forall url i, url_to_id self !! url = Some i -> (i < next_id self)%nat).

End GraphIdsVocabulary.

Section PolitenessVocabulary.

Import URLFrontier.

(** The host of a URL, as the frontier reads it. *)
Definition host (url : string) : string := Url.netloc (Url.urlparse url).

(** The last access that [get_next_url] reads for a host. *)
Definition last_access (self : t) (h : string) : Qc :=
  default 0%Qc (domain_last_access self !! h).

(** What is queued, timestamps apart: the priority and the URL of every
    entry. *)
Definition jobs (self : t) : list (Z * string) :=
  (fun e : entry => (e.1.1, e.2)) <$> priority_queue self.

(** The returns of a run: the clock reading and the URL of every
    [get_next_url] call of [calls] that returned a URL, [trace] being what
    the calls returned. *)
Fixpoint returns (calls : list call) (trace : list (option string))
  : list (Qc * string) :=
  match calls with
  | [] => []
  | AddUrl _ _ _ :: calls' => returns calls' trace
  | GetNextUrl now :: calls' =>
      match trace with
      | Some url :: trace' => (now, url) :: returns calls' trace'
      | None :: trace' => returns calls' trace'
      | [] => []
      end
  end.

(** Two returns, the first before the second, respect the delay when they
    are of one host. *)
Definition polite (e1 e2 : Qc * string) : Prop :=
  host e1.2 = host e2.2 -> (Config.CRAWL_DELAY <= e2.1 - e1.1)%Qc.

(** How often [add_url] is called on a URL in a sequence of calls. *)
Fixpoint times_added (url : string) (calls : list call) : nat :=
  match calls with
  | [] => 0
  | AddUrl _ u _ :: calls' =>
      ((if decide (u = url) then 1 else 0) + times_added url calls')%nat
  | GetNextUrl _ :: calls' => times_added url calls'
  end.

(** Three URLs are added at time 100: [xa] and [xb], of one host, with
    priority 1 and a URL of another host with priority 2; then [xa] has been
    returned at time 100. *)
Definition yc : string := "http://y.test/c".

Definition two_waiting : t :=
  match run 1 [AddUrl (Py.qc 100 1) xa 1; AddUrl (Py.qc 100 1) xb 1;
               AddUrl (Py.qc 100 1) yc 2; GetNextUrl (Py.qc 100 1)] init with
  | Some (_, self) => self
  | None => init
  end.

End PolitenessVocabulary.

Section PostingVocabulary.

Import InvertedIndex.

(** A posting [(doc_id, tf, positions)] is well formed when [tf] counts its
    positions, there is at least one, and they ascend strictly. *)
Definition posting_wf (p : posting) : Prop :=
  p.1.2 = length p.2 /\ (0 < p.1.2)%nat /\ StronglySorted lt p.2.

(** The occurrences of a term among the tokens that are indexed. *)
Definition occurrences (term : string) (tokens : list string) : nat :=
  if (2 <=? String.length term)%nat then length (filter (fun t => t = term) tokens)
  else 0%nat.

(** The two dictionaries of [add_document] agree while the tokens before
    [position] are read: a term with a frequency has as many positions, all
    below [position] and ascending; a term without frequency has none. *)
Definition tally_wf (position : nat) (term_freq : list (string * nat))
    (term_positions : list (string * list nat)) : Prop :=
  forall term,
    match od_get term term_freq with
    | Some freq =>
        exists ps, od_get term term_positions = Some ps
                   /\ freq = length ps /\ (0 < freq)%nat
                   /\ StronglySorted lt ps /\ Forall (fun p => (p < position)%nat) ps
    | None => od_get term term_positions = None
    end.

End PostingVocabulary.

Section TermWeightVocabulary.

Import TextProcessor.

Local Open Scope Qc_scope.

Definition count_of (term : string) (terms : list string) : nat :=
  length (filter (fun t => t = term) terms).

(** The sum, over the features, of the weight of the feature times the
    number of occurrences of the term in it. *)
Definition weighted_count (term : string) (features : list (string * list string)) : Qc :=
  foldr (fun '(feature_name, terms) total =>
           default 1 (weights !! feature_name) * Py.of_nat (count_of term terms) + total)
        0 features.

End TermWeightVocabulary.

(** * Properties *)

(** ** The inverted index *)

Section InvertedIndexFacts.

Import InvertedIndex.

Lemma od_alter_keys {V} (f : option V -> V) k (d : list (string * V)) :
  (od_alter f k d).*1 = if decide (k ∈ d.*1) then d.*1 else (d.*1 ++ [k])%list.
Proof.
  induction d as [|[k' v] d IH].
  - destruct (decide (k ∈ ([] : list (string * V)).*1)) as [H|H];
      [by apply elem_of_nil in H | done].
  - cbn [od_alter]. destruct (String.eqb_spec k k') as [->|Hne].
    + destruct (decide (k' ∈ ((k', v) :: d).*1)) as [H|H];
        [done | exfalso; apply H; left].
    + cbn [fmap list_fmap fst]. rewrite IH.
      destruct (decide (k ∈ d.*1)) as [Hin|Hnin];
        destruct (decide (k ∈ k' :: d.*1)) as [H|H]; try done.
      * exfalso. apply H. by right.
      * exfalso. apply elem_of_cons in H as [?|?]; [congruence | done].
Qed.

Lemma od_alter_NoDup {V} (f : option V -> V) k (d : list (string * V)) :
  NoDup d.*1 -> NoDup (od_alter f k d).*1.
Proof.
  intros Hd. rewrite od_alter_keys. case_decide; [done |].
  apply NoDup_app. split_and!; [done | | apply NoDup_singleton].
  intros x Hx Hx'. apply list_elem_of_singleton in Hx' as ->. done.
Qed.

Lemma count_terms_NoDup tokens : forall position tf tp,
  NoDup tf.*1 -> NoDup (count_terms position tokens tf tp).1.*1.
Proof.
  induction tokens as [|token tokens IH]; intros position tf tp Htf;
    cbn [count_terms]; [done |].
  destruct (2 <=? String.length token)%nat; apply IH; [|done].
  by apply od_alter_NoDup.
Qed.

(** The postings after the loop over [term_freq.items()]. *)
Lemma fold_append_docs doc_id (tp : list (string * list nat)) items :
  forall idx term,
    NoDup items.*1 ->
    posting_doc <$> default []
      (foldl (fun idx '(term, freq) =>
                append_posting term (doc_id, freq, default [] (od_get term tp)) idx)
             idx items !! term)
    = ((posting_doc <$> default [] (idx !! term))
       ++ (if decide (term ∈ items.*1) then [doc_id] else []))%list.
Proof.
  induction items as [|[k freq] items IH]; intros idx term Hnd.
  - cbn [foldl]. destruct (decide _) as [H|H]; [by apply elem_of_nil in H |].
    by rewrite app_nil_r.
  - cbn [foldl]. cbn [fmap list_fmap fst] in Hnd |- *.
    apply NoDup_cons in Hnd as [Hk Hnd]. rewrite IH by done.
    unfold append_posting at 1.
    destruct (decide (term = k)) as [->|Hne].
    + rewrite lookup_insert_eq. cbn [from_option id]. rewrite fmap_app.
      destruct (decide (k ∈ items.*1)) as [?|_]; [done |].
      destruct (decide (k ∈ k :: items.*1)) as [_|H]; [|exfalso; apply H; left].
      by rewrite app_nil_r.
    + rewrite lookup_insert_ne by done.
      destruct (decide (term ∈ items.*1)) as [Hin|Hnin];
        destruct (decide (term ∈ k :: items.*1)) as [H|H]; try done.
      * exfalso. apply H. by right.
      * exfalso. apply elem_of_cons in H as [?|?]; [congruence | done].
Qed.

(** The frequencies after the loop over [unique_terms]. *)
Lemma fold_incr_freq (X : gset string) df term :
  default 0%nat (set_fold incr_freq df X !! term)
  = (default 0%nat (df !! term) + (if decide (term ∈ X) then 1 else 0))%nat.
Proof.
  pose (P := fun (r : gmap string nat) (Y : gset string) =>
               default 0%nat (r !! term)
               = (default 0%nat (df !! term)
                  + (if decide (term ∈ Y) then 1 else 0))%nat).
  enough (HP : P (set_fold incr_freq df X) X) by exact HP.
  apply set_fold_ind_L; unfold P.
  - destruct (decide (term ∈ (∅ : gset string))) as [H|_]; [set_solver | lia].
  - intros x Y r Hx IH. unfold incr_freq.
    destruct (decide (term = x)) as [->|Hne].
    + rewrite lookup_insert_eq. cbn [from_option id]. rewrite IH.
      destruct (decide (x ∈ Y)) as [?|_]; [done |].
      destruct (decide (x ∈ {[x]} ∪ Y)) as [_|H]; [lia | set_solver].
    + rewrite lookup_insert_ne by done. rewrite IH.
      destruct (decide (term ∈ Y)) as [HY|HY];
        destruct (decide (term ∈ {[x]} ∪ Y)) as [HxY|HxY]; try done.
      * exfalso. apply HxY. set_solver.
      * exfalso. apply elem_of_union in HxY as [H|H]; [|done].
        apply elem_of_singleton in H. done.
Qed.

Lemma add_document_known doc_id tokens self :
  is_Some (doc_lengths self !! doc_id) -> add_document doc_id tokens self = self.
Proof. intros H. unfold add_document. by rewrite decide_True. Qed.

Lemma add_document_records doc_id tokens self :
  is_Some (doc_lengths (add_document doc_id tokens self) !! doc_id).
Proof.
  unfold add_document. case_decide as H; [done |].
  destruct (count_terms 0 tokens [] []) as [tf tp]. simpl.
  rewrite lookup_insert_eq. by eexists.
Qed.

Lemma add_document_inv doc_id tokens self :
  index_inv self -> index_inv (add_document doc_id tokens self).
Proof.
  intros Hinv. unfold add_document. case_decide as Hknown; [done |].
  pose proof (count_terms_NoDup tokens 0 [] [] (NoDup_nil_2)) as Hnd.
  destruct (count_terms 0 tokens [] []) as [tf tp]. simpl in Hnd.
  intros term. destruct (Hinv term) as (Hdf & Hdocs & Hlen).
  assert (Hfresh : doc_id ∉ docs_of term self).
  { intros Hin. by apply Hknown, Hlen. }
  pose proof (fold_append_docs doc_id tp tf (index self) term Hnd) as Hfold.
  unfold get_document_frequency, docs_of in *. simpl.
  rewrite fold_incr_freq, Hfold. split_and!.
  - rewrite <- (length_fmap posting_doc), Hfold, length_app, length_fmap, Hdf.
    destruct (decide (term ∈ tf.*1)).
    + rewrite decide_True by (by apply elem_of_list_to_set). done.
    + rewrite decide_False by (by rewrite elem_of_list_to_set). done.
  - apply NoDup_app. split_and!; [done | | case_decide; [apply NoDup_singleton | constructor]].
    intros x Hx Hx'. case_decide; [|by apply elem_of_nil in Hx'].
    apply list_elem_of_singleton in Hx' as ->. done.
  - intros d Hd. apply elem_of_app in Hd as [Hd|Hd].
    + destruct (decide (d = doc_id)) as [->|Hne].
      * rewrite lookup_insert_eq. by eexists.
      * rewrite lookup_insert_ne by done. by apply Hlen.
    + case_decide; [|by apply elem_of_nil in Hd].
      apply list_elem_of_singleton in Hd as ->. rewrite lookup_insert_eq. by eexists.
Qed.

Lemma init_inv : index_inv init.
Proof.
  intros term. unfold get_document_frequency, docs_of. simpl.
  rewrite !lookup_empty. simpl. split_and!; [done | constructor |].
  intros d Hd. by apply elem_of_nil in Hd.
Qed.

Lemma fold_add_document_inv calls : forall self,
  index_inv self ->
  index_inv (foldl (fun self '(doc_id, tokens) => add_document doc_id tokens self)
               self calls).
Proof.
  induction calls as [|[doc_id tokens] calls IH]; intros self Hinv; simpl; [done |].
  by apply IH, add_document_inv.
Qed.

(** C7: [add_document] is idempotent on [doc_id]: a second call with the same
    [doc_id], whatever its tokens, leaves the whole index state as the first
    call left it. *)
Theorem add_document_idempotent (self : t) (doc_id : string) (tokens tokens' : list string) :
  add_document doc_id tokens' (add_document doc_id tokens self)
  = add_document doc_id tokens self.
Proof. apply add_document_known, add_document_records. Qed.

(** C8: after every sequence of [add_document] calls, and for every term, the
    document frequency equals the number of distinct documents in the
    postings of the term and the length of the posting list. *)
Theorem document_frequency_counts_postings
    (calls : list (string * list string)) (term : string) :
  get_document_frequency term (after calls)
  = size (list_to_set (docs_of term (after calls)) : gset string)
  /\ get_document_frequency term (after calls)
    = length (default [] (index (after calls) !! term)).
Proof.
  destruct (fold_add_document_inv calls init init_inv term) as (Hdf & Hnd & _).
  fold (after calls) in Hdf, Hnd. split; [|done].
  rewrite size_list_to_set by done.
  unfold docs_of. by rewrite length_fmap.
Qed.

(** C10: on an index without documents [get_stats] returns normally and the
    average document length it reports is 0; the division is not evaluated. *)
Theorem get_stats_empty (self : t) :
  doc_lengths self = ∅ ->
  exists r, get_stats self = Some r /\ average_doc_length r = 0%Qc.
Proof.
  intros Hempty. unfold get_stats. rewrite decide_True by done.
  eexists. split; [reflexivity | done].
Qed.

Lemma get_stats_empty_witness :
  doc_lengths init = ∅
  /\ exists r, get_stats init = Some r /\ average_doc_length r = 0%Qc.
Proof. split; [reflexivity | apply (get_stats_empty init); reflexivity]. Defined.

End InvertedIndexFacts.

(** ** The link graph *)

Section PageRankFacts.

Import PageRank.

Lemma add_to_lookup k x d i j :
  j ∈ default ∅ (add_to k x d !! i)
  <-> j ∈ default ∅ (d !! i) \/ (i = k /\ j = x).
Proof.
  unfold add_to. destruct (decide (i = k)) as [->|Hne].
  - rewrite lookup_insert_eq. cbn [from_option id]. set_solver.
  - rewrite lookup_insert_ne by done. naive_solver.
Qed.

Lemma _get_or_create_id_graph url self :
  graph (_get_or_create_id url self).2 = graph self
  /\ reverse_graph (_get_or_create_id url self).2 = reverse_graph self.
Proof. unfold _get_or_create_id. by destruct (url_to_id self !! url). Qed.

(** The edges after one [add_link]. *)
Lemma add_link_outgoing source target self u v :
  v ∈ outgoing (add_link source target self) u
  <-> v ∈ outgoing self u
      \/ (u = (_get_or_create_id source self).1
          /\ v = (_get_or_create_id target (_get_or_create_id source self).2).1).
Proof.
  unfold add_link, outgoing.
  destruct (_get_or_create_id_graph source self) as [Hg1 _].
  destruct (_get_or_create_id source self) as [sid s1]. simpl in *.
  destruct (_get_or_create_id_graph target s1) as [Hg2 _].
  destruct (_get_or_create_id target s1) as [tid s2]. simpl in *.
  rewrite add_to_lookup, Hg2, Hg1. done.
Qed.

Lemma add_link_incoming source target self u v :
  u ∈ incoming (add_link source target self) v
  <-> u ∈ incoming self v
      \/ (u = (_get_or_create_id source self).1
          /\ v = (_get_or_create_id target (_get_or_create_id source self).2).1).
Proof.
  unfold add_link, incoming.
  destruct (_get_or_create_id_graph source self) as [_ Hg1].
  destruct (_get_or_create_id source self) as [sid s1]. simpl in *.
  destruct (_get_or_create_id_graph target s1) as [_ Hg2].
  destruct (_get_or_create_id target s1) as [tid s2]. simpl in *.
  rewrite add_to_lookup, Hg2, Hg1. naive_solver.
Qed.

Lemma add_link_symmetric source target self :
  edges_symmetric self -> edges_symmetric (add_link source target self).
Proof.
  intros Hsym u v. rewrite add_link_outgoing, add_link_incoming, (Hsym u v). done.
Qed.

Lemma init_symmetric : edges_symmetric init.
Proof.
  intros u v. unfold outgoing, incoming. simpl. rewrite !lookup_empty. done.
Qed.

Lemma fold_add_link_symmetric links : forall self,
  edges_symmetric self ->
  edges_symmetric
    (foldl (fun self '(source, target) => add_link source target self) self links).
Proof.
  induction links as [|[source target] links IH]; intros self Hsym; simpl; [done |].
  by apply IH, add_link_symmetric.
Qed.

(** The id of a URL once [_get_or_create_id] has seen it. *)
Lemma _get_or_create_id_lookup url self :
  url_to_id (_get_or_create_id url self).2 !! url = Some (_get_or_create_id url self).1.
Proof.
  unfold _get_or_create_id. destruct (url_to_id self !! url) eqn:E; simpl; [done |].
  by rewrite lookup_insert_eq.
Qed.

Lemma _get_or_create_id_again url self :
  _get_or_create_id url (_get_or_create_id url self).2
  = ((_get_or_create_id url self).1, (_get_or_create_id url self).2).
Proof.
  pose proof (_get_or_create_id_lookup url self) as H.
  unfold _get_or_create_id at 1. by rewrite H.
Qed.

Lemma add_link_url_to_id source target self :
  url_to_id (add_link source target self)
  = url_to_id (_get_or_create_id target (_get_or_create_id source self).2).2.
Proof.
  unfold add_link. destruct (_get_or_create_id source self) as [sid s1]. simpl.
  by destruct (_get_or_create_id target s1) as [tid s2].
Qed.

(** C6 (as the code has it): after every sequence of [add_link] calls each
    stored out-edge has its in-edge in the reverse adjacency, and conversely;
    a link from a URL to itself is not discarded but stored as a self-loop. *)
Theorem add_link_keeps_edges_symmetric_and_self_loops
    (links : list (string * string)) (url : string) :
  edges_symmetric (after links)
  /\ exists i, url_to_id (add_link url url (after links)) !! url = Some i
             /\ i ∈ outgoing (add_link url url (after links)) i
             /\ i ∈ incoming (add_link url url (after links)) i.
Proof.
  split; [apply fold_add_link_symmetric, init_symmetric |].
  exists (_get_or_create_id url (after links)).1.
  rewrite add_link_outgoing, add_link_incoming, _get_or_create_id_again. simpl.
  split_and!; [| by right | by right].
  rewrite add_link_url_to_id, _get_or_create_id_again. simpl.
  apply _get_or_create_id_lookup.
Qed.

(** C6, refuted as stated: a single [add_link] from a URL to itself is not
    discarded; it leaves a self-loop in the graph. *)
Lemma add_link_self_loop_counterexample :
  ~ no_self_loops (after [("http://a.test", "http://a.test")]).
Proof.
  intros H. apply (H 0%nat).
  replace (outgoing (after [("http://a.test", "http://a.test")]) 0)
    with ({[0%nat]} : gset nat) by (vm_compute; reflexivity).
  by apply elem_of_singleton.
Qed.

End PageRankFacts.

(** ** The URL frontier *)

Section URLFrontierFacts.

Import URLFrontier.

Lemma insort_Permutation {A} (le : A -> A -> bool) x (l : list A) :
  Py.insort le x l ≡ₚ x :: l.
Proof.
  induction l as [|y l IH]; simpl; [done |].
  destruct (le x y); [done |]. rewrite IH. apply Permutation_swap.
Qed.

Lemma sorted_by_Permutation {A} (le : A -> A -> bool) (l : list A) :
  Py.sorted_by le l ≡ₚ l.
Proof.
  induction l as [|x l IH]; simpl; [done |].
  by rewrite insort_Permutation, IH.
Qed.

Lemma Forall_insort {A} (P : A -> Prop) (le : A -> A -> bool) x (l : list A) :
  P x -> Forall P l -> Forall P (Py.insort le x l).
Proof.
  intros Hx Hl. induction Hl as [|y l Hy Hl IH]; simpl.
  - by constructor.
  - destruct (le x y); repeat constructor; done.
Qed.

Lemma insort_not_nil {A} (le : A -> A -> bool) x (l : list A) :
  Py.insort le x l <> [].
Proof. destruct l as [|y l]; simpl; [done |]. by destruct (le x y). Qed.

(** A deferred entry goes back into the queue: when the queue is not empty
    and every queued URL has to wait, no number of iterations leaves the
    loop of [get_next_url]. *)
Lemma get_next_url_all_blocked (current_time : Qc) (fuel : nat) : forall self,
  priority_queue self <> [] ->
  Forall (blocked current_time self) (priority_queue self) ->
  get_next_url fuel current_time self = None.
Proof.
  unfold get_next_url.
  induction fuel as [|fuel IH]; intros self Hne Hall; simpl; [done |].
  destruct (priority_queue self) as [|[[priority timestamp] url] queue] eqn:Hq;
    [done |]. simpl.
  apply Forall_cons in Hall as [Hhead Htail].
  unfold blocked in Hhead. simpl in Hhead. rewrite Hhead.
  apply IH; simpl.
  - apply insort_not_nil.
  - apply Forall_insort; [exact Hhead |].
    eapply Forall_impl; [exact Htail |]. intros e He. exact He.
Qed.

(** What [get_next_url] returns is marked as crawled, and [add_url] then
    refuses it. *)
Lemma get_next_url_marks_crawled (current_time : Qc) (fuel : nat) : forall self url self',
  get_next_url fuel current_time self = Some (Some url, self') ->
  url ∈ crawled_urls self'.
Proof.
  unfold get_next_url.
  induction fuel as [|fuel IH]; intros self url self' H; simpl in H; [done |].
  destruct (priority_queue self) as [|[[priority timestamp] u] queue]; simpl in H;
    [by inversion H |].
  destruct (Py.Qcltb _ _); [by eapply IH |].
  inversion H; subst. simpl. set_solver.
Qed.

(** [get_next_url] returns none only when it has emptied the queue. *)
Lemma get_next_url_none_exhausted (current_time : Qc) (fuel : nat) : forall self self',
  get_next_url fuel current_time self = Some (None, self') ->
  priority_queue self' = [].
Proof.
  unfold get_next_url.
  induction fuel as [|fuel IH]; intros self self' H; simpl in H; [done |].
  destruct (priority_queue self) as [|[[priority timestamp] u] queue] eqn:Hq;
    simpl in H; [by inversion H; subst |].
  destruct (Py.Qcltb _ _); [by eapply IH | by inversion H].
Qed.

Lemma add_url_crawled now url priority self :
  url ∈ crawled_urls self -> add_url now url priority self = (false, self).
Proof. intros H. unfold add_url. by rewrite decide_True. Qed.

(** C1, on the failing input: with [xa] just crawled, [xb] is queued and its
    host was accessed half a second ago; the loop of [get_next_url] pops it
    and pushes it back for ever, so that the call returns for no amount of
    fuel (it neither returns none nor terminates). *)
Theorem get_next_url_spins_while_host_waits :
  run 1 [AddUrl (Py.qc 100 1) xa 1; AddUrl (Py.qc 100 1) xb 1;
         GetNextUrl (Py.qc 100 1)] init = Some ([Some xa], one_crawled)
  /\ priority_queue one_crawled = [(1%Z, Py.qc 100 1, xb)]
  /\ forall fuel, get_next_url fuel (Py.qc 201 2) one_crawled = None.
Proof.
  split_and!.
  - vm_compute. reflexivity.
  - vm_compute. reflexivity.
  - intros fuel. apply get_next_url_all_blocked.
    + by vm_compute.
    + replace (priority_queue one_crawled) with [(1%Z, Py.qc 100 1, xb)]
        by (vm_compute; reflexivity).
      apply Forall_cons. split; [vm_compute; reflexivity | constructor].
Qed.

(** C5, on the failing input: [xa] is added twice before it is crawled; the
    first [get_next_url] returns it and puts it in the crawled set, and a
    later [get_next_url] returns it again. *)
Theorem url_queued_twice_is_returned_twice :
  let self1 := state_after (Py.qc 100 1) queued_twice in
  let self2 := state_after (Py.qc 102 1) self1 in
  get_next_url 1 (Py.qc 100 1) queued_twice = Some (Some xa, self1)
  /\ xa ∈ crawled_urls self1
  /\ get_next_url 1 (Py.qc 102 1) self1 = Some (Some xa, self2).
Proof.
  intros self1 self2.
  assert (H1 : get_next_url 1 (Py.qc 100 1) queued_twice = Some (Some xa, self1))
    by (vm_compute; reflexivity).
  split_and!.
  - exact H1.
  - exact (get_next_url_marks_crawled _ _ _ _ _ H1).
  - vm_compute. reflexivity.
Qed.

End URLFrontierFacts.

(** ** The query parser *)

Section QueryParserFacts.

Import QueryParser.

Lemma parse_query_fields process_text raw_query :
  query_type (parse_query process_text raw_query) = _detect_query_type raw_query
  /\ intent (parse_query process_text raw_query) = _detect_intent raw_query
  /\ filters (parse_query process_text raw_query) = _extract_filters raw_query.
Proof.
  unfold parse_query.
  destruct (_extract_phrases process_text raw_query) as [phrases remaining].
  destruct (_extract_operators remaining) as [operators remaining'].
  done.
Qed.

(** C2 (as the code has it): whatever the text processor, the query of the
    scenario is parsed with query type phrase (it has a double quote, which
    is tested before the question forms), intent informational and the
    single filter site = bestbuy.com. *)
Theorem parse_query_laptop (process_text : string -> list string) :
  query_type (parse_query process_text laptop_query) = "phrase"
  /\ intent (parse_query process_text laptop_query) = "informational"
  /\ filters (parse_query process_text laptop_query) = [("site", "bestbuy.com")].
Proof.
  destruct (parse_query_fields process_text laptop_query) as (-> & -> & ->).
  split_and!; vm_compute; reflexivity.
Qed.

(** C2, refuted as stated: the query type of the scenario's query is not
    question. *)
Lemma parse_query_laptop_counterexample :
  ~ (forall process_text : string -> list string,
       query_type (parse_query process_text laptop_query) = "question").
Proof.
  intros H. specialize (H (fun _ => [])).
  destruct (parse_query_fields (fun _ => []) laptop_query) as (Hty & _).
  rewrite Hty in H. vm_compute in H. discriminate H.
Qed.

(** The question test compares the raw query, so that even without the
    quoted phrase the capitalised query is not a question. *)
Lemma capitalised_wh_prefix_is_simple :
  _detect_query_type "What is the best laptop" = "simple"
  /\ _detect_query_type "what is the best laptop" = "question".
Proof. split; vm_compute; reflexivity. Qed.

End QueryParserFacts.

(** ** The TF-IDF scorer *)

Section TFIDFScorerFacts.

Import TFIDFScorer.

Lemma Qcleb_le a b : Py.Qcleb a b = true <-> (a <= b)%Qc.
Proof.
  unfold Py.Qcleb. rewrite Qcle_alt. destruct (a ?= b)%Qc; split; congruence.
Qed.

Lemma Qcleb_gt a b : Py.Qcleb a b = false <-> (b < a)%Qc.
Proof.
  unfold Py.Qcleb.
  assert (H : (b < a)%Qc <-> (a ?= b)%Qc = Gt) by apply Qcgt_alt.
  rewrite H. destruct (a ?= b)%Qc; split; congruence.
Qed.

Lemma Qcltb_lt a b : Py.Qcltb a b = true <-> (a < b)%Qc.
Proof.
  unfold Py.Qcltb. rewrite Qclt_alt. destruct (a ?= b)%Qc; split; congruence.
Qed.

Lemma insort_score_sorted x l :
  StronglySorted score_desc l ->
  StronglySorted score_desc (Py.insort by_score_desc x l).
Proof.
  intros Hl. induction Hl as [|y l Hl IH Hy]; simpl.
  - repeat constructor.
  - destruct (by_score_desc x y) eqn:E.
    + apply Qcleb_le in E. constructor; [by constructor |].
      constructor; [exact E |].
      eapply Forall_impl; [exact Hy |]. intros z Hz.
      unfold score_desc in *. by eapply Qcle_trans.
    + apply Qcleb_gt in E. constructor; [exact IH |].
      apply Forall_insort; [|exact Hy].
      unfold score_desc. by apply Qclt_le_weak.
Qed.

Lemma sorted_by_score_sorted l :
  StronglySorted score_desc (Py.sorted_by by_score_desc l).
Proof.
  induction l as [|x l IH]; simpl; [constructor | by apply insort_score_sorted].
Qed.

(** The sort is stable: the entries of one score keep their order. *)
Lemma insort_score_stable (v : Qc) x l :
  filter (fun p => p.2 = v) (Py.insort by_score_desc x l)
  = filter (fun p => p.2 = v) (x :: l).
Proof.
  induction l as [|y l IH]; simpl; [done |].
  destruct (by_score_desc x y) eqn:E; [done |].
  apply Qcleb_gt in E. rewrite filter_cons, IH, !filter_cons.
  destruct (decide (y.2 = v)) as [Hy|Hy]; [|done].
  destruct (decide (x.2 = v)) as [Hx|Hx]; [|done].
  exfalso. rewrite Hx, Hy in E. by apply Qclt_not_eq in E.
Qed.

Lemma sorted_by_score_stable (v : Qc) l :
  filter (fun p => p.2 = v) (Py.sorted_by by_score_desc l)
  = filter (fun p => p.2 = v) l.
Proof.
  induction l as [|x l IH]; simpl; [done |].
  by rewrite insort_score_stable, !filter_cons, IH.
Qed.

(** The loop of [score_documents] keeps the candidates of positive score, in
    the order of the candidate list. *)
Lemma scored_docs_fold log index query_terms candidate_docs : forall scored d s,
  (d, s) ∈ foldl (fun scored doc_id =>
                    let score := score_document log index query_terms doc_id in
                    if Py.Qcltb 0%Qc score then (scored ++ [(doc_id, score)])%list
                    else scored) scored candidate_docs
  <-> (d, s) ∈ scored
      \/ (d ∈ candidate_docs /\ s = score_document log index query_terms d
          /\ (0 < s)%Qc).
Proof.
  induction candidate_docs as [|c candidate_docs IH]; intros scored d s; simpl.
  - split; [by left | intros [H|[H _]]; [done | by apply elem_of_nil in H]].
  - rewrite IH. destruct (Py.Qcltb 0 _) eqn:E.
    + apply Qcltb_lt in E. rewrite elem_of_app, list_elem_of_singleton, elem_of_cons.
      split.
      * intros [[H|H]|H]; [by left | | naive_solver].
        inversion H; subst. right. split_and!; [by left | done | done].
      * intros [H|([->|H] & -> & Hpos)]; [by left; left | | naive_solver].
        left. by right.
    + rewrite elem_of_cons. split; [naive_solver |].
      intros [H|([->|H] & -> & Hpos)]; [by left | | naive_solver].
      apply Qcltb_lt in Hpos. congruence.
Qed.

Lemma scored_docs_omap log index query_terms candidate_docs :
  scored_docs log index query_terms candidate_docs
  = omap (fun d => if Py.Qcltb 0%Qc (score_document log index query_terms d)
                   then Some (d, score_document log index query_terms d) else None)
         candidate_docs.
Proof.
  unfold scored_docs. cbv zeta.
  enough (H : forall scored,
            foldl (fun scored doc_id =>
                     if Py.Qcltb 0%Qc (score_document log index query_terms doc_id)
                     then (scored
                           ++ [(doc_id, score_document log index query_terms doc_id)])%list
                     else scored) scored candidate_docs
            = (scored
               ++ omap (fun d =>
                          if Py.Qcltb 0%Qc (score_document log index query_terms d)
                          then Some (d, score_document log index query_terms d)
                          else None) candidate_docs)%list)
    by apply (H []).
  induction candidate_docs as [|c candidate_docs IH]; intros scored; cbn [foldl].
  - by rewrite app_nil_r.
  - rewrite IH. cbn [omap list_omap]. destruct (Py.Qcltb 0 _); [|done].
    by rewrite <- app_assoc.
Qed.

Lemma filter_none {A} (P : A -> Prop) `{forall x, Decision (P x)} (l : list A) :
  (forall x, x ∈ l -> ~ P x) -> filter P l = [].
Proof.
  induction l as [|x l IH]; intros Hl; [done |].
  rewrite filter_cons. destruct (decide (P x)) as [Hx|_].
  - exfalso. apply (Hl x); [left | done].
  - apply IH. intros y Hy. apply Hl. by right.
Qed.

(** The documents of one positive score, in the order of the loop. *)
Lemma scored_docs_of_score log index query_terms candidate_docs (v : Qc) :
  (0 < v)%Qc ->
  (filter (fun p => p.2 = v) (scored_docs log index query_terms candidate_docs)).*1
  = filter (fun d => score_document log index query_terms d = v) candidate_docs.
Proof.
  intros Hv. rewrite scored_docs_omap.
  induction candidate_docs as [|c candidate_docs IH]; [done |].
  cbn [omap list_omap]. rewrite (filter_cons _ c).
  destruct (Py.Qcltb 0 (score_document log index query_terms c)) eqn:E.
  - rewrite filter_cons. cbn [snd].
    destruct (decide (score_document log index query_terms c = v)); [|exact IH].
    rewrite fmap_cons. cbn [fst]. by rewrite IH.
  - destruct (decide (score_document log index query_terms c = v)) as [Hc|_];
      [|exact IH].
    rewrite Hc in E. apply Qcltb_lt in Hv. congruence.
Qed.

(** C4 (as the code has it): the ranked output is in descending score order;
    the documents of one score stand in it in the order of the candidate
    list (the sort is stable and does not look at [doc_id]); and the output
    holds exactly the candidates whose score is strictly positive. *)
Theorem score_documents_ranked (log : Qc -> Qc) (index : InvertedIndex.t)
    (query_terms candidate_docs : list string) :
  let ranked := score_documents log index query_terms candidate_docs in
  StronglySorted score_desc ranked
  /\ (forall v, (filter (fun p => p.2 = v) ranked).*1
                = filter (fun d => score_document log index query_terms d = v
                                   /\ (0 < v)%Qc) candidate_docs)
  /\ (forall d s, (d, s) ∈ ranked
                  <-> d ∈ candidate_docs
                      /\ s = score_document log index query_terms d
                      /\ (0 < s)%Qc).
Proof.
  intros ranked. unfold ranked, score_documents.
  assert (Hmem : forall d s,
            (d, s) ∈ Py.sorted_by by_score_desc
                       (scored_docs log index query_terms candidate_docs)
            <-> d ∈ candidate_docs
                /\ s = score_document log index query_terms d /\ (0 < s)%Qc).
  { intros d s. rewrite sorted_by_Permutation. unfold scored_docs.
    rewrite scored_docs_fold. split; [|by right].
    intros [H|H]; [by apply elem_of_nil in H | done]. }
  split_and!.
  - apply sorted_by_score_sorted.
  - intros v. rewrite sorted_by_score_stable.
    destruct (Qclt_le_dec 0 v) as [Hv|Hv].
    + rewrite scored_docs_of_score by done.
      apply list_filter_iff. intros d. split; [done | by intros [? _]].
    + rewrite <- sorted_by_score_stable.
      rewrite filter_none, filter_none; [done | |].
      * intros d _ [_ Hpos]. by apply Qclt_not_le in Hpos.
      * intros [d s] Hds Hs. cbn [snd] in Hs. subst s.
        apply Hmem in Hds as (_ & _ & Hpos). by apply Qclt_not_le in Hpos.
  - exact Hmem.
Qed.

(** C4, refuted as stated: documents [b] and [a] score the same for the
    query [mat]; listed as candidates in that order they are ranked in that
    order, not by ascending [doc_id]. *)
Lemma score_documents_ties_counterexample :
  ~ (forall log, log_like log ->
       forall index query_terms candidate_docs,
         StronglySorted score_desc_then_id
           (score_documents log index query_terms candidate_docs)).
Proof.
  intros H.
  assert (Hlog : log_like (fun x => x - 1)%Qc).
  { split; [apply Qc_is_canon; reflexivity |].
    intros x y _ Hxy. unfold Qcminus.
    apply Qclt_minus_iff. apply Qclt_minus_iff in Hxy.
    replace (y + - 1 + - (x + - 1))%Qc with (y + - x)%Qc by ring. exact Hxy. }
  specialize (H _ Hlog mat_index ["mat"] ["b"; "a"]).
  assert (Hs : forall d, d = "a" \/ d = "b" ->
              score_document (fun x => x - 1)%Qc mat_index ["mat"] d = Py.qc 1 2).
  { intros d [->| ->]; apply Qc_is_canon; vm_compute; reflexivity. }
  assert (E : score_documents (fun x => x - 1)%Qc mat_index ["mat"] ["b"; "a"]
              = [("b", Py.qc 1 2); ("a", Py.qc 1 2)]).
  { unfold score_documents, scored_docs. cbn [foldl].
    rewrite (Hs "b") by auto. rewrite (Hs "a") by auto.
    vm_compute. reflexivity. }
  rewrite E in H. apply StronglySorted_inv in H as [_ H].
  apply Forall_inv in H. destruct H as [H|[_ H]].
  - apply Qclt_not_eq in H. exact (H eq_refl).
  - cbn [fst] in H. vm_compute in H. discriminate H.
Qed.

End TFIDFScorerFacts.

(** ** URL canonicalisation *)

Section StringFacts.

Import Py.








(** The prefix that [span_until] returns has no character of the class. *)
Lemma span_until_prefix q s : sall (fun c => negb (q c)) (span_until q s).1 = true.
Proof.
  induction s as [|c s IH]; [done |]. cbn [span_until].
  destruct (q c) eqn:E; [done |].
  destruct (span_until q s) as [a b]. simpl in *. by rewrite E, IH.
Qed.






Lemma last_char_cons d c s : last_char d (String c s) = last_char (Some c) s.
Proof. done. Qed.

Lemma last_char_nonempty d d' c s : last_char d (String c s) = last_char d' (String c s).
Proof. done. Qed.



End StringFacts.

Section UrlFacts.

Import Py Url.














End UrlFacts.

Section NormalizeUrlFacts.

Import Py Url DuplicateDetector.

















End NormalizeUrlFacts.

(** ** PageRank: the power iteration preserves the total mass *)

Section PageRankMass.

Import PageRank.

Local Open Scope Qc_scope.

Lemma of_nat_0 : Py.of_nat 0 = 0.
Proof. by apply Qc_is_canon. Qed.

Lemma of_nat_S k : Py.of_nat (S k) = Py.of_nat k + 1.
Proof.
  unfold Py.of_nat, Qcplus. apply Q2Qc_eq_iff. cbn [this Q2Qc].
  rewrite Qred_correct, Nat2Z.inj_succ, <- Z.add_1_r, inject_Z_plus. reflexivity.
Qed.

Lemma of_nat_ge_0 k : 0 <= Py.of_nat k.
Proof.
  induction k as [|k IH]; [rewrite of_nat_0; apply Qcle_refl |].
  rewrite of_nat_S.
  replace 0 with (0 + 0) by ring. apply Qcplus_le_compat; [exact IH | done].
Qed.

Lemma of_nat_neq_0 k : (0 < k)%nat -> Py.of_nat k <> 0.
Proof.
  destruct k as [|k]; [lia |]. intros _ H. rewrite of_nat_S in H.
  pose proof (of_nat_ge_0 k) as Hk.
  assert (Hlt : 0 < Py.of_nat k + 1).
  { apply Qcle_lt_trans with (Py.of_nat k + 0).
    - by rewrite Qcplus_0_r.
    - apply Qclt_minus_iff.
      replace (Py.of_nat k + 1 + - (Py.of_nat k + 0)) with 1 by ring. done. }
  rewrite H in Hlt. by apply Qclt_not_eq in Hlt.
Qed.

Lemma vsum_cons x v : vsum (x :: v) = x + vsum v.
Proof. done. Qed.

Lemma vsum_scale a v : vsum ((fun x => a * x) <$> v) = a * vsum v.
Proof.
  induction v as [|x v IH]; [simpl; ring |].
  rewrite fmap_cons, !vsum_cons, IH. ring.
Qed.

Lemma vsum_shift r v :
  vsum ((fun x => x + r) <$> v) = vsum v + Py.of_nat (length v) * r.
Proof.
  induction v as [|x v IH]; [simpl; rewrite of_nat_0; ring |].
  rewrite fmap_cons, !vsum_cons, IH. cbn [length]. rewrite of_nat_S. ring.
Qed.

Lemma vsum_plus {A} (g h : A -> Qc) l :
  vsum ((fun j => g j + h j) <$> l) = vsum (g <$> l) + vsum (h <$> l).
Proof.
  induction l as [|x l IH]; [simpl; ring |].
  rewrite !fmap_cons, !vsum_cons, IH. ring.
Qed.

Lemma vsum_zero {A} (l : list A) : vsum ((fun _ => 0) <$> l) = 0.
Proof. induction l as [|x l IH]; [done |]. rewrite fmap_cons, vsum_cons, IH. ring. Qed.

Lemma vsum_const {A} c (l : list A) :
  vsum ((fun _ => c) <$> l) = Py.of_nat (length l) * c.
Proof.
  induction l as [|x l IH]; [simpl; rewrite of_nat_0; ring |].
  rewrite fmap_cons, vsum_cons, IH. cbn [length]. rewrite of_nat_S. ring.
Qed.

(** Sums over rows and columns commute. *)
Lemma vsum_swap {A B} (f : A -> B -> Qc) (rows : list A) (cols : list B) :
  vsum ((fun r => vsum ((fun j => f r j) <$> cols)) <$> rows)
  = vsum ((fun j => vsum ((fun r => f r j) <$> rows)) <$> cols).
Proof.
  induction rows as [|r rows IH].
  - simpl. by rewrite vsum_zero.
  - rewrite fmap_cons, vsum_cons, IH, <- vsum_plus. done.
Qed.

Lemma vsum_ext {A} (f g : A -> Qc) l :
  (forall x, x ∈ l -> f x = g x) -> vsum (f <$> l) = vsum (g <$> l).
Proof.
  intros H. f_equal. apply Forall_fmap_ext, Forall_forall. exact H.
Qed.

(** A list read through its indices. *)
Lemma fmap_by_index {A B} (f : A -> B) (d : A) (l : list A) :
  f <$> l = (fun i => f (nth i l d)) <$> seq 0 (length l).
Proof.
  induction l as [|x l IH]; [done |].
  cbn [length seq]. rewrite !fmap_cons. f_equal.
  rewrite IH, <- seq_shift, <- list_fmap_compose. done.
Qed.

Lemma dot_by_index (u v : vector) :
  length u = length v ->
  dot u v = vsum ((fun j => nth j u 0 * nth j v 0) <$> seq 0 (length v)).
Proof.
  revert v. induction u as [|x u IH]; intros [|y v] Hlen; try done.
  unfold dot in *. cbn [zip_with length seq]. rewrite fmap_cons, !vsum_cons.
  f_equal. rewrite IH by (simpl in Hlen; lia).
  rewrite <- seq_shift, <- list_fmap_compose. done.
Qed.

End PageRankMass.

Section TransitionMatrix.

Import PageRank.

Local Open Scope Qc_scope.

Lemma square_row n m i : square n m -> (i < n)%nat -> length (nth i m nil) = n.
Proof.
  intros [Hlen Hrows] Hi. rewrite nth_lookup.
  destruct (lookup_lt_is_Some_2 m i) as [row Hrow]; [lia |].
  rewrite Hrow. simpl. by eapply Forall_lookup_1 in Hrows.
Qed.

Lemma zeros_square n : square n (zeros n).
Proof.
  unfold zeros. split; [apply length_replicate |].
  apply Forall_replicate, length_replicate.
Qed.

Lemma zeros_entry n i j : entry (zeros n) i j = 0.
Proof.
  unfold entry, zeros. rewrite !nth_lookup.
  destruct (decide (i < n)%nat) as [Hi|Hi].
  - rewrite lookup_replicate_2 by done. simpl.
    destruct (decide (j < n)%nat) as [Hj|Hj].
    + by rewrite lookup_replicate_2.
    + rewrite (proj1 (lookup_replicate_None _ _ _)) by lia. done.
  - rewrite (proj1 (lookup_replicate_None _ _ _)) by lia. simpl. by destruct j.
Qed.

Lemma set_entry_square n i j x m : square n m -> square n (set_entry i j x m).
Proof.
  intros [Hlen Hrows]. unfold set_entry. split; [by rewrite length_alter |].
  apply Forall_alter; [done |]. intros row _ Hrow. by rewrite length_insert.
Qed.

Lemma set_entry_entry n t s x m i j :
  square n m -> (t < n)%nat -> (s < n)%nat ->
  entry (set_entry t s x m) i j = if decide (i = t /\ j = s) then x else entry m i j.
Proof.
  intros Hsq Ht Hs. pose proof (square_row n m t Hsq Ht) as Hrow.
  unfold entry, set_entry in *. rewrite !(nth_lookup _ i), list_lookup_alter.
  rewrite nth_lookup in Hrow.
  destruct (decide (t = i)) as [<-|Hne].
  - destruct (m !! t) as [row|] eqn:E; simpl in *.
    + rewrite !nth_lookup, list_lookup_insert.
      destruct (decide (s = j /\ (s < length row)%nat)) as [[<- _]|Hn].
      * by rewrite decide_True.
      * rewrite decide_False; [done |]. intros [_ ->]. apply Hn. split; [done | lia].
    + lia.
  - rewrite decide_False; [done |]. intros [-> _]. done.
Qed.

Lemma set_column_square n j x m : square n m -> square n (set_column j x m).
Proof.
  intros [Hlen Hrows]. unfold set_column. split; [by rewrite length_fmap |].
  apply Forall_fmap. eapply Forall_impl; [exact Hrows |].
  intros row Hrow. simpl. by rewrite length_insert.
Qed.

Lemma set_column_entry n s x m i j :
  square n m -> (i < n)%nat -> (s < n)%nat ->
  entry (set_column s x m) i j = if decide (j = s) then x else entry m i j.
Proof.
  intros Hsq Hi Hs. pose proof (square_row n m i Hsq Hi) as Hrow.
  destruct Hsq as [Hlen Hrows].
  unfold entry, set_column in *. rewrite !(nth_lookup _ i), list_lookup_fmap.
  rewrite nth_lookup in Hrow.
  destruct (m !! i) as [row|] eqn:E; simpl in *.
  - rewrite !nth_lookup, list_lookup_insert.
    destruct (decide (s = j /\ (s < length row)%nat)) as [[<- _]|Hn].
    + by rewrite decide_True.
    + rewrite decide_False; [done |]. intros ->. apply Hn. split; [done | lia].
  - lia.
Qed.

(** The loop over the targets of one source. *)
Lemma fold_targets n s prob targets : forall m,
  square n m -> (s < n)%nat ->
  let m' := foldl (fun m target_id =>
                     if (target_id <? n)%nat then set_entry target_id s prob m else m)
                  m targets in
  square n m'
  /\ forall i j, (i < n)%nat ->
       entry m' i j = if decide (j = s /\ i ∈ targets) then prob else entry m i j.
Proof.
  induction targets as [|target targets IH]; intros m Hsq Hs; cbn [foldl].
  - split; [done |]. intros i j Hi. rewrite decide_False; [done |].
    intros [_ H]. by apply elem_of_nil in H.
  - destruct (Nat.ltb_spec target n) as [Ht|Ht].
    + destruct (IH (set_entry target s prob m)) as [Hsq' Hent];
        [by apply set_entry_square | done |].
      split; [exact Hsq' |]. intros i j Hi. rewrite Hent by done.
      rewrite (set_entry_entry n) by done.
      destruct (decide (j = s /\ i ∈ targets)) as [[-> Hin]|Hn].
      * rewrite decide_True; [done |]. split; [done | by right].
      * destruct (decide (i = target /\ j = s)) as [[-> ->]|Hn'].
        -- rewrite decide_True; [done |]. split; [done | by left].
        -- rewrite decide_False; [done |]. intros [-> Hin].
           apply elem_of_cons in Hin as [->|Hin]; [by apply Hn' | by apply Hn].
    + destruct (IH m Hsq Hs) as [Hsq' Hent]. split; [exact Hsq' |].
      intros i j Hi. rewrite Hent by done.
      destruct (decide (j = s /\ i ∈ targets)) as [[-> Hin]|Hn].
      * rewrite decide_True; [done |]. split; [done | by right].
      * rewrite decide_False; [done |]. intros [-> Hin].
        apply elem_of_cons in Hin as [->|Hin]; [lia | by apply Hn].
Qed.

(** One round of [for source_id in range(n)]: the column of the source is
    written, the others are left alone. *)
Lemma fill_column_spec self n s m :
  square n m -> (s < n)%nat ->
  square n (fill_column self n m s)
  /\ forall i j, (i < n)%nat ->
       entry (fill_column self n m s) i j
       = if decide (j = s) then
           if decide (outgoing self s = ∅) then 1 / Py.of_nat n
           else if decide (i ∈ outgoing self s)
                then 1 / Py.of_nat (size (outgoing self s))
                else entry m i s
         else entry m i j.
Proof.
  intros Hsq Hs. unfold fill_column.
  destruct (decide (outgoing self s = ∅)) as [Hempty|Hne].
  - split; [by apply set_column_square |]. intros i j Hi.
    by rewrite (set_column_entry n).
  - destruct (fold_targets n s (1 / Py.of_nat (size (outgoing self s)))
                (elements (outgoing self s)) m Hsq Hs) as [Hsq' Hent].
    split; [exact Hsq' |]. intros i j Hi. rewrite Hent by done.
    destruct (decide (j = s)) as [->|Hj].
    + destruct (decide (i ∈ outgoing self s)) as [Hin|Hnin].
      * rewrite decide_True; [done |]. split; [done | by apply elem_of_elements].
      * rewrite decide_False; [done |]. intros [_ Hin]. by apply elem_of_elements in Hin.
    + rewrite decide_False; [done |]. by intros [? _].
Qed.

Lemma fold_fill_column self n sources : forall m,
  square n m -> NoDup sources -> Forall (fun s => (s < n)%nat) sources ->
  let m' := foldl (fill_column self n) m sources in
  square n m'
  /\ forall i j, (i < n)%nat ->
       entry m' i j
       = if decide (j ∈ sources) then
           if decide (outgoing self j = ∅) then 1 / Py.of_nat n
           else if decide (i ∈ outgoing self j)
                then 1 / Py.of_nat (size (outgoing self j))
                else entry m i j
         else entry m i j.
Proof.
  induction sources as [|s sources IH]; intros m Hsq Hnd Hlt; cbn [foldl].
  - split; [done |]. intros i j Hi. rewrite decide_False; [done |].
    intros H. by apply elem_of_nil in H.
  - apply NoDup_cons in Hnd as [Hs Hnd]. apply Forall_cons in Hlt as [Hsn Hlt].
    destruct (fill_column_spec self n s m Hsq Hsn) as [Hsq1 Hent1].
    destruct (IH (fill_column self n m s) Hsq1 Hnd Hlt) as [Hsq2 Hent2].
    split; [exact Hsq2 |]. intros i j Hi. rewrite Hent2 by done.
    assert (Hfill : entry (fill_column self n m s) i j
                    = if decide (j = s) then
                        if decide (outgoing self s = ∅) then 1 / Py.of_nat n
                        else if decide (i ∈ outgoing self s)
                             then 1 / Py.of_nat (size (outgoing self s))
                             else entry m i s
                      else entry m i j) by (by apply Hent1).
    destruct (decide (j ∈ sources)) as [Hin|Hnin];
      destruct (decide (j ∈ s :: sources)) as [Hin'|Hnin'].
    + destruct (decide (j = s)) as [->|Hj]; [done |]. by rewrite Hfill.
    + exfalso. apply Hnin'. by right.
    + apply elem_of_cons in Hin' as [->|Hin']; [|done].
      rewrite Hfill. destruct (decide (s = s)); done.
    + rewrite Hfill. destruct (decide (j = s)) as [->|Hj]; [|done].
      exfalso. apply Hnin'. by left.
Qed.

(** The matrix that [_build_transition_matrix] returns. *)
Lemma _build_transition_matrix_spec self n :
  square n (_build_transition_matrix self n)
  /\ forall i j, (i < n)%nat -> (j < n)%nat ->
       entry (_build_transition_matrix self n) i j = transition self n i j.
Proof.
  destruct (fold_fill_column self n (seq 0 n) (zeros n)) as [Hsq Hent].
  - apply zeros_square.
  - apply NoDup_seq.
  - apply Forall_forall. intros s Hs. apply elem_of_seq in Hs. lia.
  - split; [exact Hsq |]. intros i j Hi Hj.
    unfold _build_transition_matrix, transition. rewrite Hent by done.
    destruct (decide (j ∈ seq 0 n)) as [_|Hn]; [by rewrite zeros_entry |].
    exfalso. apply Hn, elem_of_seq. lia.
Qed.

End TransitionMatrix.

Section PageRankIteration.

Import PageRank.

Local Open Scope Qc_scope.

Lemma _get_or_create_id_wf url self :
  next_id self = size (url_to_id self) ->
  (forall u i, url_to_id self !! u = Some i -> (i < next_id self)%nat) ->
  let r := _get_or_create_id url self in
  next_id r.2 = size (url_to_id r.2)
  /\ (forall u i, url_to_id r.2 !! u = Some i -> (i < next_id r.2)%nat)
  /\ (r.1 < next_id r.2)%nat
  /\ (next_id self <= next_id r.2)%nat.
Proof.
  intros Hsize Hids. unfold _get_or_create_id.
  destruct (url_to_id self !! url) as [i|] eqn:E; simpl.
  - split_and!; [done | done | by eapply Hids | lia].
  - split_and!; [| | lia | lia].
    + rewrite map_size_insert_None by done. by rewrite Hsize.
    + intros u i Hu. destruct (decide (u = url)) as [->|Hne].
      * rewrite lookup_insert_eq in Hu. inversion Hu. lia.
      * rewrite lookup_insert_ne in Hu by done. apply Hids in Hu. lia.
Qed.

Lemma add_link_next_id source target self :
  next_id (add_link source target self)
  = next_id (_get_or_create_id target (_get_or_create_id source self).2).2
  /\ url_to_id (add_link source target self)
     = url_to_id (_get_or_create_id target (_get_or_create_id source self).2).2.
Proof.
  unfold add_link. destruct (_get_or_create_id source self) as [sid s1]. simpl.
  by destruct (_get_or_create_id target s1) as [tid s2].
Qed.

Lemma add_link_wf source target self :
  graph_wf self -> graph_wf (add_link source target self).
Proof.
  intros (Hsize & Hids & Hbelow).
  destruct (_get_or_create_id_wf source self Hsize Hids) as (Hsize1 & Hids1 & Hsid & Hle1).
  destruct (_get_or_create_id_wf target _ Hsize1 Hids1) as (Hsize2 & Hids2 & Htid & Hle2).
  destruct (add_link_next_id source target self) as [Hn Hu].
  unfold graph_wf. rewrite Hn, Hu. split_and!; [done | done |].
  intros u v Huv. apply add_link_outgoing in Huv as [Huv|[-> ->]].
  - apply Hbelow in Huv. lia.
  - lia.
Qed.

Lemma after_wf links : graph_wf (after links).
Proof.
  unfold after.
  assert (H : forall self, graph_wf self ->
            graph_wf (foldl (fun self '(source, target) => add_link source target self)
                        self links)).
  { induction links as [|[source target] links IH]; intros self Hwf; simpl; [done |].
    by apply IH, add_link_wf. }
  apply H. split_and!; [done | |].
  - intros url i Hi. simpl in Hi. by rewrite lookup_empty in Hi.
  - intros u v Huv. unfold outgoing in Huv. simpl in Huv.
    rewrite lookup_empty in Huv. by apply not_elem_of_empty in Huv.
Qed.

Lemma after_damping_factor links : damping_factor (after links) = Py.qc 85 100.
Proof.
  unfold after.
  assert (H : forall self,
            damping_factor
              (foldl (fun self '(source, target) => add_link source target self)
                 self links) = damping_factor self).
  { induction links as [|[source target] links IH]; intros self; simpl; [done |].
    rewrite IH. unfold add_link, _get_or_create_id.
    destruct (url_to_id self !! source); simpl;
      match goal with |- context [?m !! target] => destruct (m !! target) end; done. }
  by rewrite H.
Qed.

Lemma vsum_scale_r {A} (f : A -> Qc) c l :
  vsum ((fun i => f i * c) <$> l) = vsum (f <$> l) * c.
Proof.
  induction l as [|x l IH]; [simpl; ring |].
  rewrite !fmap_cons, !vsum_cons, IH. ring.
Qed.

Lemma vsum_indicator (S : gset nat) c l :
  vsum ((fun i => if decide (i ∈ S) then c else 0) <$> l)
  = Py.of_nat (length (filter (fun i => i ∈ S) l)) * c.
Proof.
  induction l as [|x l IH]; [simpl; rewrite of_nat_0; ring |].
  rewrite fmap_cons, vsum_cons, IH, filter_cons.
  destruct (decide (x ∈ S)); [cbn [length]; rewrite of_nat_S |]; ring.
Qed.

Lemma of_nat_inv_r k : (0 < k)%nat -> Py.of_nat k * (1 / Py.of_nat k) = 1.
Proof.
  intros Hk. unfold Qcdiv. rewrite Qcmult_1_l. apply Qcmult_inv_r.
  by apply of_nat_neq_0.
Qed.

(** Every column of the transition matrix sums to 1. *)
Lemma transition_column_sum self n j :
  (0 < n)%nat -> ids_below n self ->
  vsum ((fun i => transition self n i j) <$> seq 0 n) = 1.
Proof.
  intros Hn Hbelow. unfold transition.
  destruct (decide (outgoing self j = ∅)) as [Hempty|Hne].
  - rewrite vsum_const, length_seq. by apply of_nat_inv_r.
  - rewrite vsum_indicator.
    assert (Hperm : filter (fun i => i ∈ outgoing self j) (seq 0 n)
                    ≡ₚ elements (outgoing self j)).
    { apply NoDup_Permutation.
      - apply NoDup_filter, NoDup_seq.
      - apply NoDup_elements.
      - intros x. rewrite list_elem_of_filter, elem_of_elements, elem_of_seq.
        split; [by intros [? _] |]. intros Hx. split; [done |].
        apply Hbelow in Hx. lia. }
    rewrite Hperm. change (length (elements (outgoing self j)))
      with (size (outgoing self j)).
    apply of_nat_inv_r.
    destruct (size (outgoing self j)) eqn:E; [|lia].
    apply size_empty_iff in E. exfalso. apply Hne. by apply leibniz_equiv.
Qed.

(** A matrix whose columns sum to 1 keeps the sum of a vector. *)
Lemma mat_vec_mass n (m : matrix) (v : vector) :
  square n m -> length v = n ->
  (forall j, (j < n)%nat -> vsum ((fun i => entry m i j) <$> seq 0 n) = 1) ->
  vsum (mat_vec m v) = vsum v.
Proof.
  intros Hsq Hv Hcols. pose proof Hsq as [Hlen Hrows].
  unfold mat_vec. rewrite (fmap_by_index _ nil), Hlen.
  rewrite (vsum_ext _ (fun i => vsum ((fun j => entry m i j * nth j v 0) <$> seq 0 n))).
  2:{ intros i Hi. apply elem_of_seq in Hi.
      rewrite dot_by_index, Hv; [done |].
      rewrite (square_row n) by (done || lia). done. }
  rewrite vsum_swap.
  rewrite (vsum_ext _ (fun j => nth j v 0)).
  2:{ intros j Hj. apply elem_of_seq in Hj.
      rewrite vsum_scale_r, Hcols by lia. ring. }
  rewrite <- Hv, <- (fmap_by_index (fun x => x) 0 v). by rewrite list_fmap_id.
Qed.

Lemma _pagerank_iteration_length self v m n :
  length m = n -> length (_pagerank_iteration self v m n) = n.
Proof. intros H. unfold _pagerank_iteration, mat_vec. by rewrite !length_fmap. Qed.

(** One iteration on a column-stochastic matrix keeps the total mass, for
    any damping factor. *)
Lemma _pagerank_iteration_mass self n (m : matrix) (v : vector) :
  square n m -> length v = n -> (0 < n)%nat ->
  (forall j, (j < n)%nat -> vsum ((fun i => entry m i j) <$> seq 0 n) = 1) ->
  vsum v = 1 ->
  vsum (_pagerank_iteration self v m n) = 1.
Proof.
  intros Hsq Hv Hn Hcols Hsum. unfold _pagerank_iteration.
  rewrite vsum_shift, vsum_scale, (mat_vec_mass n) by done.
  rewrite length_fmap. unfold mat_vec. rewrite length_fmap, (proj1 Hsq), Hsum.
  unfold Qcdiv. rewrite (Qcmult_comm (1 - damping_factor self)), Qcmult_assoc.
  rewrite Qcmult_inv_r by (by apply of_nat_neq_0). ring.
Qed.

Lemma uniform_mass n : (0 < n)%nat -> length (uniform n) = n /\ vsum (uniform n) = 1.
Proof.
  intros Hn. unfold uniform. split; [apply length_replicate |].
  assert (H : forall k c, vsum (replicate k c) = Py.of_nat k * c).
  { induction k as [|k IH]; intros c; [simpl; rewrite of_nat_0; ring |].
    cbn [replicate]. rewrite vsum_cons, IH, of_nat_S. ring. }
  rewrite H. by apply of_nat_inv_r.
Qed.

(** C9: in exact arithmetic, on the graph left by any sequence of [add_link]
    calls (the damping factor is 0.85, the matrix is the one of
    [_build_transition_matrix], dangling columns filled with 1/n): an
    iteration maps a score vector that sums to 1 to a vector that sums to 1;
    hence any number of iterations from the uniform vector, and the vector
    that the power iteration of [calculate_pagerank] ends with, sum to 1. *)
Theorem pagerank_iteration_preserves_mass
    (links : list (string * string)) (scores : vector) :
  let self := after links in
  let n := size (url_to_id self) in
  let transition_matrix := _build_transition_matrix self n in
  length scores = n ->
  vsum scores = 1 ->
  damping_factor self = Py.qc 85 100
  /\ vsum (_pagerank_iteration self scores transition_matrix n) = 1
  /\ (forall k, vsum (iterate self transition_matrix n k (uniform n)) = 1)
  /\ vsum (final_scores self) = 1.
Proof.
  intros self n transition_matrix Hlen Hsum.
  assert (Hn : (0 < n)%nat).
  { destruct scores; [|simpl in Hlen; lia]. simpl in Hsum. symmetry in Hsum. by apply Q_apart_0_1 in Hsum. }
  destruct (after_wf links) as (Hsize & _ & Hbelow). fold self in Hsize, Hbelow.
  rewrite Hsize in Hbelow. fold n in Hbelow.
  destruct (_build_transition_matrix_spec self n) as [Hsq Hent].
  fold transition_matrix in Hsq, Hent.
  assert (Hcols : forall j, (j < n)%nat ->
            vsum ((fun i => entry transition_matrix i j) <$> seq 0 n) = 1).
  { intros j Hj. rewrite <- (transition_column_sum self n j Hn Hbelow).
    apply vsum_ext. intros i Hi. apply elem_of_seq in Hi. apply Hent; lia. }
  assert (Hstep : forall v, length v = n -> vsum v = 1 ->
            length (_pagerank_iteration self v transition_matrix n) = n
            /\ vsum (_pagerank_iteration self v transition_matrix n) = 1).
  { intros v Hv Hs. split; [apply _pagerank_iteration_length, Hsq |].
    by apply (_pagerank_iteration_mass self n). }
  destruct (uniform_mass n Hn) as [Hulen Husum].
  split_and!.
  - apply after_damping_factor.
  - by apply Hstep.
  - intros k. revert Hulen Husum. generalize (uniform n).
    induction k as [|k IH]; intros v Hv Hs; cbn [iterate]; [done |].
    destruct (Hstep v Hv Hs) as [Hv' Hs']. by apply IH.
  - unfold final_scores. fold self n transition_matrix.
    revert Hulen Husum. generalize (uniform n).
    induction (max_iterations self) as [|k IH]; intros v Hv Hs;
      cbn [power_iteration]; [done |].
    destruct (Py.Qcltb _ _); [done |].
    destruct (Hstep v Hv Hs) as [Hv' Hs']. by apply IH.
Qed.

(** The three-page cycle of the specification's scenario, with the uniform
    vector. *)
Lemma pagerank_iteration_preserves_mass_witness :
  let self := after (("A", "B") :: ("B", "C") :: ("C", "A") :: nil) in
  let n := size (url_to_id self) in
  let transition_matrix := _build_transition_matrix self n in
  damping_factor self = Py.qc 85 100
  /\ vsum (_pagerank_iteration self (uniform 3) transition_matrix n) = 1
  /\ (forall k, vsum (iterate self transition_matrix n k (uniform n)) = 1)
  /\ vsum (final_scores self) = 1.
Proof.
  apply (pagerank_iteration_preserves_mass
           (("A", "B") :: ("B", "C") :: ("C", "A") :: nil) (uniform 3)).
  - vm_compute. reflexivity.
  - apply Qc_is_canon. vm_compute. reflexivity.
Defined.

End PageRankIteration.

(** ** The statistics of the index never fail *)

Section IndexStats.

Import InvertedIndex.

(** With at least one recorded length the divisor of the average is not
    zero, so [get_stats] returns normally on every index. *)
Lemma get_stats_total (self : t) : is_Some (get_stats self).
Proof.
  unfold get_stats. destruct (decide (doc_lengths self = ∅)) as [Hempty|Hne].
  - by eexists.
  - unfold Py.truediv.
    destruct (decide (Py.of_nat (size (doc_lengths self)) = 0%Qc)) as [Hz|_].
    + exfalso. apply of_nat_neq_0 in Hz; [done |].
      destruct (size (doc_lengths self)) eqn:E; [|lia].
      by apply map_size_empty_iff in E.
    + by eexists.
Qed.

End IndexStats.

(** ** Reading the index back *)

Section IndexLookups.

Import InvertedIndex.

Lemma od_get_alter {V} (f : option V -> V) k k' (d : list (string * V)) :
  od_get k (od_alter f k' d)
  = if decide (k = k') then Some (f (od_get k d)) else od_get k d.
Proof.
  induction d as [|[k0 v] d IH]; cbn [od_alter od_get].
  - destruct (decide (k = k')) as [->|Hne].
    + by rewrite String.eqb_refl.
    + by destruct (String.eqb_spec k k').
  - destruct (String.eqb_spec k' k0) as [->|Hne0]; cbn [od_get].
    + destruct (String.eqb_spec k k0) as [->|Hne]; [by rewrite decide_True |].
      by rewrite decide_False.
    + destruct (String.eqb_spec k k0) as [->|Hne].
      * by rewrite decide_False.
      * exact IH.
Qed.

Lemma od_get_elem_of {V} k (v : V) (d : list (string * V)) :
  NoDup d.*1 -> (k, v) ∈ d -> od_get k d = Some v.
Proof.
  induction d as [|[k0 v0] d IH]; intros Hnd Hin; [by apply elem_of_nil in Hin |].
  cbn [fmap list_fmap fst] in Hnd. apply NoDup_cons in Hnd as [Hk0 Hnd].
  cbn [od_get]. apply elem_of_cons in Hin as [Heq|Hin].
  - inversion Heq; subst. by rewrite String.eqb_refl.
  - destruct (String.eqb_spec k k0) as [->|Hne]; [|by apply IH].
    exfalso. apply Hk0. apply list_elem_of_fmap. by exists (k0, v).
Qed.

Lemma od_get_None {V} k (d : list (string * V)) : od_get k d = None <-> k ∉ d.*1.
Proof.
  induction d as [|[k0 v0] d IH]; cbn [od_get fmap list_fmap fst].
  - split; [intros _; apply not_elem_of_nil | done].
  - destruct (String.eqb_spec k k0) as [->|Hne].
    + split; [done |]. intros H. exfalso. apply H. left.
    + rewrite IH, not_elem_of_cons. naive_solver.
Qed.

(** The postings after the loop over [term_freq.items()], in full. *)
Lemma fold_append_lookup doc_id (tp : list (string * list nat)) items :
  forall idx term,
    NoDup items.*1 ->
    default []
      (foldl (fun idx '(term, freq) =>
                append_posting term (doc_id, freq, default [] (od_get term tp)) idx)
             idx items !! term)
    = (default [] (idx !! term)
       ++ match od_get term items with
          | Some freq => [(doc_id, freq, default [] (od_get term tp))]
          | None => []
          end)%list.
Proof.
  induction items as [|[k freq] items IH]; intros idx term Hnd.
  - cbn [foldl od_get]. by rewrite app_nil_r.
  - cbn [foldl]. cbn [fmap list_fmap fst] in Hnd.
    apply NoDup_cons in Hnd as [Hk Hnd]. rewrite IH by done.
    unfold append_posting at 1. cbn [od_get].
    destruct (String.eqb_spec term k) as [->|Hne].
    + rewrite lookup_insert_eq. cbn [from_option id].
      rewrite (proj2 (od_get_None k items)) by done. by rewrite app_nil_r.
    + by rewrite lookup_insert_ne.
Qed.

Lemma StronglySorted_snoc (ps : list nat) (position : nat) :
  StronglySorted lt ps -> Forall (fun p => (p < position)%nat) ps ->
  StronglySorted lt (ps ++ [position]).
Proof.
  intros Hs Hall. induction Hs as [|p ps Hs IH Hp]; simpl.
  - repeat constructor.
  - apply Forall_cons in Hall as [Hlt Hall]. constructor; [by apply IH |].
    apply Forall_app. split; [exact Hp | by repeat constructor].
Qed.

Lemma tally_wf_weaken position position' tf tp :
  (position <= position')%nat -> tally_wf position tf tp -> tally_wf position' tf tp.
Proof.
  intros Hle H term. specialize (H term). destruct (od_get term tf); [|done].
  destruct H as (ps & Hps & Hlen & Hpos & Hsorted & Hall).
  exists ps. split_and!; try done.
  eapply Forall_impl; [exact Hall |]. intros p Hp. simpl in Hp. lia.
Qed.

Lemma count_terms_tally tokens : forall position tf tp,
  tally_wf position tf tp ->
  tally_wf (position + length tokens)
    (count_terms position tokens tf tp).1 (count_terms position tokens tf tp).2.
Proof.
  induction tokens as [|token tokens IH]; intros position tf tp Hwf;
    cbn [count_terms length].
  - by rewrite Nat.add_0_r.
  - replace (position + S (length tokens))%nat with (S position + length tokens)%nat
      by lia.
    destruct (2 <=? String.length token)%nat.
    + apply IH. intros term. rewrite !od_get_alter. specialize (Hwf term).
      destruct (decide (term = token)) as [->|Hne].
      * destruct (od_get token tf) as [freq|].
        -- destruct Hwf as (ps & -> & Hlen & Hpos & Hsorted & Hall).
           exists (ps ++ [position])%list. cbn [from_option id].
           split_and!; [done | rewrite length_app; simpl; lia | lia | |].
           ++ by apply StronglySorted_snoc.
           ++ apply Forall_app. split; [|repeat constructor; lia].
              eapply Forall_impl; [exact Hall |]. intros p Hp. simpl in Hp. lia.
        -- rewrite Hwf. exists [position]. cbn [from_option id].
           split_and!; [done | done | lia | repeat constructor | repeat constructor; lia].
      * destruct (od_get term tf); [|done].
        destruct Hwf as (ps & Hps & Hlen & Hpos & Hsorted & Hall).
        exists ps. split_and!; try done.
        eapply Forall_impl; [exact Hall |]. intros p Hp. simpl in Hp. lia.
    + apply IH. apply (tally_wf_weaken position); [lia | done].
Qed.

Lemma occurrences_cons term token tokens :
  occurrences term (token :: tokens)
  = ((if decide (term = token) then
        if (2 <=? String.length token)%nat then 1 else 0
      else 0) + occurrences term tokens)%nat.
Proof.
  unfold occurrences. rewrite filter_cons.
  destruct (decide (term = token)) as [->|Hne].
  - rewrite decide_True by done. by destruct (2 <=? String.length token)%nat.
  - rewrite decide_False by done. by destruct (2 <=? String.length term)%nat.
Qed.

(** The frequency that the loop over the tokens gives a term. *)
Lemma count_terms_frequency term tokens : forall position tf tp,
  default 0%nat (od_get term (count_terms position tokens tf tp).1)
  = (default 0%nat (od_get term tf) + occurrences term tokens)%nat.
Proof.
  induction tokens as [|token tokens IH]; intros position tf tp; cbn [count_terms].
  - unfold occurrences. destruct (2 <=? String.length term)%nat; simpl; lia.
  - rewrite occurrences_cons. destruct (2 <=? String.length token)%nat.
    + rewrite IH, od_get_alter. destruct (decide (term = token)); simpl; lia.
    + rewrite IH. destruct (decide (term = token)); lia.
Qed.

Lemma first_tf_app_other doc_id d freq ps postings :
  d <> doc_id ->
  first_tf doc_id (postings ++ [(d, freq, ps)]) = first_tf doc_id postings.
Proof.
  intros Hne. induction postings as [|[[d0 f0] p0] postings IH]; cbn [app first_tf].
  - by destruct (String.eqb_spec d doc_id).
  - by destruct (String.eqb d0 doc_id).
Qed.

Lemma first_tf_app_new doc_id freq ps postings :
  doc_id ∉ posting_doc <$> postings ->
  first_tf doc_id (postings ++ [(doc_id, freq, ps)]) = Some freq.
Proof.
  induction postings as [|[[d0 f0] p0] postings IH]; intros Hfresh; cbn [app first_tf].
  - by rewrite String.eqb_refl.
  - rewrite fmap_cons in Hfresh. apply not_elem_of_cons in Hfresh as [Hne Hfresh].
    unfold posting_doc in Hne. simpl in Hne.
    destruct (String.eqb_spec d0 doc_id) as [->|_]; [done | by apply IH].
Qed.

Lemma get_term_frequency_postings term doc_id self :
  get_term_frequency term doc_id self
  = default 0%nat (first_tf doc_id (default [] (index self !! term))).
Proof. unfold get_term_frequency. by destruct (index self !! term). Qed.

(** What [add_document] leaves for a document that was not indexed. *)
Lemma add_document_fresh doc_id tokens self :
  doc_lengths self !! doc_id = None ->
  exists tf tp,
    count_terms 0 tokens [] [] = (tf, tp)
    /\ total_docs (add_document doc_id tokens self) = S (total_docs self)
    /\ doc_lengths (add_document doc_id tokens self)
       = <[doc_id := length tokens]> (doc_lengths self)
    /\ forall term,
         default [] (index (add_document doc_id tokens self) !! term)
         = (default [] (index self !! term)
            ++ match od_get term tf with
               | Some freq => [(doc_id, freq, default [] (od_get term tp))]
               | None => []
               end)%list.
Proof.
  intros Hfresh. unfold add_document.
  rewrite decide_False by (rewrite Hfresh; by intros [? ?]).
  pose proof (count_terms_NoDup tokens 0 [] [] (NoDup_nil_2)) as Hnd.
  destruct (count_terms 0 tokens [] []) as [tf tp]. simpl in Hnd.
  exists tf, tp. split_and!; try done.
  intros term. simpl. by apply fold_append_lookup.
Qed.

End IndexLookups.

Section IndexExtras.

Import InvertedIndex.

Lemma after_index_inv calls : index_inv (after calls).
Proof. apply fold_add_document_inv, init_inv. Qed.

Lemma NoDup_length_le_size (l : list string) (m : gmap string nat) :
  NoDup l -> (forall d, d ∈ l -> is_Some (m !! d)) -> length l <= size m.
Proof.
  intros Hnd Hin. rewrite <- size_dom. unfold size, set_size. simpl.
  apply submseteq_length, NoDup_submseteq; [done |].
  intros d Hd. apply elem_of_elements, elem_of_dom. by apply Hin.
Qed.

Lemma add_document_total_docs doc_id tokens self :
  total_docs self = size (doc_lengths self) ->
  total_docs (add_document doc_id tokens self)
  = size (doc_lengths (add_document doc_id tokens self)).
Proof.
  intros H. destruct (doc_lengths self !! doc_id) as [n|] eqn:E.
  - rewrite add_document_known by (by eexists). done.
  - destruct (add_document_fresh doc_id tokens self E) as (tf & tp & _ & -> & -> & _).
    rewrite map_size_insert_None by done. by rewrite H.
Qed.

Lemma after_total_docs calls : total_docs (after calls) = size (doc_lengths (after calls)).
Proof.
  unfold after.
  assert (H : forall self, total_docs self = size (doc_lengths self) ->
            let self' := foldl (fun self '(doc_id, tokens) =>
                                  add_document doc_id tokens self) self calls in
            total_docs self' = size (doc_lengths self')).
  { induction calls as [|[doc_id tokens] calls IH]; intros self Hs; simpl; [done |].
    by apply IH, add_document_total_docs. }
  by apply H.
Qed.

Lemma after_frequency_le calls term :
  get_document_frequency term (after calls) <= total_docs (after calls).
Proof.
  destruct (after_index_inv calls term) as (Hdf & Hnd & Hlen).
  rewrite Hdf, after_total_docs, <- (length_fmap posting_doc).
  by apply NoDup_length_le_size.
Qed.

(** X1: on every index built by [add_document] calls, [total_docs] is the
    number of recorded document lengths, and no document frequency exceeds
    it. *)
Theorem total_docs_bounds_frequencies (calls : list (string * list string))
    (term : string) :
  total_docs (after calls) = size (doc_lengths (after calls))
  /\ get_document_frequency term (after calls) <= total_docs (after calls).
Proof. split; [apply after_total_docs | apply after_frequency_le]. Qed.

Lemma add_document_postings_wf doc_id tokens self :
  (forall term, Forall posting_wf (default [] (index self !! term))) ->
  forall term, Forall posting_wf
                 (default [] (index (add_document doc_id tokens self) !! term)).
Proof.
  intros Hwf term. destruct (doc_lengths self !! doc_id) as [n|] eqn:E.
  - rewrite add_document_known by (by eexists). apply Hwf.
  - destruct (add_document_fresh doc_id tokens self E) as (tf & tp & Hct & _ & _ & ->).
    apply Forall_app. split; [apply Hwf |].
    assert (Htally : tally_wf (0 + length tokens) tf tp).
    { pose proof (count_terms_tally tokens 0 [] []) as H. rewrite Hct in H.
      apply H. by intros t. }
    specialize (Htally term). destruct (od_get term tf) as [freq|]; [|constructor].
    destruct Htally as (ps & -> & Hlen & Hpos & Hsorted & _).
    repeat constructor; done.
Qed.

(** X2: on every index built by [add_document] calls, each posting
    [(doc_id, tf, positions)] has [tf] equal to the number of its positions,
    which is at least one, and its positions ascend strictly. *)
Theorem postings_well_formed (calls : list (string * list string)) (term : string) :
  Forall posting_wf (default [] (index (after calls) !! term)).
Proof.
  revert term. unfold after.
  assert (H : forall self,
            (forall term, Forall posting_wf (default [] (index self !! term))) ->
            forall term, Forall posting_wf
              (default [] (index (foldl (fun self '(doc_id, tokens) =>
                                           add_document doc_id tokens self)
                                    self calls) !! term))).
  { induction calls as [|[doc_id tokens] calls IH]; intros self Hs; simpl; [done |].
    by apply IH, add_document_postings_wf. }
  apply H. intros term. simpl. rewrite lookup_empty. constructor.
Qed.

(** X3: a document added to an index built by [add_document] calls, under a
    [doc_id] not yet indexed, reads back: its term frequency for a term is
    the number of occurrences of the term among its tokens (terms shorter
    than two characters count for nothing), and its length is the number of
    its tokens. *)
Theorem add_document_reads_back (calls : list (string * list string))
    (doc_id : string) (tokens : list string) (term : string) :
  doc_lengths (after calls) !! doc_id = None ->
  get_term_frequency term doc_id (add_document doc_id tokens (after calls))
  = occurrences term tokens
  /\ get_document_length doc_id (add_document doc_id tokens (after calls))
    = length tokens.
Proof.
  intros Hfresh.
  destruct (add_document_fresh doc_id tokens _ Hfresh) as (tf & tp & Hct & _ & Hlen & Hidx).
  split.
  - rewrite get_term_frequency_postings, Hidx.
    pose proof (count_terms_frequency term tokens 0 [] []) as Hfreq.
    rewrite Hct in Hfreq. cbn [fst od_get from_option] in Hfreq.
    destruct (after_index_inv calls term) as (_ & _ & Hdocs).
    assert (Hnew : doc_id ∉ posting_doc <$> default [] (index (after calls) !! term)).
    { intros Hin. apply Hdocs in Hin. rewrite Hfresh in Hin. by destruct Hin. }
    pose proof (count_terms_tally tokens 0 [] []) as Htally. rewrite Hct in Htally.
    specialize (Htally (fun t => eq_refl) term). cbn [fst snd] in Htally.
    destruct (od_get term tf) as [freq|] eqn:E.
    + rewrite first_tf_app_new by done. simpl in *. lia.
    + rewrite app_nil_r. simpl in Hfreq. rewrite <- Hfreq.
      clear -Hnew. induction (default [] (index (after calls) !! term))
        as [|[[d0 f0] p0] postings IH]; [done |].
      rewrite fmap_cons in Hnew. apply not_elem_of_cons in Hnew as [Hne Hnew].
      cbn [first_tf]. unfold posting_doc in Hne. simpl in Hne.
      destruct (String.eqb_spec d0 doc_id); [done | by apply IH].
  - unfold get_document_length. by rewrite Hlen, lookup_insert_eq.
Qed.

Lemma add_document_reads_back_witness :
  doc_lengths (after [("a", ["cat"; "sat"; "mat"])]) !! "b" = None
  /\ get_term_frequency "cat" "b"
       (add_document "b" ["cat"; "cat"; "hat"] (after [("a", ["cat"; "sat"; "mat"])]))
     = occurrences "cat" ["cat"; "cat"; "hat"]
  /\ get_document_length "b"
       (add_document "b" ["cat"; "cat"; "hat"] (after [("a", ["cat"; "sat"; "mat"])]))
     = length ["cat"; "cat"; "hat"].
Proof.
  split; [vm_compute; reflexivity |].
  apply (add_document_reads_back [("a", ["cat"; "sat"; "mat"])] "b"
           ["cat"; "cat"; "hat"] "cat").
  vm_compute. reflexivity.
Defined.

(** X4: adding a document changes neither the term frequencies nor the
    length that the index reports for any other document. *)
Theorem add_document_keeps_other_documents (self : t) (doc_id other : string)
    (tokens : list string) (term : string) :
  other <> doc_id ->
  get_term_frequency term other (add_document doc_id tokens self)
  = get_term_frequency term other self
  /\ get_document_length other (add_document doc_id tokens self)
    = get_document_length other self.
Proof.
  intros Hne. destruct (doc_lengths self !! doc_id) as [n|] eqn:E.
  - rewrite add_document_known by (by eexists). done.
  - destruct (add_document_fresh doc_id tokens self E) as (tf & tp & _ & _ & Hlen & Hidx).
    split.
    + rewrite !get_term_frequency_postings, Hidx.
      destruct (od_get term tf) as [freq|]; [|by rewrite app_nil_r].
      by rewrite first_tf_app_other.
    + unfold get_document_length. by rewrite Hlen, lookup_insert_ne.
Qed.

Lemma add_document_keeps_other_documents_witness :
  "a" <> "b"
  /\ get_term_frequency "cat" "a"
       (add_document "b" ["cat"; "cat"] (after [("a", ["cat"; "sat"])]))
     = get_term_frequency "cat" "a" (after [("a", ["cat"; "sat"])])
  /\ get_document_length "a"
       (add_document "b" ["cat"; "cat"] (after [("a", ["cat"; "sat"])]))
     = get_document_length "a" (after [("a", ["cat"; "sat"])]).
Proof.
  split; [discriminate |].
  apply (add_document_keeps_other_documents (after [("a", ["cat"; "sat"])]) "b" "a"
           ["cat"; "cat"] "cat").
  discriminate.
Defined.

(** X5: [search] answers every requested term and only those: a requested
    term maps to its posting list, to the empty list when the term is not
    indexed. *)
Theorem search_lookup (self : t) (terms : list string) (term : string) :
  search terms self !! term
  = if decide (term ∈ terms) then Some (default [] (index self !! term)) else None.
Proof.
  unfold search.
  assert (H : forall results : gmap string (list posting),
            foldl (fun results term =>
                     match index self !! term with
                     | Some postings => <[term := postings]> results
                     | None => <[term := []]> results
                     end) results terms !! term
            = if decide (term ∈ terms) then Some (default [] (index self !! term))
              else results !! term).
  { induction terms as [|t terms IH]; intros results; cbn [foldl].
    - destruct (decide (term ∈ [])) as [H|_]; [by apply elem_of_nil in H | done].
    - rewrite IH. destruct (decide (term ∈ terms)) as [Hin|Hnin].
      + destruct (decide (term ∈ t :: terms)) as [_|Hn]; [done |].
        exfalso. apply Hn. by right.
      + destruct (decide (term = t)) as [->|Hne].
        * destruct (decide (t ∈ t :: terms)) as [_|Hn]; [|exfalso; apply Hn; left].
          destruct (index self !! t); by rewrite lookup_insert_eq.
        * destruct (decide (term ∈ t :: terms)) as [Hin|_].
          -- apply elem_of_cons in Hin as [?|?]; done.
          -- destruct (index self !! t); by rewrite lookup_insert_ne. }
  rewrite H. destruct (decide (term ∈ terms)); [done | apply lookup_empty].
Qed.

End IndexExtras.

(** ** Candidates and scores *)

Section ScorerExtras.

Import InvertedIndex TFIDFScorer.

Local Open Scope Qc_scope.

Lemma of_nat_le a b : (a <= b)%nat -> Py.of_nat a <= Py.of_nat b.
Proof.
  induction 1 as [|b Hle IH]; [apply Qcle_refl |].
  rewrite of_nat_S. eapply Qcle_trans; [exact IH |].
  apply Qcle_minus_iff. replace (Py.of_nat b + 1 + - Py.of_nat b) with 1 by ring. done.
Qed.

Lemma of_nat_pos k : (0 < k)%nat -> 0 < Py.of_nat k.
Proof.
  intros Hk. destruct (Qcle_lt_or_eq _ _ (of_nat_ge_0 k)) as [H|H]; [done |].
  symmetry in H. by apply of_nat_neq_0 in H.
Qed.

Lemma Qcdiv_mult_cancel a b : b <> 0 -> a / b * b = a.
Proof. intros Hb. by field. Qed.

Lemma Qcdiv_nonneg a b : 0 <= a -> 0 < b -> 0 <= a / b.
Proof.
  intros Ha Hb. apply (Qcmult_lt_0_le_reg_r _ _ b Hb).
  rewrite Qcmult_0_l, Qcdiv_mult_cancel; [done |].
  intros ->. by apply Qclt_not_eq in Hb.
Qed.

Lemma Qcdiv_ge_1 a b : 0 < b -> b <= a -> 1 <= a / b.
Proof.
  intros Hb Hab. apply (Qcmult_lt_0_le_reg_r _ _ b Hb).
  rewrite Qcmult_1_l, Qcdiv_mult_cancel; [done |].
  intros ->. by apply Qclt_not_eq in Hb.
Qed.

Lemma Qcmult_nonneg a b : 0 <= a -> 0 <= b -> 0 <= a * b.
Proof.
  intros Ha Hb. rewrite <- (Qcmult_0_l b). by apply Qcmult_le_compat_r.
Qed.

Lemma Qcplus_nonneg a b : 0 <= a -> 0 <= b -> 0 <= a + b.
Proof.
  intros Ha Hb. replace 0 with (0 + 0) by ring. by apply Qcplus_le_compat.
Qed.

(** A function that is like the logarithm is not negative from 1 on. *)
Lemma log_like_nonneg log x : log_like log -> 1 <= x -> 0 <= log x.
Proof.
  intros [H1 Hmono] Hx. destruct (Qcle_lt_or_eq _ _ Hx) as [Hlt| <-].
  - rewrite <- H1. apply Qclt_le_weak, Hmono; done.
  - rewrite H1. apply Qcle_refl.
Qed.

Lemma log_like_tangent : log_like (fun x => x - 1).
Proof.
  split; [apply Qc_is_canon; reflexivity |].
  intros x y _ Hxy. unfold Qcminus.
  apply Qclt_minus_iff. apply Qclt_minus_iff in Hxy.
  replace (y + - 1 + - (x + - 1)) with (y + - x) by ring. exact Hxy.
Qed.

Lemma fold_union_docs (postings : list posting) : forall (c : gset string) d,
  d ∈ foldl (fun c p => {[posting_doc p]} ∪ c) c postings
  <-> d ∈ c \/ d ∈ posting_doc <$> postings.
Proof.
  induction postings as [|p postings IH]; intros c d; cbn [foldl].
  - rewrite fmap_nil. split; [by left | intros [H|H]; [done | by apply elem_of_nil in H]].
  - rewrite IH, fmap_cons, elem_of_cons, elem_of_union, elem_of_singleton. naive_solver.
Qed.

Lemma search_one term self :
  search [term] self !! term = Some (default [] (index self !! term)).
Proof.
  unfold search. cbn [foldl]. destruct (index self !! term); by rewrite lookup_insert_eq.
Qed.

Lemma candidate_documents_fold index query_terms : forall (c : gset string) d,
  d ∈ foldl (fun candidate_docs term =>
               match search [term] index !! term with
               | Some postings =>
                   foldl (fun c p => {[posting_doc p]} ∪ c) candidate_docs postings
               | None => candidate_docs
               end) c query_terms
  <-> d ∈ c \/ exists term, term ∈ query_terms /\ d ∈ docs_of term index.
Proof.
  induction query_terms as [|t query_terms IH]; intros c d; cbn [foldl].
  - split; [by left | intros [H|(term & H & _)]; [done | by apply elem_of_nil in H]].
  - rewrite IH, search_one, fold_union_docs. unfold docs_of. split.
    + intros [[H|H]|(term & Hin & H)].
      * by left.
      * right. exists t. split; [left | done].
      * right. exists term. split; [by right | done].
    + intros [H|(term & Hin & H)]; [by left; left |].
      apply elem_of_cons in Hin as [->|Hin].
      * left. by right.
      * right. by exists term.
Qed.

(** X6: the candidate set of a query holds exactly the documents that have
    a posting under at least one of the query terms. *)
Theorem candidate_documents_spec (index : InvertedIndex.t) (query_terms : list string)
    (d : string) :
  d ∈ get_candidate_documents index query_terms
  <-> exists term, term ∈ query_terms /\ d ∈ docs_of term index.
Proof.
  unfold get_candidate_documents. rewrite candidate_documents_fold.
  split; [|by right]. intros [H|H]; [by apply not_elem_of_empty in H | done].
Qed.

Lemma first_tf_docs doc_id postings tf :
  first_tf doc_id postings = Some tf -> doc_id ∈ posting_doc <$> postings.
Proof.
  induction postings as [|[[d0 f0] p0] postings IH]; cbn [first_tf]; [done |].
  rewrite fmap_cons. destruct (String.eqb_spec d0 doc_id) as [->|Hne].
  - intros _. left.
  - intros H. right. by apply IH.
Qed.

Lemma term_frequency_docs term doc_id self :
  get_term_frequency term doc_id self <> 0%nat -> doc_id ∈ docs_of term self.
Proof.
  rewrite get_term_frequency_postings. unfold docs_of.
  destruct (first_tf doc_id (default [] (InvertedIndex.index self !! term))) eqn:E;
    [|done].
  intros _. by eapply first_tf_docs.
Qed.

Lemma score_document_no_term log index query_terms doc_id :
  (forall term, term ∈ query_terms -> calculate_tfidf log index term doc_id = 0) ->
  score_document log index query_terms doc_id = 0.
Proof.
  intros Hzero. unfold score_document.
  assert (H : forall total,
            foldl (fun total term => total + calculate_tfidf log index term doc_id)
              total query_terms = total).
  { induction query_terms as [|t query_terms IH]; intros total; cbn [foldl]; [done |].
    rewrite IH by (intros term Hin; apply Hzero; by right).
    rewrite Hzero by left. ring. }
  rewrite H. destruct query_terms; [done |]. unfold Qcdiv. ring.
Qed.

(** X7: whatever list of candidates is scored, every document of the ranked
    output has a posting under some query term: it belongs to the candidate
    set of the query. *)
Theorem ranked_documents_are_candidates (log : Qc -> Qc) (index : InvertedIndex.t)
    (query_terms candidate_docs : list string) (d : string) (s : Qc) :
  (d, s) ∈ score_documents log index query_terms candidate_docs ->
  d ∈ get_candidate_documents index query_terms.
Proof.
  unfold score_documents, scored_docs. rewrite sorted_by_Permutation, scored_docs_fold.
  intros [H|(_ & -> & Hpos)]; [by apply elem_of_nil in H |].
  apply candidate_documents_fold. right.
  destruct (decide (Exists (fun term =>
              get_term_frequency term d index <> 0%nat) query_terms)) as [Hex|Hnone].
  - apply Exists_exists in Hex as (term & Hin & Htf).
    exists term. split; [done | by apply term_frequency_docs].
  - exfalso. rewrite score_document_no_term in Hpos; [by apply Qclt_not_eq in Hpos |].
    intros term Hin. unfold calculate_tfidf.
    destruct (decide (get_term_frequency term d index = 0%nat)) as [_|Htf]; [done |].
    exfalso. apply Hnone, Exists_exists. by exists term.
Qed.

Lemma ranked_documents_are_candidates_witness :
  ("a", Py.qc 1 2) ∈ score_documents (fun x => x - 1) mat_index ["mat"] ["b"; "a"]
  /\ "a" ∈ get_candidate_documents mat_index ["mat"].
Proof.
  assert (H : ("a", Py.qc 1 2)
              ∈ score_documents (fun x => x - 1) mat_index ["mat"] ["b"; "a"]).
  { assert (Hs : forall d, d = "a" \/ d = "b" ->
              score_document (fun x => x - 1) mat_index ["mat"] d = Py.qc 1 2).
    { intros d [->| ->]; apply Qc_is_canon; vm_compute; reflexivity. }
    unfold score_documents, scored_docs. rewrite sorted_by_Permutation.
    cbn [foldl]. rewrite (Hs "b") by auto. rewrite (Hs "a") by auto.
    replace (Py.Qcltb 0 (Py.qc 1 2)) with true by (vm_compute; reflexivity).
    cbn [app]. apply elem_of_cons. right. apply elem_of_cons. by left. }
  split; [exact H |].
  exact (ranked_documents_are_candidates _ _ _ _ _ _ H).
Defined.

Lemma calculate_idf_nonneg log calls term :
  log_like log -> 0 <= calculate_idf log (after calls) term.
Proof.
  intros Hlog. unfold calculate_idf.
  destruct (decide (get_document_frequency term (after calls) = 0%nat)) as [_|Hdf];
    [apply Qcle_refl |].
  apply log_like_nonneg; [done |]. apply Qcdiv_ge_1.
  - apply of_nat_pos. lia.
  - apply of_nat_le, after_frequency_le.
Qed.

Lemma calculate_tfidf_nonneg log calls term doc_id :
  log_like log -> 0 <= calculate_tfidf log (after calls) term doc_id.
Proof.
  intros Hlog. unfold calculate_tfidf.
  destruct (decide (get_term_frequency term doc_id (after calls) = 0%nat)) as [_|Htf];
    [apply Qcle_refl |].
  apply Qcmult_nonneg; [|by apply calculate_idf_nonneg].
  unfold calculate_tf.
  destruct (Nat.ltb_spec 0 (get_term_frequency term doc_id (after calls))) as [Hpos|];
    [|apply Qcle_refl].
  apply Qcplus_nonneg; [done |]. apply log_like_nonneg; [done |].
  replace 1 with (Py.of_nat 1) by (by apply Qc_is_canon). apply of_nat_le. lia.
Qed.

(** X8: with a function that behaves like the logarithm (zero at 1,
    increasing), no score is negative on an index built by [add_document]
    calls; so the test [score > 0] of [score_documents] drops exactly the
    documents of score zero. *)
Theorem scores_are_not_negative (log : Qc -> Qc) (calls : list (string * list string))
    (query_terms : list string) (doc_id : string) :
  log_like log ->
  0 <= score_document log (after calls) query_terms doc_id.
Proof.
  intros Hlog. unfold score_document.
  assert (H : forall total, 0 <= total ->
            0 <= foldl (fun total term =>
                          total + calculate_tfidf log (after calls) term doc_id)
                   total query_terms).
  { induction query_terms as [|t query_terms IH]; intros total Htotal; cbn [foldl];
      [done |].
    apply IH, Qcplus_nonneg; [done | by apply calculate_tfidf_nonneg]. }
  destruct query_terms as [|t query_terms]; [apply Qcle_refl |].
  apply Qcdiv_nonneg; [apply H, Qcle_refl | apply of_nat_pos; simpl; lia].
Qed.

(** X9: a term that occurs in every document of the index weighs nothing:
    its inverse document frequency is the logarithm of 1, so its TF-IDF is 0
    for every document. *)
Theorem ubiquitous_term_scores_zero (log : Qc -> Qc) (index : InvertedIndex.t)
    (term doc_id : string) :
  log 1 = 0 ->
  get_document_frequency term index = total_docs index ->
  calculate_tfidf log index term doc_id = 0.
Proof.
  intros Hlog Hall. unfold calculate_tfidf, calculate_idf.
  destruct (decide (get_term_frequency term doc_id index = 0%nat)); [done |].
  destruct (decide (get_document_frequency term index = 0%nat)) as [_|Hdf]; [ring |].
  rewrite Hall. replace (Py.of_nat (total_docs index) / Py.of_nat (total_docs index))
    with 1.
  - rewrite Hlog. ring.
  - field. apply of_nat_neq_0. lia.
Qed.

End ScorerExtras.

Section ScorerWitnesses.

Import InvertedIndex TFIDFScorer.

Lemma scores_are_not_negative_witness :
  log_like (fun x => x - 1)%Qc
  /\ Qcle 0%Qc
       (score_document (fun x => x - 1)%Qc
          (after [("b", ["mat"]); ("a", ["mat"]); ("c", ["cat"])]) ["mat"; "cat"] "a").
Proof.
  split; [apply log_like_tangent |].
  apply (scores_are_not_negative (fun x => x - 1)%Qc
           [("b", ["mat"]); ("a", ["mat"]); ("c", ["cat"])] ["mat"; "cat"] "a").
  apply log_like_tangent.
Defined.

Lemma ubiquitous_term_scores_zero_witness :
  (fun x => x - 1)%Qc 1%Qc = 0%Qc
  /\ get_document_frequency "cat"
       (after [("A", ["cat"; "sat"; "mat"]); ("B", ["cat"; "cat"; "hat"])])
     = total_docs (after [("A", ["cat"; "sat"; "mat"]); ("B", ["cat"; "cat"; "hat"])])
  /\ calculate_tfidf (fun x => x - 1)%Qc
       (after [("A", ["cat"; "sat"; "mat"]); ("B", ["cat"; "cat"; "hat"])]) "cat" "B"
     = 0%Qc.
Proof.
  assert (H1 : (fun x => x - 1)%Qc 1%Qc = 0%Qc) by (apply Qc_is_canon; reflexivity).
  assert (H2 : get_document_frequency "cat"
                 (after [("A", ["cat"; "sat"; "mat"]); ("B", ["cat"; "cat"; "hat"])])
               = total_docs
                   (after [("A", ["cat"; "sat"; "mat"]); ("B", ["cat"; "cat"; "hat"])]))
    by (vm_compute; reflexivity).
  split_and!; [exact H1 | exact H2 |].
  exact (ubiquitous_term_scores_zero _ _ "cat" "B" H1 H2).
Defined.

End ScorerWitnesses.

(** ** The frontier: politeness and bookkeeping *)

Section FrontierExtras.

Import URLFrontier.

Local Open Scope Qc_scope.

Lemma Qcltb_ge a b : Py.Qcltb a b = false <-> b <= a.
Proof.
  unfold Py.Qcltb. rewrite Qcle_alt.
  assert (H : (b ?= a) = CompOpp (a ?= b))
    by (symmetry; unfold Qccompare; apply Qcompare_antisym).
  rewrite H. destruct (a ?= b); simpl; split; congruence.
Qed.

Lemma delay_nonneg : 0 <= Config.CRAWL_DELAY.
Proof. done. Qed.

Lemma Qcle_chain d t now last :
  0 <= d -> d <= t - now -> d <= now - last -> d <= t - last.
Proof.
  intros Hd H1 H2. replace (t - last) with ((t - now) + (now - last)) by ring.
  replace d with (d + 0) by ring. apply Qcplus_le_compat; [done |].
  by eapply Qcle_trans.
Qed.

Lemma jobs_insort (e : entry) queue :
  (fun e : entry => (e.1.1, e.2)) <$> Py.insort entry_le e queue
  ≡ₚ (e.1.1, e.2) :: ((fun e : entry => (e.1.1, e.2)) <$> queue).
Proof. by rewrite insort_Permutation, fmap_cons. Qed.

(** A call that returns a URL: the host had waited long enough, the URL was
    queued, and the state is updated for this URL alone. *)
Lemma get_next_url_some (fuel : nat) (now : Qc) : forall self url self',
  get_next_url fuel now self = Some (Some url, self') ->
  Config.CRAWL_DELAY <= now - last_access self (host url)
  /\ (exists priority, jobs self ≡ₚ (priority, url) :: jobs self')
  /\ domain_last_access self' = <[host url := now]> (domain_last_access self)
  /\ crawled_urls self' = {[url]} ∪ crawled_urls self
  /\ redis_frontier_urls self' = redis_frontier_urls self ∖ {[url]}
  /\ domain_queues self' = domain_queues self.
Proof.
  unfold get_next_url, jobs.
  induction fuel as [|fuel IH]; intros self url self' H; cbn [get_next_url_loop] in H;
    [done |].
  destruct (priority_queue self) as [|[[priority timestamp] u] queue] eqn:Hq;
    cbn [Py.heappop] in H; [by inversion H |].
  destruct (Py.Qcltb _ _) eqn:E.
  - apply IH in H as (Hwait & (p & Hjobs) & Hla & Hcr & Hre & Hdq).
    cbn [priority_queue domain_last_access crawled_urls redis_frontier_urls
         domain_queues] in *.
    split_and!; try done. exists p. rewrite <- Hjobs.
    unfold Py.heappush. by rewrite jobs_insort, fmap_cons.
  - inversion H; subst u self'. clear H.
    cbn [priority_queue domain_last_access crawled_urls redis_frontier_urls
         domain_queues].
    apply Qcltb_ge in E. split_and!; try done. by exists priority.
Qed.

(** A call that returns none found the queue empty. *)
Lemma get_next_url_none (fuel : nat) (now : Qc) : forall self self',
  get_next_url fuel now self = Some (None, self') ->
  priority_queue self = nil /\ self' = self.
Proof.
  unfold get_next_url.
  induction fuel as [|fuel IH]; intros self self' H; cbn [get_next_url_loop] in H;
    [done |].
  destruct (priority_queue self) as [|[[priority timestamp] u] queue] eqn:Hq;
    cbn [Py.heappop] in H; [by inversion H |].
  destruct (Py.Qcltb _ _); [|by inversion H].
  apply IH in H as [Hnil _]. cbn [priority_queue] in Hnil.
  by apply insort_not_nil in Hnil.
Qed.

Lemma add_url_state now url priority self :
  let self' := (add_url now url priority self).2 in
  domain_last_access self' = domain_last_access self
  /\ crawled_urls self' = crawled_urls self
  /\ (jobs self' = jobs self \/ jobs self' ≡ₚ (priority, url) :: jobs self).
Proof.
  unfold add_url, jobs. destruct (decide (url ∈ crawled_urls self)); cbn [snd].
  - split_and!; [done | done | by left].
  - cbn [domain_last_access crawled_urls priority_queue].
    split_and!; [done | done | right]. unfold Py.heappush. by rewrite jobs_insort.
Qed.

Lemma last_access_insert self' self h now h' :
  domain_last_access self' = <[h := now]> (domain_last_access self) ->
  last_access self' h' = if decide (h' = h) then now else last_access self h'.
Proof.
  intros H. unfold last_access. rewrite H. destruct (decide (h' = h)) as [->|Hne].
  - by rewrite lookup_insert_eq.
  - by rewrite lookup_insert_ne.
Qed.

(** Along a run, every return for a host comes at least [CRAWL_DELAY] after
    the last access the frontier has recorded for the host, and the returns
    respect the delay pairwise. *)
Lemma run_polite fuel calls : forall self trace self',
  run fuel calls self = Some (trace, self') ->
  ForallOrdPairs polite (returns calls trace)
  /\ Forall (fun e => Config.CRAWL_DELAY <= e.1 - last_access self (host e.2))
        (returns calls trace).
Proof.
  induction calls as [|[now url priority|now] calls IH]; intros self trace self' H;
    cbn [run] in H.
  - cbn [returns]. split; constructor.
  - apply IH in H as [Hpairs Hlast]. cbn [returns]. split; [exact Hpairs |].
    destruct (add_url_state now url priority self) as (Hla & _ & _).
    eapply Forall_impl; [exact Hlast |]. intros e He. cbn beta in He.
    unfold last_access in *. by rewrite <- Hla.
  - destruct (get_next_url fuel now self) as [[r self1]|] eqn:Hget; [|done].
    destruct (run fuel calls self1) as [[rs self2]|] eqn:Hrun; [|done].
    inversion H; subst trace self'. clear H.
    apply IH in Hrun as [Hpairs Hlast]. destruct r as [url|]; cbn [returns].
    + apply get_next_url_some in Hget as (Hwait & _ & Hla & _).
      split; [constructor; [|exact Hpairs] | constructor; [exact Hwait |]].
      * eapply Forall_impl; [exact Hlast |]. intros e He Hhost. cbn beta in He.
        rewrite (last_access_insert _ _ _ _ _ Hla), <- Hhost in He.
        by rewrite decide_True in He.
      * eapply Forall_impl; [exact Hlast |]. intros e He. cbn beta in *.
        rewrite (last_access_insert _ _ _ _ _ Hla) in He.
        destruct (decide (host e.2 = host url)) as [Heq|_]; [|exact He].
        rewrite Heq. by apply (Qcle_chain _ _ now); [apply delay_nonneg | |].
    + apply get_next_url_none in Hget as [_ ->]. done.
Qed.

(** X10: when [get_next_url] returns a URL, the host of the URL was last
    accessed at least [CRAWL_DELAY] before the call (a host never accessed
    counts as accessed at time 0); the call records the present time for the
    host, marks the URL as crawled, removes it from the Redis set, and takes
    exactly one entry of this URL out of the queue, the other entries keeping
    their priorities. *)
Theorem get_next_url_is_polite (fuel : nat) (now : Qc) (self : t) (url : string)
    (self' : t) :
  get_next_url fuel now self = Some (Some url, self') ->
  Config.CRAWL_DELAY <= now - last_access self (host url)
  /\ (exists priority, jobs self ≡ₚ (priority, url) :: jobs self')
  /\ domain_last_access self' = <[host url := now]> (domain_last_access self)
  /\ crawled_urls self' = {[url]} ∪ crawled_urls self
  /\ redis_frontier_urls self' = redis_frontier_urls self ∖ {[url]}.
Proof.
  intros H. apply get_next_url_some in H as (H1 & H2 & H3 & H4 & H5 & _). done.
Qed.

(** X11: along any sequence of [add_url] and [get_next_url] calls that all
    return, from any frontier state, two URLs of one host are never returned
    less than [CRAWL_DELAY] apart. *)
Theorem returns_of_one_host_are_spaced (fuel : nat) (calls : list call) (self : t)
    (trace : list (option string)) (self' : t) :
  run fuel calls self = Some (trace, self') ->
  ForallOrdPairs polite (returns calls trace).
Proof. intros H. by apply run_polite in H as [H _]. Qed.

(** X12: [get_next_url] returns none only on an empty queue, and then it
    leaves the frontier as it was. *)
Theorem get_next_url_none_only_when_empty (fuel : nat) (now : Qc) (self self' : t) :
  get_next_url fuel now self = Some (None, self') ->
  priority_queue self = nil /\ self' = self.
Proof. apply get_next_url_none. Qed.

(** X13: while the first entry of the queue has to wait and every other
    entry has a strictly larger priority number, [get_next_url] never
    returns, even when a URL of another entry is ready: the deferred entry
    goes back to the front of the queue. *)
Theorem waiting_head_starves_the_queue (now : Qc) (self : t) (priority : Z)
    (timestamp : Qc) (url : string) (rest : list entry) :
  priority_queue self = (priority, timestamp, url) :: rest ->
  blocked now self (priority, timestamp, url) ->
  Forall (fun e : entry => (priority < e.1.1)%Z) rest ->
  forall fuel, get_next_url fuel now self = None.
Proof.
  intros Hq Hblocked Hrest fuel. revert self timestamp Hq Hblocked.
  unfold get_next_url.
  induction fuel as [|fuel IH]; intros self timestamp Hq Hblocked;
    cbn [get_next_url_loop]; [done |].
  rewrite Hq. cbn [Py.heappop]. unfold blocked in Hblocked. cbn [snd] in Hblocked.
  rewrite Hblocked. eapply IH; cbn [priority_queue domain_last_access].
  - unfold Py.heappush. destruct rest as [|[[p2 t2] u2] rest']; cbn [Py.insort];
      [reflexivity |].
    apply Forall_cons in Hrest as [Hlt _]. cbn [fst] in Hlt.
    unfold entry_le, entry_compare.
    rewrite (proj2 (Z.compare_lt_iff priority p2)) by done. reflexivity.
  - unfold blocked. cbn [snd domain_last_access]. exact Hblocked.
Qed.

End FrontierExtras.

Section FrontierRuns.

Import URLFrontier.

Lemma filter_length_Permutation {A} (P : A -> Prop) `{forall x, Decision (P x)}
    (l k : list A) :
  l ≡ₚ k -> length (filter P l) = length (filter P k).
Proof. intros Hperm. by rewrite Hperm. Qed.

(** Along a run a URL is returned at most as often as it is queued at the
    start or added by the calls. *)
Lemma run_returns_bounded fuel url calls : forall self trace self',
  run fuel calls self = Some (trace, self') ->
  length (filter (fun e => e.2 = url) (returns calls trace))
  <= length (filter (fun j => j.2 = url) (jobs self)) + times_added url calls.
Proof.
  induction calls as [|[now u priority|now] calls IH]; intros self trace self' H;
    cbn [run] in H.
  - cbn [returns]. rewrite filter_nil. simpl. lia.
  - apply IH in H. cbn [returns times_added].
    destruct (add_url_state now u priority self) as (_ & _ & [Hjobs|Hjobs]).
    + rewrite Hjobs in H. lia.
    + rewrite (filter_length_Permutation _ _ _ Hjobs), filter_cons in H.
      cbn [snd] in H. destruct (decide (u = url)); cbn [length] in H; lia.
  - destruct (get_next_url fuel now self) as [[r self1]|] eqn:Hget; [|done].
    destruct (run fuel calls self1) as [[rs self2]|] eqn:Hrun; [|done].
    inversion H; subst trace self'. clear H. apply IH in Hrun.
    destruct r as [u|]; cbn [returns times_added].
    + apply get_next_url_some in Hget as (_ & (p & Hjobs) & _).
      rewrite (filter_length_Permutation _ _ _ Hjobs), !filter_cons. cbn [snd].
      destruct (decide (u = url)); cbn [length]; lia.
    + apply get_next_url_none in Hget as [_ ->]. exact Hrun.
Qed.

(** X14: along any sequence of calls on a new frontier, a URL is returned at
    most as many times as [add_url] was called on it. *)
Theorem url_returned_at_most_as_often_as_added (fuel : nat) (calls : list call)
    (trace : list (option string)) (self' : t) (url : string) :
  run fuel calls init = Some (trace, self') ->
  length (filter (fun e => e.2 = url) (returns calls trace)) <= times_added url calls.
Proof. intros H. by apply (run_returns_bounded fuel url) in H. Qed.

Lemma url_returned_at_most_as_often_as_added_witness :
  run 1 [AddUrl (Py.qc 100 1) xa 1; AddUrl (Py.qc 100 1) xa 1;
         GetNextUrl (Py.qc 100 1); GetNextUrl (Py.qc 102 1)] init
  = Some ([Some xa; Some xa], state_after (Py.qc 102 1) (state_after (Py.qc 100 1) queued_twice))
  /\ length (filter (fun e => e.2 = xa)
               (returns [AddUrl (Py.qc 100 1) xa 1; AddUrl (Py.qc 100 1) xa 1;
                         GetNextUrl (Py.qc 100 1); GetNextUrl (Py.qc 102 1)]
                  [Some xa; Some xa]))
     <= times_added xa [AddUrl (Py.qc 100 1) xa 1; AddUrl (Py.qc 100 1) xa 1;
                        GetNextUrl (Py.qc 100 1); GetNextUrl (Py.qc 102 1)].
Proof.
  assert (H : run 1 [AddUrl (Py.qc 100 1) xa 1; AddUrl (Py.qc 100 1) xa 1;
                     GetNextUrl (Py.qc 100 1); GetNextUrl (Py.qc 102 1)] init
              = Some ([Some xa; Some xa],
                      state_after (Py.qc 102 1) (state_after (Py.qc 100 1) queued_twice)))
    by (vm_compute; reflexivity).
  split; [exact H |].
  exact (url_returned_at_most_as_often_as_added _ _ _ _ xa H).
Defined.

Lemma get_next_url_is_polite_witness :
  get_next_url 1 (Py.qc 100 1) queued_twice
  = Some (Some xa, state_after (Py.qc 100 1) queued_twice)
  /\ (Config.CRAWL_DELAY <= Py.qc 100 1 - last_access queued_twice (host xa))%Qc.
Proof.
  assert (H : get_next_url 1 (Py.qc 100 1) queued_twice
              = Some (Some xa, state_after (Py.qc 100 1) queued_twice))
    by (vm_compute; reflexivity).
  split; [exact H |].
  exact (proj1 (get_next_url_is_polite _ _ _ _ _ H)).
Defined.

Lemma returns_of_one_host_are_spaced_witness :
  run 1 [AddUrl (Py.qc 100 1) xa 1; AddUrl (Py.qc 100 1) xb 1;
         GetNextUrl (Py.qc 100 1); GetNextUrl (Py.qc 1011 10)] init
  = Some ([Some xa; Some xb], state_after (Py.qc 1011 10) one_crawled)
  /\ ForallOrdPairs polite
       (returns [AddUrl (Py.qc 100 1) xa 1; AddUrl (Py.qc 100 1) xb 1;
                 GetNextUrl (Py.qc 100 1); GetNextUrl (Py.qc 1011 10)]
          [Some xa; Some xb]).
Proof.
  assert (H : run 1 [AddUrl (Py.qc 100 1) xa 1; AddUrl (Py.qc 100 1) xb 1;
                     GetNextUrl (Py.qc 100 1); GetNextUrl (Py.qc 1011 10)] init
              = Some ([Some xa; Some xb], state_after (Py.qc 1011 10) one_crawled))
    by (vm_compute; reflexivity).
  split; [exact H |].
  exact (returns_of_one_host_are_spaced _ _ _ _ _ H).
Defined.

Lemma get_next_url_none_only_when_empty_witness :
  get_next_url 1 (Py.qc 100 1) init = Some (None, init)
  /\ priority_queue init = nil /\ init = init.
Proof.
  split; [reflexivity |].
  apply (get_next_url_none_only_when_empty 1 (Py.qc 100 1) init init). reflexivity.
Defined.

Lemma waiting_head_starves_the_queue_witness :
  priority_queue two_waiting
  = [(1%Z, Py.qc 100 1, xb); (2%Z, Py.qc 100 1, yc)]
  /\ blocked (Py.qc 201 2) two_waiting (1%Z, Py.qc 100 1, xb)
  /\ Py.Qcltb (Py.qc 201 2 - last_access two_waiting (host yc))%Qc Config.CRAWL_DELAY
     = false
  /\ forall fuel, get_next_url fuel (Py.qc 201 2) two_waiting = None.
Proof.
  assert (Hq : priority_queue two_waiting
               = [(1%Z, Py.qc 100 1, xb); (2%Z, Py.qc 100 1, yc)])
    by (vm_compute; reflexivity).
  assert (Hb : blocked (Py.qc 201 2) two_waiting (1%Z, Py.qc 100 1, xb))
    by (vm_compute; reflexivity).
  split_and!; [exact Hq | exact Hb | vm_compute; reflexivity |].
  apply (waiting_head_starves_the_queue (Py.qc 201 2) two_waiting 1 (Py.qc 100 1) xb
           [(2%Z, Py.qc 100 1, yc)] Hq Hb).
  repeat constructor.
Defined.

End FrontierRuns.

(** ** The duplicate detector *)

Section DetectorUrls.

Import DuplicateDetector.

Variable _check_bracketed_host : string -> bool.
Variable sha256_hexdigest : string -> string.

Lemma is_duplicate_url_keeps_seen url self h :
  h ∈ redis_seen_urls self \/ h ∈ url_hashes self ->
  h ∈ redis_seen_urls (is_duplicate_url _check_bracketed_host sha256_hexdigest url self).2
  \/ h ∈ url_hashes (is_duplicate_url _check_bracketed_host sha256_hexdigest url self).2.
Proof.
  intros Hseen. unfold is_duplicate_url.
  destruct (normalize_url _check_bracketed_host url) as [url_normalized|]; [|done].
  repeat (destruct (decide _); [done |]). cbn [snd redis_seen_urls url_hashes].
  destruct Hseen as [H|H]; [left | right]; set_solver.
Qed.

Lemma is_duplicate_url_records url self url_normalized :
  normalize_url _check_bracketed_host url = Some url_normalized ->
  let h := hash_string sha256_hexdigest url_normalized in
  h ∈ redis_seen_urls (is_duplicate_url _check_bracketed_host sha256_hexdigest url self).2
  \/ h ∈ url_hashes (is_duplicate_url _check_bracketed_host sha256_hexdigest url self).2.
Proof.
  intros Hnorm. unfold is_duplicate_url. rewrite Hnorm.
  destruct (decide _) as [H|_]; [by left |].
  destruct (decide _) as [H|_]; [by right |].
  cbn [snd redis_seen_urls url_hashes]. left. set_solver.
Qed.

Lemma is_duplicate_url_seen url self url_normalized :
  normalize_url _check_bracketed_host url = Some url_normalized ->
  let h := hash_string sha256_hexdigest url_normalized in
  h ∈ redis_seen_urls self \/ h ∈ url_hashes self ->
  (is_duplicate_url _check_bracketed_host sha256_hexdigest url self).1 = Some true.
Proof.
  intros Hnorm h Hseen. unfold is_duplicate_url. rewrite Hnorm.
  fold h.
  destruct (decide (h ∈ redis_seen_urls self)); [done |].
  destruct (decide (h ∈ url_hashes self)); [done |]. by destruct Hseen.
Qed.

(** X15: once [is_duplicate_url] has answered for a URL (it raises the
    [ValueError] of [urlparse] on a URL with a malformed bracketed host),
    whatever it answered and whatever other URLs it is asked about
    afterwards, accepted or not, it reports as duplicate every URL with the
    same normal form. *)
Theorem seen_url_stays_seen (self : t) (url url' : string) (others : list string)
    (url_normalized : string) :
  normalize_url _check_bracketed_host url = Some url_normalized ->
  normalize_url _check_bracketed_host url' = Some url_normalized ->
  (is_duplicate_url _check_bracketed_host sha256_hexdigest url'
     (foldl (fun self other =>
               (is_duplicate_url _check_bracketed_host sha256_hexdigest other self).2)
        (is_duplicate_url _check_bracketed_host sha256_hexdigest url self).2 others)).1
  = Some true.
Proof.
  intros Hnorm Hnorm'. apply (is_duplicate_url_seen _ _ _ Hnorm').
  pose proof (is_duplicate_url_records url self _ Hnorm) as Hseen. cbn zeta in Hseen.
  revert Hseen.
  generalize (is_duplicate_url _check_bracketed_host sha256_hexdigest url self).2.
  induction others as [|other others IH]; intros state Hseen; cbn [foldl]; [done |].
  by apply IH, is_duplicate_url_keeps_seen.
Qed.

End DetectorUrls.

Section DetectorSimilarity.

Import DuplicateDetector.

Local Open Scope Qc_scope.

Lemma Qcdiv_le_1 a b : 0 < b -> a <= b -> a / b <= 1.
Proof.
  intros Hb Hab. apply (Qcmult_lt_0_le_reg_r _ _ b Hb).
  rewrite Qcmult_1_l, Qcdiv_mult_cancel; [done |].
  intros ->. by apply Qclt_not_eq in Hb.
Qed.

Lemma calculate_similarity_self (A : gset Z) : A <> ∅ -> calculate_similarity A A = 1.
Proof.
  intros HA. unfold calculate_similarity. rewrite !decide_False by done.
  assert (Hi : A ∩ A = A) by apply (idemp_L intersection).
  assert (Hu : A ∪ A = A) by apply (idemp_L union).
  rewrite Hi, Hu.
  assert (Hpos : (0 < size A)%nat).
  { destruct (size A) eqn:E; [|lia]. apply size_empty_iff in E.
    exfalso. apply HA. by apply leibniz_equiv. }
  destruct (Nat.ltb_spec 0 (size A)); [|lia].
  field. by apply of_nat_neq_0.
Qed.

Lemma existsb_elements {A} `{Countable A} (f : A -> bool) (X : gset A) :
  existsb f (elements X) = true <-> exists x, x ∈ X /\ f x = true.
Proof.
  rewrite existsb_exists. split; intros (x & Hx & Hf); exists x; split; try done.
  - apply elem_of_elements. by apply list_elem_of_In.
  - apply list_elem_of_In. by apply elem_of_elements.
Qed.

(** X16: [calculate_similarity] is symmetric, lies between 0 and 1, and is
    1 between a non-empty fingerprint and itself. *)
Theorem calculate_similarity_jaccard (A B : gset Z) :
  calculate_similarity A B = calculate_similarity B A
  /\ 0 <= calculate_similarity A B
  /\ calculate_similarity A B <= 1
  /\ (A <> ∅ -> calculate_similarity A A = 1).
Proof.
  split_and!; [| | | apply calculate_similarity_self].
  - unfold calculate_similarity.
    assert (Hi : A ∩ B = B ∩ A) by apply (comm_L intersection).
    assert (Hu : A ∪ B = B ∪ A) by apply (comm_L union).
    rewrite Hi, Hu. destruct (decide (A = ∅)), (decide (B = ∅)); done.
  - unfold calculate_similarity.
    destruct (decide (A = ∅)); [done |]. destruct (decide (B = ∅)); [done |].
    destruct (Nat.ltb_spec 0 (size (A ∪ B))); [|done].
    apply Qcdiv_nonneg; [apply of_nat_ge_0 | by apply of_nat_pos].
  - unfold calculate_similarity.
    destruct (decide (A = ∅)); [done |]. destruct (decide (B = ∅)); [done |].
    destruct (Nat.ltb_spec 0 (size (A ∪ B))); [|done].
    apply Qcdiv_le_1; [by apply of_nat_pos |].
    apply of_nat_le, subseteq_size.
    intros x Hx. apply elem_of_intersection in Hx as [Hx _].
    apply elem_of_union. by left.
Qed.

End DetectorSimilarity.

Section DetectorContent.

Import DuplicateDetector.

Local Open Scope Qc_scope.

Variable mmh3_hash : string -> Z.
Variable get_text : string -> string.
Variable str_of_fingerprint : gset Z -> string.

(** X17: with a threshold below 1, content whose fingerprint is not empty is
    reported as duplicate the second time it is submitted, whatever the first
    answer was. *)
Theorem same_content_is_duplicate_again (self : t) (content url url' : string) :
  similarity_threshold self < 1 ->
  create_content_fingerprint mmh3_hash get_text content <> ∅ ->
  (is_duplicate_content mmh3_hash get_text str_of_fingerprint content url'
     (is_duplicate_content mmh3_hash get_text str_of_fingerprint content url self).2).1
  = true.
Proof.
  intros Hthreshold Hfp. unfold is_duplicate_content at 2.
  destruct (existsb _ (elements (content_hashes self))) eqn:E; cbn [snd].
  - unfold is_duplicate_content. by rewrite E.
  - unfold is_duplicate_content. cbn [content_hashes similarity_threshold].
    match goal with |- (if ?b then _ else _).1 = true => assert (Hb : b = true) end.
    { apply existsb_elements.
      exists (create_content_fingerprint mmh3_hash get_text content).
      split; [apply elem_of_union; left; by apply elem_of_singleton |].
      rewrite calculate_similarity_self by done. by apply Qcltb_lt. }
    by rewrite Hb.
Qed.

(** X18: content of fewer than five words has the empty fingerprint, and
    with a threshold that is not negative it is never reported as
    duplicate. *)
Theorem short_content_is_never_duplicate (self : t) (content url : string) :
  (length (content_words get_text content) < 5)%nat ->
  0 <= similarity_threshold self ->
  create_content_fingerprint mmh3_hash get_text content = ∅
  /\ (is_duplicate_content mmh3_hash get_text str_of_fingerprint content url self).1
     = false.
Proof.
  intros Hshort Hthreshold.
  assert (Hfp : create_content_fingerprint mmh3_hash get_text content = ∅).
  { unfold create_content_fingerprint, shingles.
    replace (length (content_words get_text content) - 4)%nat with 0%nat by lia.
    done. }
  split; [exact Hfp |]. unfold is_duplicate_content. rewrite Hfp.
  destruct (existsb _ (elements (content_hashes self))) eqn:E; [|done].
  apply existsb_elements in E as (x & _ & Hx).
  unfold calculate_similarity in Hx. rewrite decide_True in Hx by done.
  apply Qcltb_lt in Hx. by apply Qclt_not_le in Hx.
Qed.

End DetectorContent.

Section DetectorWitnesses.

Import DuplicateDetector.

(** The two URLs of the scenario, with a URL that [urlparse] rejects asked
    about in between; the library check rejects every bracketed host, and the
    hash is a stand-in. *)
Lemma seen_url_stays_seen_witness :
  (is_duplicate_url (fun hostname => false) (fun text => text) "http://ex.com/p?a=1"
     (foldl (fun self other =>
               (is_duplicate_url (fun hostname => false) (fun text => text) other self).2)
        (is_duplicate_url (fun hostname => false) (fun text => text)
           "http://EX.com/p/?utm_source=x&a=1#frag" init).2
        ["http://other.test/"; "http://[ex.com/p"])).1 = Some true.
Proof.
  apply (seen_url_stays_seen (fun hostname => false) (fun text => text) init
           "http://EX.com/p/?utm_source=x&a=1#frag" "http://ex.com/p?a=1"
           ["http://other.test/"; "http://[ex.com/p"] "http://ex.com/p?a=1").
  - vm_compute. reflexivity.
  - vm_compute. reflexivity.
Defined.

(** A stand-in for the hash of a shingle in the witnesses: its length. *)
Lemma five_words_fingerprint :
  create_content_fingerprint (fun s => Z.of_nat (String.length s)) (fun html => html)
    "one two three four five" <> ∅.
Proof.
  unfold create_content_fingerprint.
  replace (shingles (content_words (fun html => html) "one two three four five"))
    with ["one two three four five"] by (vm_compute; reflexivity).
  intros H. assert (Hin : (23%Z : Z) ∈ (∅ : gset Z)); [|by apply not_elem_of_empty in Hin].
  rewrite <- H. apply elem_of_list_to_set. vm_compute. left.
Qed.

Lemma same_content_is_duplicate_again_witness :
  (similarity_threshold init < 1)%Qc
  /\ (is_duplicate_content (fun s => Z.of_nat (String.length s)) (fun html => html)
        (fun _ => "") "one two three four five" "http://b.test/"
        (is_duplicate_content (fun s => Z.of_nat (String.length s)) (fun html => html)
           (fun _ => "") "one two three four five" "http://a.test/" init).2).1
     = true.
Proof.
  assert (H : (similarity_threshold init < 1)%Qc) by reflexivity.
  split; [exact H |].
  exact (same_content_is_duplicate_again _ _ (fun _ => "") init _ "http://a.test/"
           "http://b.test/" H five_words_fingerprint).
Defined.

Lemma short_content_is_never_duplicate_witness :
  (length (content_words (fun html => html) "only four words here") < 5)%nat
  /\ create_content_fingerprint (fun s => Z.of_nat (String.length s)) (fun html => html)
       "only four words here" = ∅
  /\ (is_duplicate_content (fun s => Z.of_nat (String.length s)) (fun html => html)
        (fun _ => "") "only four words here" "http://a.test/" init).1 = false.
Proof.
  assert (H : (length (content_words (fun html => html) "only four words here") < 5)%nat)
    by (vm_compute; lia).
  split; [exact H |].
  apply (short_content_is_never_duplicate (fun s => Z.of_nat (String.length s))
           (fun html => html) (fun _ => "") init "only four words here"
           "http://a.test/" H).
  discriminate.
Defined.

End DetectorWitnesses.

(** ** The ids of the link graph *)

Section GraphIds.

Import PageRank.

Lemma _get_or_create_id_ids_wf url self :
  ids_wf self -> ids_wf (_get_or_create_id url self).2.
Proof.
  intros (Hnext & Hsize & Hbij & Hlt). unfold _get_or_create_id.
  destruct (url_to_id self !! url) as [i|] eqn:E; cbn [snd]; [done |].
  assert (Hfree : id_to_url self !! next_id self = None).
  { destruct (id_to_url self !! next_id self) as [u|] eqn:Eu; [|done].
    apply Hbij, Hlt in Eu. lia. }
  unfold ids_wf. cbn [next_id url_to_id id_to_url]. split_and!.
  - rewrite map_size_insert_None by done. by rewrite Hnext.
  - rewrite map_size_insert_None by done. by rewrite Hsize.
  - intros u i. destruct (decide (u = url)) as [->|Hu].
    + rewrite lookup_insert_eq. destruct (decide (i = next_id self)) as [->|Hi].
      * by rewrite lookup_insert_eq.
      * rewrite lookup_insert_ne by done. split; [intros H; inversion H; done |].
        intros H. apply Hbij in H. congruence.
    + rewrite lookup_insert_ne by done. destruct (decide (i = next_id self)) as [->|Hi].
      * rewrite lookup_insert_eq. split; [|intros H; inversion H; done].
        intros H. apply Hlt in H. lia.
      * rewrite lookup_insert_ne by done. apply Hbij.
  - intros u i. destruct (decide (u = url)) as [->|Hu].
    + rewrite lookup_insert_eq. intros H. inversion H. lia.
    + rewrite lookup_insert_ne by done. intros H. apply Hlt in H. lia.
Qed.

Lemma add_link_ids source target self :
  let r := _get_or_create_id target (_get_or_create_id source self).2 in
  next_id (add_link source target self) = next_id r.2
  /\ url_to_id (add_link source target self) = url_to_id r.2
  /\ id_to_url (add_link source target self) = id_to_url r.2.
Proof.
  unfold add_link. destruct (_get_or_create_id source self) as [sid s1]. simpl.
  by destruct (_get_or_create_id target s1) as [tid s2].
Qed.

Lemma add_link_ids_wf source target self :
  ids_wf self -> ids_wf (add_link source target self).
Proof.
  intros Hwf. destruct (add_link_ids source target self) as (Hn & Hu & Hi).
  unfold ids_wf. rewrite Hn, Hu, Hi.
  by apply _get_or_create_id_ids_wf, _get_or_create_id_ids_wf.
Qed.

Lemma after_ids_wf links : ids_wf (after links).
Proof.
  unfold after.
  assert (H : forall self, ids_wf self ->
            ids_wf (foldl (fun self '(source, target) => add_link source target self)
                      self links)).
  { induction links as [|[source target] links IH]; intros self Hwf; simpl; [done |].
    by apply IH, add_link_ids_wf. }
  apply H. unfold ids_wf. cbn [init next_id url_to_id id_to_url].
  split_and!; [done | done | |].
  - intros url i. by rewrite !lookup_empty.
  - intros url i. by rewrite lookup_empty.
Qed.

(** X19: on every graph built by [add_link] calls, the two id dictionaries
    are inverse to each other, and the ids are the numbers below the number
    of URLs. *)
Theorem url_ids_are_dense_and_bijective (links : list (string * string))
    (url : string) (i : nat) :
  (url_to_id (after links) !! url = Some i <-> id_to_url (after links) !! i = Some url)
  /\ (url_to_id (after links) !! url = Some i -> i < size (url_to_id (after links)))
  /\ size (id_to_url (after links)) = size (url_to_id (after links)).
Proof.
  destruct (after_ids_wf links) as (Hnext & Hsize & Hbij & Hlt).
  split_and!; [apply Hbij | | lia]. intros H. apply Hlt in H. lia.
Qed.

Lemma _get_or_create_id_known url self i :
  url_to_id self !! url = Some i -> _get_or_create_id url self = (i, self).
Proof. intros H. unfold _get_or_create_id. by rewrite H. Qed.

Lemma _get_or_create_id_keeps url url' self i :
  url_to_id self !! url = Some i ->
  url_to_id (_get_or_create_id url' self).2 !! url = Some i.
Proof.
  intros H. unfold _get_or_create_id.
  destruct (url_to_id self !! url') as [j|] eqn:E; cbn [snd url_to_id]; [done |].
  rewrite lookup_insert_ne; [done |]. intros ->. congruence.
Qed.

Lemma add_to_twice k x (d : gmap nat (gset nat)) : add_to k x (add_to k x d) = add_to k x d.
Proof.
  unfold add_to. rewrite lookup_insert_eq. cbn [from_option id].
  rewrite insert_insert_eq. f_equal.
  apply leibniz_equiv. intros y. rewrite !elem_of_union. tauto.
Qed.

(** X20: the graph is a simple graph: adding a link that was just added
    changes nothing. *)
Theorem add_link_twice (source target : string) (self : t) :
  add_link source target (add_link source target self)
  = add_link source target self.
Proof.
  pose proof (_get_or_create_id_lookup source self) as Hs.
  pose proof (_get_or_create_id_lookup target (_get_or_create_id source self).2) as Ht.
  apply (_get_or_create_id_keeps _ target) in Hs.
  unfold add_link at 2 3.
  destruct (_get_or_create_id source self) as [sid s1]. cbn [fst snd] in *.
  destruct (_get_or_create_id target s1) as [tid s2]. cbn [fst snd] in *.
  unfold add_link. cbn [url_to_id].
  rewrite (_get_or_create_id_known source _ sid) by done. cbn [url_to_id].
  rewrite (_get_or_create_id_known target _ tid) by done.
  cbn [damping_factor max_iterations tolerance graph reverse_graph scores url_to_id
       id_to_url next_id].
  by rewrite !add_to_twice.
Qed.

End GraphIds.

(** ** Scores by URL, and the personalised iteration *)

Section ScoresByUrl.

Import PageRank.

Local Open Scope Qc_scope.

(** The loop that writes a score vector into a dictionary, from index [k]
    on: a URL of the graph gets the entry of its id. *)
Lemma store_fold self (v : vector) :
  ids_wf self ->
  forall k (d : gmap string Qc) url,
    foldl (fun d '(node_id, score) =>
             if (node_id <? size (id_to_url self))%nat then
               match id_to_url self !! node_id with
               | Some url => <[url := score]> d
               | None => d
               end
             else d)
          d (imap (fun i x => ((k + i)%nat, x)) v) !! url
    = match url_to_id self !! url with
      | Some j =>
          if decide (k <= j < k + length v)%nat then v !! (j - k)%nat else d !! url
      | None => d !! url
      end.
Proof.
  intros (Hnext & Hsize & Hbij & Hlt).
  induction v as [|x v IH]; intros k d url.
  - cbn [imap foldl length]. destruct (url_to_id self !! url) as [j|]; [|done].
    destruct (decide _) as [H|_]; [lia | done].
  - cbn [imap foldl length].
    rewrite (imap_ext _ (fun i y => ((S k + i)%nat, y)))
      by (intros i y _; simpl; f_equal; lia).
    rewrite IH. replace (k + 0)%nat with k by lia.
    assert (Hstep : forall u j, url_to_id self !! u = Some j -> j <> k ->
              (if (k <? size (id_to_url self))%nat then
                 match id_to_url self !! k with
                 | Some url0 => <[url0 := x]> d
                 | None => d
                 end
               else d) !! u = d !! u).
    { intros u j Hu Hjk. destruct (k <? size (id_to_url self))%nat; [|done].
      destruct (id_to_url self !! k) as [u0|] eqn:E; [|done].
      rewrite lookup_insert_ne; [done |]. intros ->. apply Hbij in E. congruence. }
    destruct (url_to_id self !! url) as [j|] eqn:Hj.
    + destruct (decide (S k <= j < S k + length v)%nat) as [Hin|Hout].
      * rewrite decide_True by lia. replace (j - k)%nat with (S (j - S k)) by lia. done.
      * destruct (decide (j = k)) as [->|Hjk].
        -- rewrite decide_True by lia. replace (k - k)%nat with 0%nat by lia.
           pose proof (Hlt _ _ Hj) as Hk. apply Hbij in Hj.
           destruct (Nat.ltb_spec k (size (id_to_url self))); [|lia].
           rewrite Hj. by rewrite lookup_insert_eq.
        -- rewrite decide_False by lia. by apply (Hstep url j).
    + destruct (k <? size (id_to_url self))%nat; [|done].
      destruct (id_to_url self !! k) as [u0|] eqn:E; [|done].
      rewrite lookup_insert_ne; [done |]. intros ->. apply Hbij in E. congruence.
Qed.

Lemma store_lookup self (v : vector) (d : gmap string Qc) url :
  ids_wf self -> length v = size (url_to_id self) ->
  default 0
    (foldl (fun d '(node_id, score) =>
              if (node_id <? size (id_to_url self))%nat then
                match id_to_url self !! node_id with
                | Some url => <[url := score]> d
                | None => d
                end
              else d)
           d (imap pair v) !! url)
  = match url_to_id self !! url with
    | Some i => nth i v 0
    | None => default 0 (d !! url)
    end.
Proof.
  intros Hwf Hlen.
  rewrite (imap_ext pair (fun i x => ((0 + i)%nat, x))) by done.
  rewrite store_fold by done. destruct Hwf as (Hnext & _ & _ & Hlt).
  destruct (url_to_id self !! url) as [i|] eqn:E; [|done].
  apply Hlt in E. rewrite decide_True by lia.
  rewrite Nat.sub_0_r. by rewrite nth_lookup.
Qed.

Lemma after_scores links : scores (after links) = ∅.
Proof.
  unfold after.
  assert (H : forall self,
            scores (foldl (fun self '(source, target) => add_link source target self)
                      self links) = scores self).
  { induction links as [|[source target] links IH]; intros self; simpl; [done |].
    rewrite IH. unfold add_link, _get_or_create_id.
    destruct (url_to_id self !! source); simpl;
      match goal with |- context [?m !! target] => destruct (m !! target) end; done. }
  by rewrite H.
Qed.

Lemma power_iteration_length self (m : matrix) n iterations : forall v,
  length m = n -> length v = n -> length (power_iteration self m n iterations v) = n.
Proof.
  induction iterations as [|k IH]; intros v Hm Hv; cbn [power_iteration]; [done |].
  destruct (Py.Qcltb _ _); [done |]. apply IH; [done |].
  by apply _pagerank_iteration_length.
Qed.

Lemma final_scores_length self : length (final_scores self) = size (url_to_id self).
Proof.
  unfold final_scores. apply power_iteration_length.
  - apply _build_transition_matrix_spec.
  - apply length_replicate.
Qed.

End ScoresByUrl.

Section PersonalizedPageRank.

Import PageRank.

Local Open Scope Qc_scope.

Lemma vsum_insert (v : vector) i x :
  (i < length v)%nat -> vsum (<[i := x]> v) = vsum v - nth i v 0 + x.
Proof.
  revert i. induction v as [|y v IH]; intros i Hi; [simpl in Hi; lia |].
  destruct i as [|i].
  - cbn [insert list_insert nth]. rewrite !vsum_cons. ring.
  - change (<[S i := x]> (y :: v)) with (y :: <[i := x]> v).
    cbn [nth]. rewrite !vsum_cons, IH by (simpl in Hi; lia). ring.
Qed.

Lemma vsum_replicate_0 n : vsum (replicate n 0) = 0.
Proof. induction n as [|n IH]; [done |]. cbn [replicate]. rewrite vsum_cons, IH. ring. Qed.

Lemma vsum_zip_plus (a b : vector) :
  length a = length b -> vsum (zip_with Qcplus a b) = vsum a + vsum b.
Proof.
  revert b. induction a as [|x a IH]; intros [|y b] Hlen; simpl in Hlen; try lia.
  - simpl. ring.
  - cbn [zip_with]. rewrite !vsum_cons, IH by lia. ring.
Qed.

(** Writing [c] at distinct positions of a vector that is 0 there adds [c]
    once per position. *)
Lemma personalization_fold c : forall (ids : list nat) (v : vector),
  NoDup ids -> Forall (fun i => (i < length v)%nat) ids ->
  (forall i, i ∈ ids -> nth i v 0 = 0) ->
  length (foldl (fun p i => <[i := c]> p) v ids) = length v
  /\ vsum (foldl (fun p i => <[i := c]> p) v ids) = vsum v + Py.of_nat (length ids) * c.
Proof.
  induction ids as [|i ids IH]; intros v Hnd Hlt Hzero.
  - cbn [foldl length]. rewrite of_nat_0. split; [done | ring].
  - apply NoDup_cons in Hnd as [Hi Hnd]. apply Forall_cons in Hlt as [Hil Hlt].
    cbn [foldl length].
    destruct (IH (<[i := c]> v)) as [Hlen Hsum].
    + done.
    + eapply Forall_impl; [exact Hlt |]. intros j Hj. by rewrite length_insert.
    + intros j Hj. rewrite nth_lookup, list_lookup_insert_ne.
      * rewrite <- nth_lookup. apply Hzero. by right.
      * intros ->. done.
    + rewrite Hlen, Hsum, length_insert, vsum_insert, of_nat_S by done.
      rewrite Hzero by left. split; [done | ring].
Qed.

Lemma seed_ids_NoDup self seed_urls :
  ids_wf self -> NoDup seed_urls -> NoDup (seed_ids_of self seed_urls).
Proof.
  intros (_ & _ & Hbij & _). unfold seed_ids_of.
  induction seed_urls as [|url urls IH]; intros Hnd; [constructor |].
  apply NoDup_cons in Hnd as [Hurl Hnd]. cbn [omap list_omap].
  destruct (url_to_id self !! url) as [i|] eqn:E; [|by apply IH].
  apply NoDup_cons. split; [|by apply IH].
  intros Hi. apply list_elem_of_omap in Hi as (u & Hu & Hui).
  apply Hbij in E. apply Hbij in Hui. congruence.
Qed.

Lemma seed_ids_lt self seed_urls :
  ids_wf self ->
  Forall (fun i => (i < size (url_to_id self))%nat) (seed_ids_of self seed_urls).
Proof.
  intros (Hnext & _ & _ & Hlt). apply Forall_forall. intros i Hi.
  apply list_elem_of_omap in Hi as (u & _ & Hui). apply Hlt in Hui. lia.
Qed.

(** The personalisation vector of distinct seed ids sums to 1. *)
Lemma personalization_vector_mass n (seed_ids : list nat) :
  NoDup seed_ids -> seed_ids <> nil -> Forall (fun i => (i < n)%nat) seed_ids ->
  length (personalization_vector n seed_ids) = n
  /\ vsum (personalization_vector n seed_ids) = 1.
Proof.
  intros Hnd Hne Hlt. unfold personalization_vector.
  destruct (personalization_fold (1 / Py.of_nat (length seed_ids)) seed_ids
              (replicate n 0)) as [Hlen Hsum].
  - done.
  - eapply Forall_impl; [exact Hlt |]. intros i Hi. by rewrite length_replicate.
  - intros i Hi. rewrite nth_lookup.
    destruct (replicate n 0 !! i) as [x|] eqn:E; [|done].
    apply lookup_replicate in E as [-> _]. done.
  - rewrite Hlen, Hsum, length_replicate, vsum_replicate_0.
    split; [done |]. rewrite of_nat_inv_r; [ring |].
    destruct seed_ids; [done | simpl; lia].
Qed.

Lemma personalized_step_length alpha (m : matrix) (p v : vector) n :
  length m = n -> length p = n -> length (personalized_step alpha m p v) = n.
Proof.
  intros Hm Hp. unfold personalized_step, mat_vec.
  rewrite length_zip_with, !length_fmap. lia.
Qed.

(** One step of the personalised iteration on a column-stochastic matrix
    keeps the total mass, for any [alpha]. *)
Lemma personalized_step_mass alpha n (m : matrix) (p v : vector) :
  square n m -> length v = n -> length p = n ->
  (forall j, (j < n)%nat -> vsum ((fun i => entry m i j) <$> seq 0 n) = 1) ->
  vsum v = 1 -> vsum p = 1 ->
  vsum (personalized_step alpha m p v) = 1.
Proof.
  intros Hsq Hv Hp Hcols Hsv Hsp. unfold personalized_step.
  rewrite vsum_zip_plus.
  - rewrite !vsum_scale, (mat_vec_mass n), Hsv, Hsp by done. ring.
  - unfold mat_vec. rewrite !length_fmap. destruct Hsq as [Hm _]. lia.
Qed.

Lemma after_columns links :
  let self := after links in
  let n := size (url_to_id self) in
  (0 < n)%nat ->
  forall j, (j < n)%nat ->
    vsum ((fun i => entry (_build_transition_matrix self n) i j) <$> seq 0 n) = 1.
Proof.
  intros self n Hn j Hj.
  destruct (after_wf links) as (Hsize & _ & Hbelow). fold self in Hsize, Hbelow.
  rewrite Hsize in Hbelow. fold n in Hbelow.
  destruct (_build_transition_matrix_spec self n) as [Hsq Hent].
  rewrite <- (transition_column_sum self n j Hn Hbelow).
  apply vsum_ext. intros i Hi. apply elem_of_seq in Hi. apply Hent; lia.
Qed.

Lemma personalized_iteration_spec self alpha n (m : matrix) (p : vector) iterations :
  square n m -> length p = n ->
  forall v, length v = n ->
    length (personalized_iteration self alpha m p iterations v) = n
    /\ ((forall j, (j < n)%nat -> vsum ((fun i => entry m i j) <$> seq 0 n) = 1) ->
        vsum p = 1 -> vsum v = 1 ->
        vsum (personalized_iteration self alpha m p iterations v) = 1).
Proof.
  intros Hsq Hp. induction iterations as [|k IH]; intros v Hv;
    cbn [personalized_iteration]; [done |].
  destruct (Py.Qcltb _ _); [done |].
  destruct (IH (personalized_step alpha m p v)) as [Hlen Hsum].
  { apply personalized_step_length; [apply Hsq | done]. }
  split; [done |]. intros Hcols Hsp Hsv. apply Hsum; [done | done |].
  by apply (personalized_step_mass alpha n).
Qed.

Lemma personalized_scores_length seed_ids alpha self :
  Forall (fun i => (i < size (url_to_id self))%nat) seed_ids ->
  length (personalized_scores seed_ids alpha self) = size (url_to_id self).
Proof.
  intros Hlt. unfold personalized_scores.
  assert (Hp : length (personalization_vector (size (url_to_id self)) seed_ids)
               = size (url_to_id self)).
  { unfold personalization_vector.
    assert (H : forall (c : Qc) (ids : list nat) (v : vector),
              length (foldl (fun p i => <[i := c]> p) v ids) = length v).
    { intros c ids. induction ids as [|i ids IH]; intros v; cbn [foldl]; [done |].
      by rewrite IH, length_insert. }
    by rewrite H, length_replicate. }
  apply (personalized_iteration_spec self alpha (size (url_to_id self))); [| done | done].
  apply _build_transition_matrix_spec.
Qed.

Lemma after_snoc links source target :
  after (links ++ (source, target) :: nil) = add_link source target (after links).
Proof. unfold after. by rewrite foldl_snoc. Qed.

Lemma add_link_graph_not_empty source target self :
  graph (add_link source target self) <> ∅.
Proof.
  unfold add_link. destruct (_get_or_create_id source self) as [sid s1].
  destruct (_get_or_create_id target s1) as [tid s2]. cbn [graph].
  unfold add_to. apply insert_non_empty.
Qed.

Lemma after_graph_not_empty links : links <> nil -> graph (after links) <> ∅.
Proof.
  intros Hne. destruct (exists_last Hne) as (l & [source target] & ->).
  rewrite after_snoc. apply add_link_graph_not_empty.
Qed.

Lemma vsum_Permutation (u v : vector) : u ≡ₚ v -> vsum u = vsum v.
Proof.
  induction 1 as [|x u v _ IH|x y u|u v w _ IH1 _ IH2].
  - done.
  - by rewrite !vsum_cons, IH.
  - rewrite !vsum_cons. ring.
  - by rewrite IH1.
Qed.

(** The URLs of the graph, listed by id. *)
Lemma urls_by_id self :
  ids_wf self ->
  elements (dom (url_to_id self))
  ≡ₚ omap (fun i => id_to_url self !! i) (seq 0 (size (url_to_id self))).
Proof.
  intros (Hnext & Hsize & Hbij & Hlt). apply NoDup_Permutation.
  - apply NoDup_elements.
  - assert (H : forall l : list nat, NoDup l ->
              NoDup (omap (fun i => id_to_url self !! i) l)).
    { induction l as [|i l IH]; intros Hnd; [constructor |].
      apply NoDup_cons in Hnd as [Hi Hnd]. cbn [omap list_omap].
      destruct (id_to_url self !! i) as [u|] eqn:E; [|by apply IH].
      apply NoDup_cons. split; [|by apply IH].
      intros Hu. apply list_elem_of_omap in Hu as (j & Hj & Hju).
      apply Hbij in E. apply Hbij in Hju. congruence. }
    apply H, NoDup_seq.
  - intros url. rewrite elem_of_elements, elem_of_dom, list_elem_of_omap. split.
    + intros [i Hi]. exists i. split; [|by apply Hbij].
      apply elem_of_seq. apply Hlt in Hi. lia.
    + intros (i & _ & Hi). exists i. by apply Hbij.
Qed.

Lemma vsum_by_id self (v : vector) (f : string -> Qc) :
  ids_wf self -> length v = size (url_to_id self) ->
  (forall url i, url_to_id self !! url = Some i -> f url = nth i v 0) ->
  vsum (f <$> elements (dom (url_to_id self))) = vsum v.
Proof.
  intros Hwf Hlen Hf. pose proof Hwf as (Hnext & Hsize & Hbij & Hlt).
  rewrite (vsum_Permutation _ _ (fmap_Permutation f _ _ (urls_by_id self Hwf))).
  transitivity (vsum (id <$> v)); [|by rewrite list_fmap_id].
  rewrite (fmap_by_index id 0 v), Hlen.
  assert (H : forall l : list nat,
            Forall (fun i => (i < size (url_to_id self))%nat) l ->
            f <$> omap (fun i => id_to_url self !! i) l = (fun i => id (nth i v 0)) <$> l).
  { induction l as [|i l IH]; intros Hl; [done |].
    apply Forall_cons in Hl as [Hi Hl]. cbn [omap list_omap].
    destruct (lookup_lt_is_Some_2 v i) as [x Hx]; [lia |].
    destruct (id_to_url self !! i) as [u|] eqn:E.
    - rewrite !fmap_cons, IH by done. f_equal. apply Hf. by apply Hbij.
    - exfalso.
      assert (Hdom : i ∈ dom (id_to_url self)).
      { assert (Hd : dom (id_to_url self) = set_seq 0 (size (url_to_id self))).
        { apply set_eq. intros j. rewrite elem_of_set_seq, elem_of_dom. split.
          - intros [u Hu]. apply Hbij, Hlt in Hu. lia.
          - intros [_ Hj].
            destruct (decide (is_Some (id_to_url self !! j))) as [|Hn]; [done |].
            exfalso.
            assert (Hsub : dom (id_to_url self)
                           ⊆ set_seq 0 (size (url_to_id self)) ∖ {[j]}).
            { intros k Hk. apply elem_of_dom in Hk as [u Hu].
              apply elem_of_difference. split.
              - apply elem_of_set_seq. apply Hbij, Hlt in Hu. lia.
              - intros Hkj. apply elem_of_singleton in Hkj as ->.
                apply Hn. by exists u. }
            apply subseteq_size in Hsub.
            rewrite size_dom, Hsize, Hnext in Hsub.
            rewrite size_difference in Hsub.
            + rewrite size_set_seq, size_singleton in Hsub. lia.
            + apply singleton_subseteq_l, elem_of_set_seq. lia. }
        rewrite Hd. apply elem_of_set_seq. lia. }
      apply elem_of_dom in Hdom as [u Hu]. congruence. }
  apply (f_equal vsum), H, Forall_forall. intros i Hi. apply elem_of_seq in Hi. lia.
Qed.

(** X21: on the graph left by any sequence of [add_link] calls, for distinct
    seed URLs of which at least one is in the graph and for any [alpha], the
    vector that the loop of [personalized_pagerank] ends with has one entry
    per URL of the graph and sums to 1 (in exact arithmetic). *)
Theorem personalized_scores_sum_to_one
    (links : list (string * string)) (seed_urls : list string) (alpha : Qc) :
  let self := after links in
  let seed_ids := seed_ids_of self seed_urls in
  NoDup seed_urls -> seed_ids <> nil ->
  length (personalized_scores seed_ids alpha self) = size (url_to_id self)
  /\ vsum (personalized_scores seed_ids alpha self) = 1.
Proof.
  intros self seed_ids Hnd Hne.
  pose proof (after_ids_wf links) as Hwf. fold self in Hwf.
  pose proof (seed_ids_lt self seed_urls Hwf) as Hlt. fold seed_ids in Hlt.
  pose proof (seed_ids_NoDup self seed_urls Hwf Hnd) as Hnd'. fold seed_ids in Hnd'.
  assert (Hn : (0 < size (url_to_id self))%nat).
  { destruct seed_ids as [|i ids]; [done |]. apply Forall_cons in Hlt as [Hi _]. lia. }
  destruct (personalization_vector_mass _ seed_ids Hnd' Hne Hlt) as [Hplen Hpsum].
  split; [by apply personalized_scores_length |].
  unfold personalized_scores.
  apply (personalized_iteration_spec self alpha (size (url_to_id self))); try done.
  - apply _build_transition_matrix_spec.
  - by apply after_columns.
Qed.

Lemma get_score_lookup (links : list (string * string)) (url : string) :
  get_score url (calculate_pagerank (after links))
  = match url_to_id (after links) !! url with
    | Some i => nth i (final_scores (after links)) 0
    | None => 0
    end.
Proof.
  destruct links as [|link links].
  - unfold after. cbn [foldl]. unfold calculate_pagerank, get_score, init.
    cbn [graph]. destruct (decide _) as [_|H]; [|done].
    cbn [scores url_to_id]. by rewrite !lookup_empty.
  - set (self := after (link :: links)).
    unfold calculate_pagerank.
    destruct (decide (graph self = ∅)) as [He|_].
    { by apply after_graph_not_empty in He. }
    unfold get_score. cbn [scores]. unfold store_scores.
    rewrite store_lookup.
    + destruct (url_to_id self !! url); [done |].
      unfold self. by rewrite after_scores, lookup_empty.
    + apply after_ids_wf.
    + apply final_scores_length.
Qed.

(** X22: after [calculate_pagerank] on the graph left by any sequence of
    [add_link] calls, [get_score] of a URL of the graph is the entry of the
    final score vector at the id of the URL, and [get_score] of any other
    URL is 0; in particular every score is 0 when no link was added. *)
Theorem get_score_after_calculate_pagerank
    (links : list (string * string)) (url : string) :
  get_score url (calculate_pagerank (after links))
  = match url_to_id (after links) !! url with
    | Some i => nth i (final_scores (after links)) 0
    | None => 0
    end.
Proof. apply get_score_lookup. Qed.

(** X23: after [calculate_pagerank] on the graph left by one or more
    [add_link] calls, the scores of the URLs of the graph sum to 1 (in exact
    arithmetic). *)
Theorem stored_scores_sum_to_one (links : list (string * string)) :
  links <> nil ->
  let self := calculate_pagerank (after links) in
  vsum ((fun url => get_score url self) <$> elements (dom (url_to_id (after links)))) = 1.
Proof.
  intros Hne self.
  pose proof (after_ids_wf links) as Hwf.
  pose proof (after_graph_not_empty links Hne) as Hg.
  rewrite (vsum_by_id (after links) (final_scores (after links))).
  - assert (Hn : (0 < size (url_to_id (after links)))%nat).
    { destruct (exists_last Hne) as (l & [source target] & Hl).
      destruct Hwf as (Hnext & _ & _ & Hlt). rewrite <- Hnext.
      assert (Hi : url_to_id (after links) !! target
                   = Some (_get_or_create_id target
                             (_get_or_create_id source (after l)).2).1).
      { rewrite Hl, after_snoc.
        destruct (add_link_ids source target (after l)) as (_ & -> & _).
        apply _get_or_create_id_lookup. }
      apply Hlt in Hi. lia. }
    unfold final_scores.
    destruct (uniform_mass _ Hn) as [Hulen Husum].
    revert Hulen Husum. generalize (uniform (size (url_to_id (after links)))).
    induction (max_iterations (after links)) as [|k IH]; intros v Hv Hs;
      cbn [power_iteration]; [done |].
    destruct (Py.Qcltb _ _); [done |].
    apply IH.
    + apply _pagerank_iteration_length, _build_transition_matrix_spec.
    + apply (_pagerank_iteration_mass _ (size (url_to_id (after links)))); try done.
      * apply _build_transition_matrix_spec.
      * by apply after_columns.
  - done.
  - apply final_scores_length.
  - intros url i Hi. unfold self.
    pose proof (get_score_lookup links url) as H. by rewrite Hi in H.
Qed.

End PersonalizedPageRank.

Section PersonalizedWitnesses.

Import PageRank.

(** The three-page cycle, personalised on its first page with the default
    [alpha]. *)
Lemma personalized_scores_sum_to_one_witness :
  let self := after (("A", "B") :: ("B", "C") :: ("C", "A") :: nil) in
  let seed_ids := seed_ids_of self ("A" :: nil) in
  length (personalized_scores seed_ids (Py.qc 15 100) self) = size (url_to_id self)
  /\ vsum (personalized_scores seed_ids (Py.qc 15 100) self) = 1%Qc.
Proof.
  apply (personalized_scores_sum_to_one
           (("A", "B") :: ("B", "C") :: ("C", "A") :: nil) ("A" :: nil) (Py.qc 15 100)).
  - apply NoDup_singleton.
  - vm_compute. discriminate.
Defined.

(** The three-page cycle. *)
Lemma stored_scores_sum_to_one_witness :
  let links := ("A", "B") :: ("B", "C") :: ("C", "A") :: nil in
  let self := calculate_pagerank (after links) in
  vsum ((fun url => get_score url self) <$> elements (dom (url_to_id (after links))))
  = 1%Qc.
Proof.
  apply (stored_scores_sum_to_one (("A", "B") :: ("B", "C") :: ("C", "A") :: nil)).
  discriminate.
Defined.

End PersonalizedWitnesses.

Section PersonalizedDictionary.

Import PageRank.

Local Open Scope Qc_scope.

Lemma seed_ids_of_empty self seed_urls :
  url_to_id self = ∅ -> seed_ids_of self seed_urls = nil.
Proof.
  intros He. unfold seed_ids_of. rewrite He.
  induction seed_urls as [|url urls IH]; [done |].
  cbn [omap list_omap]. by rewrite lookup_empty.
Qed.

(** X24: on the graph left by any sequence of [add_link] calls,
    [personalized_pagerank] returns the empty dictionary when no seed URL is
    in the graph; otherwise the keys of its result are the URLs of the
    graph, each with the entry of the final vector at its id. *)
Theorem personalized_pagerank_lookup
    (links : list (string * string)) (seed_urls : list string) (alpha : Qc)
    (url : string) :
  let self := after links in
  let seed_ids := seed_ids_of self seed_urls in
  personalized_pagerank seed_urls alpha self !! url
  = if decide (seed_ids = nil) then None
    else match url_to_id self !! url with
         | Some i => personalized_scores seed_ids alpha self !! i
         | None => None
         end.
Proof.
  intros self seed_ids. unfold personalized_pagerank. fold seed_ids.
  destruct (decide (seed_urls = nil \/ url_to_id self = ∅)) as [[->|He]|_].
  - by rewrite lookup_empty.
  - unfold seed_ids. rewrite (seed_ids_of_empty self seed_urls He).
    by rewrite lookup_empty.
  - destruct (decide (seed_ids = nil)) as [_|Hne]; [by rewrite lookup_empty |].
    pose proof (after_ids_wf links) as Hwf. fold self in Hwf.
    unfold scores_by_url.
    rewrite (imap_ext pair (fun i x => ((0 + i)%nat, x))) by done.
    rewrite store_fold by done.
    destruct (url_to_id self !! url) as [i|] eqn:E; [|by rewrite lookup_empty].
    rewrite personalized_scores_length by apply (seed_ids_lt self seed_urls Hwf).
    destruct Hwf as (Hnext & _ & _ & Hlt). apply Hlt in E.
    rewrite decide_True by lia. by rewrite Nat.sub_0_r.
Qed.

End PersonalizedDictionary.

(** ** The query parser: operators, filters, expansion and suggestions *)

Section QueryParserExtras.

Import QueryParser.

Lemma all_ascii (P : ascii -> bool) :
  forallb P (ascii_of_nat <$> seq 0 256) = true -> forall a, P a = true.
Proof.
  intros H a. rewrite forallb_forall in H. apply H.
  rewrite <- (ascii_nat_embedding a). apply in_map, in_seq.
  pose proof (nat_ascii_bounded a). lia.
Qed.

(** Two characters that the case-insensitive comparison identifies have the
    same upper case. *)
Lemma ci_char a b :
  Ascii.eqb (Py.lower_char a) (Py.lower_char b) = true ->
  Py.upper_char b = Py.upper_char a.
Proof.
  assert (H : forall a,
            forallb (fun b =>
                       implb (Ascii.eqb (Py.lower_char a) (Py.lower_char b))
                             (Ascii.eqb (Py.upper_char b) (Py.upper_char a)))
                    (ascii_of_nat <$> seq 0 256) = true).
  { apply (all_ascii (fun a => forallb (fun b =>
             implb (Ascii.eqb (Py.lower_char a) (Py.lower_char b))
                   (Ascii.eqb (Py.upper_char b) (Py.upper_char a)))
             (ascii_of_nat <$> seq 0 256))).
    vm_compute. reflexivity. }
  intros Hab.
  pose proof (all_ascii _ (H a) b) as Hb. cbv beta in Hb.
  rewrite Hab in Hb. by apply Ascii.eqb_eq in Hb.
Qed.

Lemma first_alt_spec ci prev alts s w :
  Py.first_alt ci prev alts s = Some w -> w ∈ alts /\ Py.starts_with ci w s = true.
Proof.
  induction alts as [|a alts IH]; [done |]. cbn [Py.first_alt].
  destruct (Py.word_match_at ci prev a s) eqn:E.
  - intros [= <-]. split; [left |]. unfold Py.word_match_at in E.
    apply andb_true_iff in E as [E _]. by apply andb_true_iff in E as [_ E].
  - intros H. apply IH in H as [H1 H2]. split; [by right | done].
Qed.

(** Every match that [finditer] lists is the text of the query at a place
    where one of the alternatives starts. *)
Lemma finditer_words_from_spec ci alts m : forall s prev skip,
  m ∈ Py.finditer_words_from ci prev alts skip s ->
  exists w pre s', w ∈ alts /\ s = pre ++ s' /\ Py.starts_with ci w s' = true
                   /\ m = Py.stake (String.length w) s'.
Proof.
  assert (Hext : forall c (s : string),
            (exists w pre s', w ∈ alts /\ s = pre ++ s' /\ Py.starts_with ci w s' = true
                              /\ m = Py.stake (String.length w) s') ->
            exists w pre s', w ∈ alts /\ String c s = pre ++ s'
                             /\ Py.starts_with ci w s' = true
                             /\ m = Py.stake (String.length w) s').
  { intros c s (w & pre & s' & Hw & -> & Hs & Hm).
    exists w, (String c pre), s'. done. }
  induction s as [|c s IH]; intros prev skip Hm.
  - destruct skip as [|k]; cbn [Py.finditer_words_from] in Hm.
    + destruct (Py.first_alt ci prev alts "") as [w|] eqn:E.
      * apply list_elem_of_singleton in Hm. apply first_alt_spec in E as [Hw Hs].
        exists w, "", "". done.
      * by apply elem_of_nil in Hm.
    + by apply elem_of_nil in Hm.
  - destruct skip as [|k]; cbn [Py.finditer_words_from] in Hm.
    + destruct (Py.first_alt ci prev alts (String c s)) as [w|] eqn:E.
      * apply elem_of_cons in Hm as [Hm|Hm].
        -- apply first_alt_spec in E as [Hw Hs]. exists w, "", (String c s). done.
        -- by apply Hext, (IH _ _ Hm).
      * by apply Hext, (IH _ _ Hm).
    + by apply Hext, (IH _ _ Hm).
Qed.

Lemma ci_match_upper w : forall s,
  Py.starts_with true w s = true -> Py.upper (Py.stake (String.length w) s) = Py.upper w.
Proof.
  induction w as [|a w IH]; intros s H; [by destruct s |].
  destruct s as [|b s]; [done |]. cbn [Py.starts_with] in H.
  apply andb_true_iff in H as [Hab H].
  cbn [String.length Py.stake]. unfold Py.upper. cbn [Py.smap].
  rewrite (ci_char a b Hab). f_equal. by apply IH.
Qed.

Lemma ci_match_lower w : forall s,
  Py.starts_with true w s = true -> Py.startswith (Py.lower s) (Py.lower w) = true.
Proof.
  unfold Py.startswith, Py.lower.
  induction w as [|a w IH]; intros s H; [done |].
  destruct s as [|b s]; [done |]. cbn [Py.starts_with] in H.
  apply andb_true_iff in H as [Hab H]. cbn [Py.smap Py.starts_with].
  rewrite Hab. by apply IH.
Qed.

Lemma smap_app f a b : Py.smap f (a ++ b) = Py.smap f a ++ Py.smap f b.
Proof. induction a as [|c a IH]; [done |]. simpl. by rewrite IH. Qed.

Lemma contains_app p pre s :
  Py.startswith s p = true -> Py.contains p (pre ++ s) = true.
Proof.
  intros H. induction pre as [|c pre IH].
  - destruct s; simpl; rewrite H; done.
  - change (String c pre ++ s) with (String c (pre ++ s)). cbn [Py.contains].
    rewrite IH. apply orb_true_r.
Qed.

Lemma parse_query_operators process_text raw_query :
  exists remaining_query,
    operators (parse_query process_text raw_query)
    = (_extract_operators remaining_query).1.
Proof.
  unfold parse_query.
  destruct (_extract_phrases process_text raw_query) as [phrases remaining].
  exists remaining. by destruct (_extract_operators remaining) as [operators remaining'].
Qed.

(** X25: whatever the query and its letter case, the operators of a parsed
    query are among AND, OR and NOT, in upper case. *)
Theorem operators_are_upper_case_keywords
    (process_text : string -> list string) (raw_query : string) :
  Forall (fun operator => operator ∈ ["AND"; "OR"; "NOT"])
         (operators (parse_query process_text raw_query)).
Proof.
  destruct (parse_query_operators process_text raw_query) as [q ->].
  unfold _extract_operators. cbn [fst]. apply Forall_fmap, Forall_forall.
  intros m Hm. unfold Py.finditer_words in Hm.
  apply finditer_words_from_spec in Hm as (w & pre & s' & Hw & _ & Hs & ->).
  cbn [compose]. rewrite (ci_match_upper w s' Hs).
  repeat (apply elem_of_cons in Hw as [->|Hw]; [vm_compute; set_solver |]).
  by apply elem_of_nil in Hw.
Qed.

(** X26: a query in which [_extract_operators] finds an operator is a
    boolean query for [_detect_query_type]. *)
Theorem query_with_operator_is_boolean (query : string) :
  (_extract_operators query).1 <> [] -> _detect_query_type query = "boolean".
Proof.
  intros Hne. unfold _extract_operators in Hne. cbn [fst] in Hne.
  destruct (Py.finditer_words true ["AND"; "OR"; "NOT"] query) as [|m ms] eqn:E; [done |].
  assert (Hm : m ∈ Py.finditer_words true ["AND"; "OR"; "NOT"] query)
    by (rewrite E; left).
  unfold Py.finditer_words in Hm.
  apply finditer_words_from_spec in Hm as (w & pre & s' & Hw & Hq & Hs & _).
  unfold _detect_query_type.
  assert (Hex : existsb (fun op => Py.contains op (Py.lower query)) ["and"; "or"; "not"]
                = true).
  { apply existsb_exists. exists (Py.lower w). split.
    - repeat (apply elem_of_cons in Hw as [->|Hw]; [vm_compute; tauto |]).
      by apply elem_of_nil in Hw.
    - rewrite Hq. unfold Py.lower at 2. rewrite smap_app.
      apply contains_app. by apply ci_match_lower. }
  by rewrite Hex.
Qed.

Lemma query_with_operator_is_boolean_witness :
  _detect_query_type "cats AND dogs" = "boolean".
Proof. apply query_with_operator_is_boolean. vm_compute. discriminate. Defined.

(** The value that a [key:value] filter captures is not empty and has no
    blank. *)
Lemma search_key_value_spec key s v :
  Py.search_key_value key s = Some v ->
  v <> "" /\ Py.sall (fun c => negb (Py.is_space c)) v = true.
Proof.
  assert (Hhere : forall s,
            (if Py.starts_with true key s then
               match (Py.span_until Py.is_space (Py.sdrop (String.length key) s)).1 with
               | "" => None
               | v => Some v
               end
             else None) = Some v ->
            v <> "" /\ Py.sall (fun c => negb (Py.is_space c)) v = true).
  { intros s0 H. destruct (Py.starts_with true key s0); [|done].
    pose proof (span_until_prefix Py.is_space (Py.sdrop (String.length key) s0)) as Hp.
    destruct (Py.span_until Py.is_space (Py.sdrop (String.length key) s0)).1 as [|c r];
      [done |].
    inversion H; subst. done. }
  induction s as [|c s IH]; cbn [Py.search_key_value].
  - intros H.
    destruct (if Py.starts_with true key "" then _ else _) as [v'|] eqn:E; [|done].
    inversion H; subst. by apply (Hhere "").
  - intros H.
    destruct (if Py.starts_with true key (String c s) then _ else _) as [v'|] eqn:E.
    + inversion H; subst. by apply (Hhere (String c s)).
    + by apply IH.
Qed.

Lemma first_date_spec patterns query period :
  first_date patterns query = Some period -> period ∈ patterns.*1.
Proof.
  induction patterns as [|[p pat] patterns IH]; [done |]. cbn [first_date].
  destruct (Py.search_words true pat query).
  - intros [= <-]. left.
  - intros H. right. by apply IH.
Qed.

(** X27: the filters of a parsed query: the keys are among site, filetype
    and date, in this order and at most once each; the value of site and of
    filetype is not empty and has no blank; the value of date is one of the
    four periods. *)
Theorem filters_are_well_formed
    (process_text : string -> list string) (raw_query : string) :
  let filters := filters (parse_query process_text raw_query) in
  sublist filters.*1 ["site"; "filetype"; "date"]
  /\ Forall (fun '(key, value) =>
               (key <> "date" ->
                value <> "" /\ Py.sall (fun c => negb (Py.is_space c)) value = true)
               /\ (key = "date" ->
                   value ∈ ["last_day"; "last_week"; "last_month"; "last_year"]))
            filters.
Proof.
  destruct (parse_query_fields process_text raw_query) as (_ & _ & ->).
  unfold _extract_filters.
  pose proof (search_key_value_spec "site:" raw_query) as Hsite.
  pose proof (search_key_value_spec "filetype:" raw_query) as Hfile.
  pose proof (first_date_spec date_patterns raw_query) as Hdate.
  split.
  - assert (Hk : forall key (v : option string), sublist (opt_item key v).*1 [key]).
    { intros key [v|]; [done | apply sublist_nil_l]. }
    rewrite !fmap_app.
    change ["site"; "filetype"; "date"] with (["site"] ++ ["filetype"] ++ ["date"])%list.
    repeat apply sublist_app; apply Hk.
  - repeat apply Forall_app_2.
    + destruct (Py.search_key_value "site:" raw_query) as [site|];
        [|apply Forall_nil_2]. apply Forall_singleton. split; [|done].
      intros _. by apply Hsite.
    + destruct (Py.search_key_value "filetype:" raw_query) as [filetype|];
        [|apply Forall_nil_2]. apply Forall_singleton. split; [|done].
      intros _. by apply Hfile.
    + destruct (first_date date_patterns raw_query) as [period|];
        [|apply Forall_nil_2]. apply Forall_singleton. split; [done |].
      intros _. by apply (Hdate period).
Qed.

Lemma expand_fold (terms : list string) : forall expanded_terms : list string,
  foldl (fun expanded_terms term =>
           match synonyms !! term with
           | Some l => (expanded_terms ++ l)%list
           | None => expanded_terms
           end) expanded_terms terms
  = (expanded_terms ++ (terms ≫= fun term => default [] (synonyms !! term)))%list.
Proof.
  induction terms as [|term terms IH]; intros expanded_terms; cbn [foldl].
  - by rewrite app_nil_r.
  - rewrite IH, bind_cons.
    destruct (synonyms !! term) as [l|]; cbn [from_option id].
    + by rewrite <- app_assoc.
    + done.
Qed.

Lemma synonyms_length term l : synonyms !! term = Some l -> length l = 3.
Proof.
  unfold synonyms. intros H. apply elem_of_list_to_map_2 in H.
  repeat (apply elem_of_cons in H as [[= -> ->]|H]; [done |]).
  by apply elem_of_nil in H.
Qed.

(** X28: [expand_query] returns the processed terms followed by the
    synonyms of each term in turn; synonyms are not expanded again; the
    result is longer by three for each term that has synonyms, and a query
    without such terms is returned as it is. *)
Theorem expand_query_appends_synonyms (processed_query : parsed) :
  let terms := processed_terms processed_query in
  expand_query processed_query
  = (terms ++ (terms ≫= fun term => default [] (synonyms !! term)))%list
  /\ length (expand_query processed_query)
     = length terms + 3 * length (filter (fun term => is_Some (synonyms !! term)) terms)
  /\ (Forall (fun term => synonyms !! term = None) terms ->
      expand_query processed_query = terms).
Proof.
  intros terms. unfold expand_query. fold terms. rewrite expand_fold.
  split_and!; [done | |].
  - rewrite length_app. f_equal. generalize terms. clear. intros l.
    induction l as [|term l IH]; [done |].
    rewrite bind_cons, length_app, IH, filter_cons.
    destruct (synonyms !! term) as [syns|] eqn:E; cbn [from_option id].
    + rewrite decide_True by done. apply synonyms_length in E. cbn [length]. lia.
    + rewrite decide_False by (by intros [? ?]). done.
  - generalize terms. clear. intros l Hno.
    assert (H : (l ≫= fun term => default [] (synonyms !! term)) = []).
    { induction Hno as [|term ts Hterm _ IH]; [done |].
      by rewrite bind_cons, Hterm, IH. }
    by rewrite H, app_nil_r.
Qed.

Lemma filter_drops (f : string -> bool) (l : list string) x :
  x ∈ l -> f x = false -> length (List.filter f l) < length l.
Proof.
  induction l as [|y l IH]; intros Hx Hf; [by apply elem_of_nil in Hx |].
  cbn [List.filter length]. pose proof (List.filter_length_le f l) as Hle.
  apply elem_of_cons in Hx as [<-|Hx].
  - rewrite Hf. lia.
  - specialize (IH Hx Hf). destruct (f y); cbn [length]; lia.
Qed.

(** X29: the suggestions for a partial query are the common queries that
    start with the partial query in lower case;
    the cut to five drops a query only for the empty partial query, which
    loses the last common query. *)
Theorem get_query_suggestions_spec (partial_query query : string) :
  query ∈ get_query_suggestions partial_query
  <-> query ∈ common_queries
      /\ Py.startswith query (Py.lower partial_query) = true
      /\ (partial_query = "" -> query <> "software engineering").
Proof.
  unfold get_query_suggestions. destruct partial_query as [|c partial].
  - cbn. unfold common_queries. rewrite !elem_of_cons, elem_of_nil. split.
    + intros H. split_and!; [tauto | | ].
      * by destruct query.
      * intros _ ->. repeat destruct H as [H|H]; done.
    + intros (H & _ & Hne). specialize (Hne eq_refl). tauto.
  - rewrite take_ge.
    + rewrite list_elem_of_In, filter_In, <- list_elem_of_In.
      split; [intros [H1 H2] | intros (H1 & H2 & _)]; done.
    + set (partial_lower := Py.lower (String c partial)).
      destruct (Py.startswith "python programming" partial_lower) eqn:Ep.
      * assert (Em : Py.startswith "machine learning" partial_lower = false).
        { unfold partial_lower, Py.lower, Py.startswith in *.
          cbn [Py.smap Py.starts_with] in *.
          apply andb_true_iff in Ep as [Ep _]. apply Ascii.eqb_eq in Ep.
          rewrite Ep. done. }
        pose proof (filter_drops (fun q => Py.startswith q partial_lower)
                      common_queries "machine learning") as H.
        cbn [length common_queries] in H. unfold common_queries in H.
        cbn [length] in H. apply Nat.lt_succ_r, H; [|done].
        right. left.
      * pose proof (filter_drops (fun q => Py.startswith q partial_lower)
                      common_queries "python programming") as H.
        unfold common_queries in H. cbn [length] in H.
        apply Nat.lt_succ_r, H; [|done]. left.
Qed.

End QueryParserExtras.

(** ** The term weights of the text processor *)

Section TermWeights.

Import TextProcessor.

Local Open Scope Qc_scope.

Lemma weight_pos feature_name : 0 < default 1 (weights !! feature_name).
Proof.
  destruct (weights !! feature_name) as [w|] eqn:E; cbn [from_option id]; [|done].
  unfold weights in E. apply elem_of_list_to_map_2 in E.
  repeat (apply elem_of_cons in E as [[= -> ->]|E]; [done |]).
  by apply elem_of_nil in E.
Qed.

Lemma count_of_cons term t terms :
  count_of term (t :: terms)
  = if decide (t = term) then S (count_of term terms) else count_of term terms.
Proof. unfold count_of. rewrite filter_cons. by destruct (decide (t = term)). Qed.

Lemma count_of_pos term terms : term ∈ terms -> (0 < count_of term terms)%nat.
Proof.
  induction terms as [|t terms IH]; intros H; [by apply elem_of_nil in H |].
  rewrite count_of_cons. destruct (decide (t = term)) as [|Hne]; [lia |].
  apply elem_of_cons in H as [->|H]; [done | by apply IH].
Qed.

Lemma count_of_zero term terms : term ∉ terms -> count_of term terms = 0%nat.
Proof.
  induction terms as [|t terms IH]; intros H; [done |].
  rewrite count_of_cons. apply not_elem_of_cons in H as [Hne H].
  rewrite decide_False by done. by apply IH.
Qed.

(** The inner loop, for one feature. *)
Lemma add_weights_lookup weight term (terms : list string) :
  forall term_weights : gmap string Qc,
    let r := foldl (add_weight weight) term_weights terms in
    default 0 (r !! term)
    = default 0 (term_weights !! term) + Py.of_nat (count_of term terms) * weight
    /\ (r !! term = None <-> term_weights !! term = None /\ term ∉ terms).
Proof.
  induction terms as [|t terms IH]; intros tw; cbn zeta; cbn [foldl].
  - unfold count_of. cbn. rewrite of_nat_0. split; [ring |].
    split; [intros H; split; [done | apply not_elem_of_nil] | by intros [H _]].
  - destruct (IH (add_weight weight tw t)) as [Hsum Hnone].
    rewrite Hsum, Hnone, count_of_cons. unfold add_weight.
    destruct (decide (t = term)) as [->|Hne].
    + rewrite lookup_insert_eq. cbn [from_option id]. rewrite of_nat_S.
      split; [ring |]. split; [by intros [H _] |].
      intros [_ H]. exfalso. apply H. left.
    + rewrite lookup_insert_ne by done. split; [done |].
      rewrite not_elem_of_cons. split; [intros [H1 H2]; done | intros [H1 [_ H2]]; done].
Qed.

(** The outer loop, over the features. *)
Lemma calculate_term_weights_fold term (features : list (string * list string)) :
  forall term_weights : gmap string Qc,
    let r := foldl (fun term_weights '(feature_name, terms) =>
                      let weight := default 1 (weights !! feature_name) in
                      foldl (add_weight weight) term_weights terms)
                   term_weights features in
    default 0 (r !! term) = default 0 (term_weights !! term) + weighted_count term features
    /\ (r !! term = None
        <-> term_weights !! term = None /\ Forall (fun '(_, terms) => term ∉ terms) features).
Proof.
  induction features as [|[name terms] features IH]; intros tw; cbn zeta; cbn [foldl].
  - cbn [weighted_count foldr]. split; [ring |].
    split; [intros H; split; [done | constructor] | by intros [H _]].
  - destruct (IH (foldl (add_weight (default 1 (weights !! name))) tw terms))
      as [Hsum Hnone].
    destruct (add_weights_lookup (default 1 (weights !! name)) term terms tw)
      as [Hsum1 Hnone1].
    cbn zeta in Hsum, Hnone, Hsum1, Hnone1.
    rewrite Hsum, Hnone, Hsum1, Hnone1. cbn [weighted_count foldr].
    split; [fold (weighted_count term features); ring |].
    rewrite Forall_cons. tauto.
Qed.

Lemma weighted_count_sign term (features : list (string * list string)) :
  (Forall (fun '(_, terms) => term ∉ terms) features /\ weighted_count term features = 0)
  \/ (~ Forall (fun '(_, terms) => term ∉ terms) features
      /\ 0 < weighted_count term features).
Proof.
  induction features as [|[name terms] features IH].
  - left. split; [constructor | done].
  - cbn [weighted_count foldr]. fold (weighted_count term features).
    pose proof (weight_pos name) as Hw.
    assert (Hrest : 0 <= weighted_count term features).
    { destruct IH as [[_ ->]|[_ H]]; [apply Qcle_refl | by apply Qclt_le_weak]. }
    destruct (decide (term ∈ terms)) as [Hin|Hout].
    + right. split; [rewrite Forall_cons; tauto |].
      apply count_of_pos, of_nat_pos in Hin.
      apply Qclt_le_trans with (default 1 (weights !! name) * Py.of_nat (count_of term terms)).
      * rewrite <- (Qcmult_0_l (Py.of_nat (count_of term terms))).
        by apply Qcmult_lt_compat_r.
      * rewrite <- (Qcplus_0_r (_ * _)) at 1. by apply Qcplus_le_compat; [apply Qcle_refl |].
    + rewrite (count_of_zero term terms Hout), of_nat_0.
      destruct IH as [[HF H0]|[HF Hpos]].
      * left. split; [by rewrite Forall_cons |]. rewrite H0. ring.
      * right. split; [rewrite Forall_cons; tauto |].
        by replace (default 1 (weights !! name) * 0 + weighted_count term features)
          with (weighted_count term features) by ring.
Qed.

(** X30: the weight that [calculate_term_weights] gives a term is the sum,
    over the features, of the weight of the feature (1 for an unknown
    feature) times the number of occurrences of the term in it; a term has
    an entry exactly when it occurs in a feature, and every entry is
    positive (in exact arithmetic). *)
Theorem calculate_term_weights_spec
    (processed_features : list (string * list string)) (term : string) :
  let term_weights := calculate_term_weights processed_features in
  default 0 (term_weights !! term) = weighted_count term processed_features
  /\ (term_weights !! term = None
      <-> Forall (fun '(_, terms) => term ∉ terms) processed_features)
  /\ (forall weight, term_weights !! term = Some weight -> 0 < weight).
Proof.
  intros term_weights.
  destruct (calculate_term_weights_fold term processed_features ∅) as [Hsum Hnone].
  cbn zeta in Hsum, Hnone. fold (calculate_term_weights processed_features) in Hsum, Hnone.
  fold term_weights in Hsum, Hnone. rewrite lookup_empty in Hsum, Hnone.
  cbn [from_option id] in Hsum.
  assert (Hs : default 0 (term_weights !! term) = weighted_count term processed_features)
    by (rewrite Hsum; ring).
  split_and!; [done | tauto |].
  intros weight Hw. rewrite Hw in Hs. cbn [from_option id] in Hs. rewrite Hs.
  destruct (weighted_count_sign term processed_features) as [[HF _]|[_ Hpos]]; [|done].
  assert (Hn : term_weights !! term = None) by (apply Hnone; done).
  congruence.
Qed.

End TermWeights.
